(** * mazes.py: a shallow embedding of the grid, markup and maze generators

    The Python module keeps its maze in mutable [Cell] objects that refer
    to each other (geographic neighbours and carved links).  The embedding
    models that object graph as a store of cell records addressed by
    references, the module-level random generator as a sequence of raw
    draws with a cursor, and every method as a computation in a state and
    exception monad whose state survives a raised exception (Python does
    not roll a mutation back when a later statement raises). *)

From stdpp Require Import gmap list strings.
From Stdlib Require Import ZArith QArith Lia.

Local Open Scope Z_scope.

(** ** Python values and outcomes *)

(** The built-in exceptions the module can raise. *)
Inductive PyErr :=
  | AssertionError | IndexError | KeyError | TypeError
  | AttributeError | ValueError.

(** Outcome of running a piece of the program: a value, a raised
    exception, exhausted fuel (only the two random-walk [while] loops can
    run for ever), or a read through a reference that names no object of
    the store (no Python program can do that; it only makes the store
    lookup total). *)
Inductive Res (A : Type) :=
  | Ok (a : A)
  | Raise (e : PyErr)
  | OutOfFuel
  | Dangling.
Arguments Ok {A} a.
Arguments Raise {A} e.
Arguments OutOfFuel {A}.
Arguments Dangling {A}.

(** A cell object is referred to by the address the store gives it.
    [Grid.create_cells] is the only allocation site of the module and it
    makes one cell per (row, column), so that pair serves as the address:
    a world holds the cells of one grid. *)
Abbreviation Ref := (Z * Z)%type (only parsing).

(** The attributes of a [Cell] instance.  [links] is the dict of carved
    neighbours (all its values are [True]); [cell_visited_attr] records
    the instance attribute [cell_visited] that [aldous_broder] assigns
    over the method of that name. *)
Record Cell := mkCell {
  row : Z;
  column : Z;
  links : gmap Ref bool;
  north : option Ref;
  south : option Ref;
  east : option Ref;
  west : option Ref;
  visit : bool;
  cell_visited_attr : bool
}.

(** The state of the interpreter the module touches: the cell objects and
    the global [random] generator, a fixed sequence of raw draws of which
    [pos] is the next one. *)
Record World := mkWorld {
  heap : gmap Ref Cell;
  draws : nat -> Z;
  pos : nat
}.

Definition M (A : Type) : Type := World -> Res A * World.

Definition ret {A} (a : A) : M A := fun w => (Ok a, w).

Definition bind {A B} (m : M A) (k : A -> M B) : M B :=
  fun w =>
    match m w with
    | (Ok a, w') => k a w'
    | (Raise e, w') => (Raise e, w')
    | (OutOfFuel, w') => (OutOfFuel, w')
    | (Dangling, w') => (Dangling, w')
    end.

Definition raise {A} (e : PyErr) : M A := fun w => (Raise e, w).

Definition lift {A} (r : Res A) : M A := fun w => (r, w).

Declare Scope py_scope.
Delimit Scope py_scope with py.
Notation "x <- c1 ;; c2" := (bind c1 (fun x => c2))
  (at level 100, c1 at next level, right associativity) : py_scope.
Notation "c1 ;; c2" := (bind c1 (fun _ => c2))
  (at level 100, right associativity) : py_scope.
Local Open Scope py_scope.

(** [assert b] *)
Definition py_assert (b : bool) : M unit :=
  if b then ret tt else raise AssertionError.

(** [for x in l: acc = body(acc, x)], the loop-carried locals in [acc]. *)
Fixpoint fold_M {A B} (body : B -> A -> M B) (l : list A) (acc : B) : M B :=
  match l with
  | [] => ret acc
  | x :: l' => acc' <- body acc x ;; fold_M body l' acc'
  end.

(** [for x in l: body(x)] *)
Definition for_each {A} (body : A -> M unit) (l : list A) : M unit :=
  fold_M (fun _ x => body x) l tt.

(** [while True: ...] with a bound on the number of iterations; the body
    answers [inl s] to go round again with locals [s], [inr r] to leave. *)
Fixpoint loop {S R} (fuel : nat) (body : S -> M (S + R)) (s : S) : M R :=
  match fuel with
  | O => lift OutOfFuel
  | Datatypes.S n =>
      r <- body s ;;
      match r with
      | inl s' => loop n body s'
      | inr r => ret r
      end
  end.

(** [range(a, b)] and [range(b)] *)
Definition py_range2 (a b : Z) : list Z :=
  (fun i => a + Z.of_nat i) <$> seq 0 (Z.to_nat (b - a)).
Definition py_range (b : Z) : list Z := py_range2 0 b.

(** [l[i]] on a list: a negative index counts from the end, anything
    outside [-len, len) raises IndexError. *)
Definition py_index {A} (l : list A) (i : Z) : Res A :=
  let n := Z.of_nat (length l) in
  let j := if i <? 0 then i + n else i in
  if (j <? 0) || (n <=? j) then Raise IndexError
  else match l !! Z.to_nat j with
       | Some x => Ok x
       | None => Raise IndexError
       end.

(** ** The random module *)

(** The next raw draw of the generator. *)
Definition next_draw : M Z :=
  fun w => (Ok (draws w (pos w)), mkWorld (heap w) (draws w) (S (pos w))).

(** [random.random()]: a multiple of 2^-53 in [0, 1). *)
Definition random_random : M Q :=
  d <- next_draw ;; ret (Qmake (d mod 2 ^ 53) (2 ^ 53)).

(** [random.uniform(a, b)] is [a + (b - a) * random()]. *)
Definition random_uniform (a b : Q) : M Q :=
  r <- random_random ;; ret (a + (b - a) * r)%Q.

(** [random.choice(seq)]: IndexError on an empty sequence, otherwise the
    entry at an index below [len(seq)] taken from the generator. *)
Definition random_choice {A} (l : list A) : M A :=
  match l with
  | [] => raise IndexError
  | _ =>
      d <- next_draw ;;
      lift (py_index l (d mod Z.of_nat (length l)))
  end.

(** ** class Cell *)

Definition get_cell (r : Ref) : M Cell :=
  fun w => match heap w !! r with
           | Some c => (Ok c, w)
           | None => (Dangling, w)
           end.

Definition put_cell (r : Ref) (c : Cell) : M unit :=
  fun w => (Ok tt, mkWorld (<[r := c]> (heap w)) (draws w) (pos w)).

Definition set_links (c : Cell) (l : gmap Ref bool) : Cell :=
  mkCell (row c) (column c) l (north c) (south c) (east c) (west c)
         (visit c) (cell_visited_attr c).
Definition set_north (c : Cell) (n : option Ref) : Cell :=
  mkCell (row c) (column c) (links c) n (south c) (east c) (west c)
         (visit c) (cell_visited_attr c).
Definition set_south (c : Cell) (n : option Ref) : Cell :=
  mkCell (row c) (column c) (links c) (north c) n (east c) (west c)
         (visit c) (cell_visited_attr c).
Definition set_east (c : Cell) (n : option Ref) : Cell :=
  mkCell (row c) (column c) (links c) (north c) (south c) n (west c)
         (visit c) (cell_visited_attr c).
Definition set_west (c : Cell) (n : option Ref) : Cell :=
  mkCell (row c) (column c) (links c) (north c) (south c) (east c) n
         (visit c) (cell_visited_attr c).
Definition set_visit (c : Cell) (b : bool) : Cell :=
  mkCell (row c) (column c) (links c) (north c) (south c) (east c) (west c)
         b (cell_visited_attr c).
Definition set_cell_visited_attr (c : Cell) (b : bool) : Cell :=
  mkCell (row c) (column c) (links c) (north c) (south c) (east c) (west c)
         (visit c) b.

(** [Cell(row, column)]: the two assertions, then a fresh object. *)
Definition Cell_init (r c : Z) : M Ref :=
  py_assert (0 <=? r) ;;
  py_assert (0 <=? c) ;;
  put_cell (r, c) (mkCell r c ∅ None None None None false false) ;;
  ret (r, c).

(** [assert isinstance(cell, Cell)]: the argument is a cell or [None]. *)
Definition assert_cell (cell : option Ref) : M Ref :=
  match cell with
  | Some c => ret c
  | None => raise AssertionError
  end.

(** [self.links[cell] = True] *)
Definition links_setitem (self cell : Ref) : M unit :=
  c <- get_cell self ;; put_cell self (set_links c (<[cell := true]> (links c))).

(** [del self.links[cell]] *)
Definition links_delitem (self cell : Ref) : M unit :=
  c <- get_cell self ;;
  match links c !! cell with
  | Some _ => put_cell self (set_links c (delete cell (links c)))
  | None => raise KeyError
  end.

(** [Cell.link]; the call it makes on [cell] with [bidirectional=False]
    is the first two statements again, on the other cell. *)
Definition link (self : Ref) (cell : option Ref) (bidirectional : bool) : M unit :=
  c <- assert_cell cell ;;
  links_setitem self c ;;
  if bidirectional then
    s <- assert_cell (Some self) ;; links_setitem c s
  else ret tt.

(** [Cell.unlink], the inner call unfolded the same way. *)
Definition unlink (self : Ref) (cell : option Ref) (bidirectional : bool) : M unit :=
  c <- assert_cell cell ;;
  links_delitem self c ;;
  if bidirectional then
    s <- assert_cell (Some self) ;; links_delitem c s
  else ret tt.

(** [Cell.is_linked] *)
Definition is_linked (self : Ref) (cell : option Ref) : M bool :=
  c <- assert_cell cell ;;
  s <- get_cell self ;;
  ret (bool_decide (is_Some (links s !! c))).

(** [Cell.all_links]: the keys of the dict. *)
Definition all_links (self : Ref) : M (list Ref) :=
  s <- get_cell self ;; ret (fst <$> map_to_list (links s)).

(** [Cell.link_count] *)
Definition link_count (self : Ref) : M Z :=
  l <- all_links self ;; ret (Z.of_nat (length l)).

(** [Cell.neighbors] *)
Definition neighbors (self : Ref) : M (list Ref) :=
  s <- get_cell self ;;
  let l0 := [] in
  let l1 := match north s with Some n => l0 ++ [n] | None => l0 end in
  let l2 := match south s with Some n => l1 ++ [n] | None => l1 end in
  let l3 := match west s with Some n => l2 ++ [n] | None => l2 end in
  let l4 := match east s with Some n => l3 ++ [n] | None => l3 end in
  ret l4.

(** [Cell.cell_visited] and [Cell.is_visited] *)
Definition cell_visited (self : Ref) : M unit :=
  s <- get_cell self ;; put_cell self (set_visit s true).
Definition is_visited (self : Ref) : M bool :=
  s <- get_cell self ;; ret (visit s).

(** Attribute reads and writes on a cell object. *)
Definition getattr {A} (f : Cell -> A) (r : Ref) : M A :=
  c <- get_cell r ;; ret (f c).
Definition setattr (upd : Cell -> Cell) (r : Ref) : M unit :=
  c <- get_cell r ;; put_cell r (upd c).

(** ** class Grid *)

(** The attributes [Grid.__init__] sets. *)
Record Grid := mkGrid {
  num_rows : Z;
  num_columns : Z;
  grid : list (list Ref)
}.

(** [self.grid[i][j]] *)
Definition grid_at (self : Grid) (i j : Z) : Res Ref :=
  match py_index (grid self) i with
  | Ok r => py_index r j
  | Raise e => Raise e
  | OutOfFuel => OutOfFuel
  | Dangling => Dangling
  end.

(** [Grid.create_cells]; the comprehension builds [temp] left to right. *)
Definition create_cells (num_rows num_columns : Z) : M (list (list Ref)) :=
  fold_M (fun all_rows row =>
            temp <- fold_M (fun temp column =>
                              c <- Cell_init row column ;; ret (temp ++ [c]))
                           (py_range num_columns) [] ;;
            ret (all_rows ++ [temp]))
         (py_range num_rows) [].

(** The body of the inner loop of [Grid.connect_cells].  [cell.row] and
    [cell.column] are read once: nothing in the body assigns them. *)
Definition connect_cell (self : Grid) (cell : Ref) : M unit :=
  r <- getattr row cell ;;
  c <- getattr column cell ;;
  (if 0 <=? r - 1 then
     n <- lift (grid_at self (r - 1) c) ;; setattr (fun x => set_north x (Some n)) cell
   else ret tt) ;;
  (if r + 1 <? num_rows self then
     n <- lift (grid_at self (r + 1) c) ;; setattr (fun x => set_south x (Some n)) cell
   else ret tt) ;;
  (if 0 <=? c - 1 then
     n <- lift (grid_at self r (c - 1)) ;; setattr (fun x => set_west x (Some n)) cell
   else ret tt) ;;
  (if c + 1 <? num_columns self then
     n <- lift (grid_at self r (c + 1)) ;; setattr (fun x => set_east x (Some n)) cell
   else ret tt).

(** [Grid.connect_cells] *)
Definition connect_cells (self : Grid) : M unit :=
  for_each (fun list => for_each (connect_cell self) list) (grid self).

(** [Grid(num_rows, num_columns)] *)
Definition Grid_init (num_rows num_columns : Z) : M Grid :=
  py_assert (0 <? num_rows) ;;
  py_assert (0 <? num_columns) ;;
  g <- create_cells num_rows num_columns ;;
  let self := mkGrid num_rows num_columns g in
  connect_cells self ;;
  ret self.

(** [Grid.cell_at] *)
Definition cell_at (self : Grid) (row column : Z) : Res Ref :=
  grid_at self row column.

(** What [Grid.deadends] can put in its list: it appends the class
    object [Cell] itself, never an instance. *)
Inductive PyObj := ObjCell (r : Ref) | ClassCell.

(** [Cell.all_links()] called on the class, with no instance to bind
    [self] to: Python raises TypeError (a required positional argument is
    missing) before the body runs. *)
Definition Cell_all_links_unbound : M (list Ref) := raise TypeError.

(** [Grid.deadends] *)
Definition deadends (self : Grid) : M (list PyObj) :=
  let dead_end := [] in
  l <- Cell_all_links_unbound ;;
  if (length l =? 1)%nat then ret (dead_end ++ [ClassCell]) else ret dead_end.

(** [Grid.each_cell], the cells the generator yields, in order. *)
Definition each_cell (self : Grid) : M (list Ref) :=
  fold_M (fun out row =>
            fold_M (fun out col =>
                      c <- lift (cell_at self row col) ;; ret (out ++ [c]))
                   (py_range (num_columns self)) out)
         (py_range (num_rows self)) [].

(** [Grid.each_row] *)
Definition each_row (self : Grid) : list (list Ref) := grid self.

(** [Grid.random_cell] *)
Definition random_cell (self : Grid) : M Ref :=
  r <- random_choice (grid self) ;; random_choice r.

(** [Grid.size] *)
Definition Grid_size (self : Grid) : Z := num_rows self * num_columns self.

(** ** class Markup *)

(** A Python dict whose iteration order matters: the entries in insertion
    order.  Assigning to a key that is present keeps its place. *)
Fixpoint dict_set {K V} `{EqDecision K} (k : K) (v : V) (d : list (K * V)) : list (K * V) :=
  match d with
  | [] => [(k, v)]
  | (k', v') :: d' =>
      if decide (k = k') then (k, v) :: d' else (k', v') :: dict_set k v d'
  end.

Fixpoint dict_get {K V} `{EqDecision K} (k : K) (d : list (K * V)) (dflt : V) : V :=
  match d with
  | [] => dflt
  | (k', v') :: d' => if decide (k = k') then v' else dict_get k d' dflt
  end.

Definition dict_keys {K V} (d : list (K * V)) : list K := fst <$> d.

(** The attributes of a [Markup] over values of type [V]. *)
Record Markup (V : Type) := mkMarkup {
  m_grid : Grid;
  marks : list (Ref * V);
  default : V
}.
Arguments mkMarkup {V} _ _ _.
Arguments m_grid {V} _.
Arguments marks {V} _.
Arguments default {V} _.

(** [Markup(grid, default)] *)
Definition Markup_init {V} (grid : Grid) (default : V) : Markup V :=
  mkMarkup grid [] default.

(** [Markup.reset] *)
Definition Markup_reset {V} (self : Markup V) : Markup V :=
  mkMarkup (m_grid self) [] (default self).

(** [Markup.__setitem__] *)
Definition Markup_setitem {V} (self : Markup V) (cell : Ref) (value : V) : Markup V :=
  mkMarkup (m_grid self) (dict_set cell value (marks self)) (default self).

(** [Markup.__getitem__] *)
Definition Markup_getitem {V} (self : Markup V) (cell : Ref) : V :=
  dict_get cell (marks self) (default self).

(** The built-ins [max(iterable, key=f)] and [min(iterable, key=f)] on
    integer keys: ValueError on an empty iterable; otherwise the first
    item is the candidate and a later item replaces it only when its key
    is strictly greater (smaller). *)
Definition py_max {A} (l : list A) (key : A -> Z) : Res A :=
  match l with
  | [] => Raise ValueError
  | x :: l' => Ok (fold_left (fun best y => if key best <? key y then y else best) l' x)
  end.
Definition py_min {A} (l : list A) (key : A -> Z) : Res A :=
  match l with
  | [] => Raise ValueError
  | x :: l' => Ok (fold_left (fun best y => if key y <? key best then y else best) l' x)
  end.

(** [Markup.max] and [Markup.min], for a markup of integers. *)
Definition Markup_max (self : Markup Z) : Res Ref :=
  py_max (dict_keys (marks self)) (Markup_getitem self).
Definition Markup_min (self : Markup Z) : Res Ref :=
  py_min (dict_keys (marks self)) (Markup_getitem self).

(** [DijkstraMarkup(grid, root_cell, default)]: the base constructor,
    then [pass]. *)
Definition DijkstraMarkup_init (grid : Grid) (root_cell : Ref) (default : Z) : Markup Z :=
  Markup_init grid default.

(** [DijkstraMarkup.farthest_cell]: the body is [pass], the call
    evaluates to [None]. *)
Definition farthest_cell (self : Markup Z) : option (Ref * Z) := None.

(** ** Rendering a grid as text *)

(** A grid object: the attributes [__init__] sets, and [markup], which
    exists only once [set_markup] has assigned it. *)
Record GridObj (V : Type) := mkGridObj {
  g_attrs : Grid;
  g_markup : option (Markup V)
}.
Arguments mkGridObj {V} _ _.
Arguments g_attrs {V} _.
Arguments g_markup {V} _.

(** The object [Grid(...)] returns has no [markup] attribute. *)
Definition new_grid_obj {V} (g : Grid) : GridObj V := mkGridObj g None.

(** [Grid.set_markup] *)
Definition set_markup {V} (self : GridObj V) (markup : Markup V) : GridObj V :=
  mkGridObj (g_attrs self) (Some markup).

(** Reading [self.markup]: AttributeError while it has never been set. *)
Definition get_markup {V} (self : GridObj V) : M (Markup V) :=
  match g_markup self with
  | Some m => ret m
  | None => raise AttributeError
  end.

Definition nl : string := String (Ascii.ascii_of_nat 10) EmptyString.

(** [s * n] on a string *)
Definition str_repeat (s : string) (n : Z) : string :=
  foldr String.append EmptyString (replicate (Z.to_nat n) s).

(** ['{:^3s}'.format(s)]: centred in a field of width 3, the odd blank
    on the right; a longer string is left as it is. *)
Definition center3 (s : string) : string :=
  let pad := (3 - String.length s)%nat in
  let lpad := (pad / 2)%nat in
  str_repeat " " (Z.of_nat lpad) +:+ s +:+ str_repeat " " (Z.of_nat (pad - lpad)).

Section Render.
  Context {V : Type}.
  (** [str(value)] for the values of the markup *)
  Variable py_str : V -> string.

(** The first inner loop of [Grid.__str__]: the labels of a row and the
    walls to their east. *)
Definition str_cell_line (self : GridObj V) (ret_val : string) (cell : Ref) : M string :=
  mk <- get_markup self ;;
  let cell_value := Markup_getitem mk cell in
  let ret_val := ret_val +:+ center3 (py_str cell_value) in
  e <- getattr east cell ;;
  match e with
  | None => ret (ret_val +:+ "|")
  | Some e' =>
      b <- is_linked e' (Some cell) ;;
      if b then ret (ret_val +:+ " ") else ret (ret_val +:+ "|")
  end.

(** The second inner loop: the walls to the south of a row. *)
Definition str_south_line (ret_val : string) (cell : Ref) : M string :=
  s <- getattr south cell ;;
  match s with
  | None => ret (ret_val +:+ "---+")
  | Some s' =>
      b <- is_linked s' (Some cell) ;;
      if b then ret (ret_val +:+ "   +") else ret (ret_val +:+ "---+")
  end.

(** [Grid.__str__] *)
Definition Grid_str (self : GridObj V) : M string :=
  let ret_val := "+" +:+ str_repeat "---+" (num_columns (g_attrs self)) +:+ nl in
  fold_M (fun ret_val row =>
            let ret_val := ret_val +:+ "|" in
            ret_val <- fold_M (str_cell_line self) row ret_val ;;
            let ret_val := ret_val +:+ nl +:+ "+" in
            ret_val <- fold_M str_south_line row ret_val ;;
            ret (ret_val +:+ nl))
         (grid (g_attrs self)) ret_val.

End Render.

(** ** The maze generators

    What the generators print is not part of the model. *)

(** [len(l)] *)
Definition py_len {A} (l : list A) : Z := Z.of_nat (length l).

(** [l.remove(x)]: drops the first entry equal to [x], ValueError when
    there is none. *)
Fixpoint list_remove (x : Ref) (l : list Ref) : Res (list Ref) :=
  match l with
  | [] => Raise ValueError
  | y :: l' =>
      if decide (x = y) then Ok l'
      else match list_remove x l' with
           | Ok r => Ok (y :: r)
           | Raise e => Raise e
           | OutOfFuel => OutOfFuel
           | Dangling => Dangling
           end
  end.

(** The first loop of [binary_tree] and of [sidewinder]: the top row is
    linked west to east. *)
Definition link_top_row (g : Grid) : M unit :=
  row0 <- lift (py_index (grid g) 0) ;;
  for_each (fun cell =>
              last <- lift (grid_at g 0 (-1)) ;;
              if decide (cell = last) then ret tt
              else e <- getattr east cell ;; link cell e true)
           row0.

(** [binary_tree] *)
Definition binary_tree (g : Grid) : M unit :=
  link_top_row g ;;
  for_each (fun i =>
              c <- lift (grid_at g i (-1)) ;;
              c' <- lift (grid_at g i (-1)) ;;
              n <- getattr north c' ;;
              link c n true)
           (py_range2 1 (py_len (grid g))) ;;
  for_each (fun i =>
              row0 <- lift (py_index (grid g) 0) ;;
              for_each (fun j =>
                          c <- lift (grid_at g i j) ;;
                          c1 <- lift (grid_at g i j) ;;
                          n <- getattr north c1 ;;
                          c2 <- lift (grid_at g i j) ;;
                          e <- getattr east c2 ;;
                          t <- random_choice [n; e] ;;
                          link c t true)
                       (py_range (py_len row0 - 1)))
           (py_range2 1 (py_len (grid g))).

(** [tmplist[-1]] etc. on a list of cells, inside the monad *)
Definition index_M {A} (l : list A) (i : Z) : M A := lift (py_index l i).

(** The body of the inner loop of [sidewinder]; [tmplist] is the run. *)
Definition sidewinder_step (g : Grid) (odds : Q) (i : Z) (tmplist : list Ref) (j : Z)
  : M (list Ref) :=
  u <- random_uniform 0 1 ;;
  if Qle_bool odds u && negb (j =? num_columns g - 1) then
    c <- lift (grid_at g i j) ;;
    let tmplist := tmplist ++ [c] in
    l <- index_M tmplist (-1) ;;
    c' <- lift (grid_at g i (j + 1)) ;;
    link l (Some c') true ;;
    c'' <- lift (grid_at g i (j + 1)) ;;
    ret (tmplist ++ [c''])
  else
    c <- lift (grid_at g i j) ;;
    let tmplist := tmplist ++ [c] in
    chose <- random_choice tmplist ;;
    n <- getattr north chose ;;
    link chose n true ;;
    ret [].

(** [sidewinder] *)
Definition sidewinder (g : Grid) (odds : Q) : M unit :=
  py_assert (Qle_bool 0 odds) ;;
  py_assert (negb (Qle_bool 1 odds)) ;;
  link_top_row g ;;
  for_each (fun i =>
              fold_M (sidewinder_step g odds i) (py_range2 0 (num_columns g)) [] ;;
              ret tt)
           (py_range2 1 (num_rows g)).

(** [for alllist in grid.grid: for cell in alllist: out.append(cell)] *)
Definition all_cells (g : Grid) : list Ref :=
  fold_left (fun out alllist => fold_left (fun out cell => out ++ [cell]) alllist out)
            (grid g) [].

(** One turn of the [while] loop of [aldous_broder]; the locals are the
    current cell, the cells not visited yet and the step counter. *)
Definition aldous_broder_step (s : Ref * list Ref * Z) : M (Ref * list Ref * Z + Z) :=
  let '(start_cell, cell_notvisited, iteration_count) := s in
  if py_len cell_notvisited =? 0 then ret (inr iteration_count)
  else
    ns <- neighbors start_cell ;;
    cell_to_link <- random_choice ns ;;
    v <- getattr cell_visited_attr cell_to_link ;;
    if negb v then
      link start_cell (Some cell_to_link) true ;;
      setattr (fun c => set_cell_visited_attr c true) cell_to_link ;;
      cell_notvisited <- lift (list_remove cell_to_link cell_notvisited) ;;
      ret (inl (cell_to_link, cell_notvisited, iteration_count + 1))
    else
      ret (inl (cell_to_link, cell_notvisited, iteration_count + 1)).

(** [aldous_broder]; the result is the step count it prints. *)
Definition aldous_broder (fuel : nat) (g : Grid) : M Z :=
  start_cell <- random_cell g ;;
  let cell_notvisited := all_cells g in
  setattr (fun c => set_cell_visited_attr c true) start_cell ;;
  cell_notvisited <- lift (list_remove start_cell cell_notvisited) ;;
  loop fuel aldous_broder_step (start_cell, cell_notvisited, 0).

(** [while tmpgrids[-1] != next_cell: tmpgrids.pop()], on the reversed
    list (last entry first). *)
Fixpoint pop_until_rev (rev_tmp : list Ref) (next_cell : Ref) : Res (list Ref) :=
  match rev_tmp with
  | [] => Raise IndexError
  | x :: r => if decide (x = next_cell) then Ok (x :: r) else pop_until_rev r next_cell
  end.
Definition pop_until (tmpgrids : list Ref) (next_cell : Ref) : Res (list Ref) :=
  match pop_until_rev (reverse tmpgrids) next_cell with
  | Ok r => Ok (reverse r)
  | Raise e => Raise e
  | OutOfFuel => OutOfFuel
  | Dangling => Dangling
  end.

(** The [for i, cell in enumerate(tmpgrids)] loop of [wilson]: link the
    walk and take its cells out of [cell_unused]. *)
Definition wilson_commit (tmpgrids : list Ref) (cell_unused : list Ref) : M (list Ref) :=
  fold_M (fun cell_unused i =>
            a <- index_M tmpgrids i ;;
            b <- index_M tmpgrids (-1) ;;
            (if decide (a = b) then ret tt
             else a' <- index_M tmpgrids i ;;
                  n <- index_M tmpgrids (i + 1) ;;
                  link a' (Some n) true) ;;
            x <- index_M tmpgrids i ;;
            lift (list_remove x cell_unused))
         (py_range (py_len tmpgrids)) cell_unused.

(** One turn of the [while True] loop of [wilson]; the locals are
    [first_cell], [tmpgrids], [cell_unused] and [loops_removed]. *)
Definition wilson_step (s : Ref * list Ref * list Ref * Z)
  : M (Ref * list Ref * list Ref * Z + Z) :=
  let '(first_cell, tmpgrids, cell_unused, loops_removed) := s in
  ns <- neighbors first_cell ;;
  next_cell <- random_choice ns ;;
  if negb (bool_decide (next_cell ∈ cell_unused)) then
    cell_unused <- wilson_commit tmpgrids cell_unused ;;
    l <- index_M tmpgrids (-1) ;;
    link l (Some next_cell) true ;;
    let tmpgrids := [] in
    if py_len cell_unused =? 0 then ret (inr loops_removed)
    else
      first_cell <- random_choice cell_unused ;;
      ret (inl (first_cell, tmpgrids ++ [first_cell], cell_unused, loops_removed))
  else if bool_decide (next_cell ∈ tmpgrids) then
    tmpgrids <- lift (pop_until tmpgrids next_cell) ;;
    first_cell <- index_M tmpgrids (-1) ;;
    ret (inl (first_cell, tmpgrids, cell_unused, loops_removed + 1))
  else
    ret (inl (next_cell, tmpgrids ++ [next_cell], cell_unused, loops_removed)).

(** [wilson]; the result is the count of erased loops it prints. *)
Definition wilson (fuel : nat) (g : Grid) : M Z :=
  let cell_unused := all_cells g in
  chosen_cell <- random_cell g ;;
  cell_unused <- lift (list_remove chosen_cell cell_unused) ;;
  first_cell <- random_choice cell_unused ;;
  loop fuel wilson_step (first_cell, [first_cell], cell_unused, 0).

(** [recursive_backtracker]: the body is [pass]. *)
Definition recursive_backtracker (g : Grid) (start_cell : option Ref) : M unit :=
  ret tt.

(** * The vocabulary of the properties

    What the statements below talk about: the link relation of a store,
    the store [Grid(R, C)] builds, the topology of a grid, the calls a
    client can make, the order of the entries of a markup, the rendering
    as the specification words it, and a few concrete worlds. *)

(** [a] holds a link to [b] in the store of [w]. *)
Definition linked (w : World) (a b : Ref) : Prop :=
  exists c, heap w !! a = Some c /\ is_Some (links c !! b).

(** If A links to B, B links to A. *)
Definition links_symmetric (w : World) : Prop :=
  forall a b, linked w a b -> linked w b a.

(** Total correctness: from a world satisfying [P], [m] returns a value
    and a world satisfying [Q]. *)
Definition hoare {A} (P : World -> Prop) (m : M A) (Q : A -> World -> Prop) : Prop :=
  forall w, P w -> exists a w', m w = (Ok a, w') /\ Q a w'.

(** The cell object [Cell(r, c)] makes. *)
Definition fresh_cell (r c : Z) : Cell := mkCell r c ∅ None None None None false false.

(** The list of lists [create_cells] returns: cell (r, c) at [r][c]. *)
Definition full_grid (R C : Z) : list (list Ref) :=
  (fun r => (fun c => (r, c)) <$> py_range C) <$> py_range R.

(** (r, c) lies in [0, R) x [0, C). *)
Definition in_grid (R C : Z) (x : Ref) : Prop :=
  0 <= x.1 < R /\ 0 <= x.2 < C.

(** (r, c) comes before row [k], column [j] in row-major order, within
    [C] columns. *)
Definition before (C k j : Z) (x : Ref) : Prop :=
  0 <= x.1 /\ 0 <= x.2 < C /\ (x.1 < k \/ (x.1 = k /\ x.2 < j)).

#[local] Instance in_grid_dec R C x : Decision (in_grid R C x).
Proof. unfold in_grid. apply _. Defined.
#[local] Instance before_dec C k j x : Decision (before C k j x).
Proof. unfold before. apply _. Defined.

(** The cell at (r, c) once [connect_cells] has set its neighbours, all
    links still absent. *)
Definition wired (R C r c : Z) : Cell :=
  mkCell r c ∅
         (if decide (0 <= r - 1) then Some (r - 1, c) else None)
         (if decide (r + 1 < R) then Some (r + 1, c) else None)
         (if decide (c + 1 < C) then Some (r, c + 1) else None)
         (if decide (0 <= c - 1) then Some (r, c - 1) else None)
         false false.

(** The store over the cells of an R x C grid while [connect_cells]
    runs: the cells before (k, j) are wired, the others fresh, and the
    rest of the store is [h0]. *)
Definition connecting (R C k j : Z) (h0 : gmap Ref Cell) (w : World) : Prop :=
  forall x, heap w !! x =
            if decide (in_grid R C x)
            then Some (if decide (before C k j x) then wired R C x.1 x.2
                       else fresh_cell x.1 x.2)
            else h0 !! x.

(** The grid object and the store [Grid(R, C)] leaves. *)
Definition grid_built (R C : Z) (h0 : gmap Ref Cell) (g : Grid) (w : World) : Prop :=
  g = mkGrid R C (full_grid R C) /\
  forall x, heap w !! x =
            if decide (in_grid R C x) then Some (wired R C x.1 x.2) else h0 !! x.

(** The attributes of a cell that make up the topology of the grid. *)
Definition topo (c : Cell) : Z * Z * option Ref * option Ref * option Ref * option Ref :=
  (row c, column c, north c, south c, east c, west c).

(** Every cell of [w'] has the topology it has in [w], and the two stores
    hold the same cells. *)
Definition same_topology (w w' : World) : Prop :=
  forall r, topo <$> heap w' !! r = topo <$> heap w !! r.

(** [m] leaves the topology alone, however it ends. *)
Definition preserves {A} (m : M A) : Prop :=
  forall w, same_topology w (snd (m w)).

(** The calls a client of the module can make on a grid [g] and its
    cells once it is built (the markup classes hold no cell attribute
    and never write one). *)
Inductive Op :=
  | OpLink (self : Ref) (cell : option Ref) (bidirectional : bool)
  | OpUnlink (self : Ref) (cell : option Ref) (bidirectional : bool)
  | OpIsLinked (self : Ref) (cell : option Ref)
  | OpAllLinks (self : Ref)
  | OpLinkCount (self : Ref)
  | OpNeighbors (self : Ref)
  | OpCellVisited (self : Ref)
  | OpIsVisited (self : Ref)
  | OpDeadends
  | OpEachCell
  | OpRandomCell
  | OpStr (markup : option (Markup string))
  | OpBinaryTree
  | OpSidewinder (odds : Q)
  | OpAldousBroder (fuel : nat)
  | OpWilson (fuel : nat)
  | OpRecursiveBacktracker (start_cell : option Ref).

(** The world after the call, whatever it returned or raised. *)
Definition run_op (g : Grid) (op : Op) (w : World) : World :=
  match op with
  | OpLink a b bd => snd (link a b bd w)
  | OpUnlink a b bd => snd (unlink a b bd w)
  | OpIsLinked a b => snd (is_linked a b w)
  | OpAllLinks a => snd (all_links a w)
  | OpLinkCount a => snd (link_count a w)
  | OpNeighbors a => snd (neighbors a w)
  | OpCellVisited a => snd (cell_visited a w)
  | OpIsVisited a => snd (is_visited a w)
  | OpDeadends => snd (deadends g w)
  | OpEachCell => snd (each_cell g w)
  | OpRandomCell => snd (random_cell g w)
  | OpStr mk => snd (Grid_str id (mkGridObj g mk) w)
  | OpBinaryTree => snd (binary_tree g w)
  | OpSidewinder odds => snd (sidewinder g odds w)
  | OpAldousBroder fuel => snd (aldous_broder fuel g w)
  | OpWilson fuel => snd (wilson fuel g w)
  | OpRecursiveBacktracker s => snd (recursive_backtracker g s w)
  end.

(** A sequence of calls, each from the world the one before left. *)
Definition run_ops (g : Grid) (ops : list Op) (w : World) : World :=
  fold_left (fun w op => run_op g op w) ops w.

(** The geographic neighbours of the cell at (r, c) of an R x C grid. *)
Definition north_of (r c : Z) : option Ref :=
  if decide (0 < r) then Some (r - 1, c) else None.
Definition south_of (R r c : Z) : option Ref :=
  if decide (r + 1 < R) then Some (r + 1, c) else None.
Definition west_of (r c : Z) : option Ref :=
  if decide (0 < c) then Some (r, c - 1) else None.
Definition east_of (C r c : Z) : option Ref :=
  if decide (c + 1 < C) then Some (r, c + 1) else None.

(** The store holds the cells of an R x C grid with their row-major
    coordinate neighbours. *)
Definition grid_topology (R C : Z) (w : World) : Prop :=
  forall r c, 0 <= r < R -> 0 <= c < C ->
    exists cell, heap w !! (r, c) = Some cell /\
                 row cell = r /\ column cell = c /\
                 north cell = north_of r c /\ south cell = south_of R r c /\
                 west cell = west_of r c /\ east cell = east_of C r c.

(** [c] is the first item of [l] whose key is the largest: every item
    before it has a strictly smaller key, none after it a larger one. *)
Definition first_max {A} (l : list A) (key : A -> Z) (c : A) : Prop :=
  exists pre post, l = pre ++ c :: post /\
                   (forall k, k ∈ pre -> key k < key c) /\
                   (forall k, k ∈ post -> key k <= key c).

(** The same for the smallest key. *)
Definition first_min {A} (l : list A) (key : A -> Z) (c : A) : Prop :=
  exists pre post, l = pre ++ c :: post /\
                   (forall k, k ∈ pre -> key c < key k) /\
                   (forall k, k ∈ post -> key c <= key k).

(** The rule the specification words: among the cells with an explicit
    entry and the largest value, the first in the row-major order
    [cells] of the grid. *)
Definition row_major_first_max (cells : list Ref) (m : Markup Z) : option Ref :=
  let keys := dict_keys (marks m) in
  let is_max c := forallb (fun k => Markup_getitem m k <=? Markup_getitem m c) keys in
  head (filter (fun c => bool_decide (c ∈ keys) && is_max c = true) cells).

(** Whether the store has [a] linked to [b]. *)
Definition linked_b (w : World) (a b : Ref) : bool :=
  match heap w !! a with
  | Some c => bool_decide (is_Some (links c !! b))
  | None => false
  end.

Definition concat_str (l : list string) : string := foldr String.append EmptyString l.

(** The rendering as the specification describes it, for an R x C grid
    with the label [label x] on cell [x] and [open a b] telling whether
    the link between the neighbours [a] and [b] is present: the top
    border, then for each row the line of labels with a blank east of a
    cell when it is linked to its east neighbour and a bar otherwise, and
    the line of south walls, three blanks under a cell linked to its
    south neighbour and three dashes otherwise. *)
Definition render_spec (R C : Z) (label : Ref -> string) (open : Ref -> Ref -> bool)
  : string :=
  ("+" +:+ str_repeat "---+" C +:+ nl) +:+
  concat_str
    ((fun r =>
        "|" +:+
        concat_str ((fun c => center3 (label (r, c)) +:+
                              (if bool_decide (c + 1 < C) && open (r, c) (r, c + 1)
                               then " " else "|")) <$> py_range C) +:+
        nl +:+ "+" +:+
        concat_str ((fun c => if bool_decide (r + 1 < R) && open (r, c) (r + 1, c)
                              then "   +" else "---+") <$> py_range C) +:+
        nl) <$> py_range R).

(** An empty store and a generator whose draws are the entries of [l],
    then zeros. *)
Definition world_of (l : list Z) : World := mkWorld ∅ (fun n => nth n l 0) 0.
Definition world0 : World := world_of [].

(** The 1 x 2 grid, fresh, and with its two cells linked. *)
Definition grid12 : Grid := mkGrid 1 2 (full_grid 1 2).
Definition w_fresh12 : World := snd (Grid_init 1 2 world0).
Definition w_pair : World := snd (link (0, 0) (Some (0, 1)) true w_fresh12).

(** A markup on the 1 x 2 grid where cell (0, 1) was marked before cell
    (0, 0), both with the value 5. *)
Definition markup_tie : Markup Z :=
  Markup_setitem (Markup_setitem (Markup_init grid12 0) (0, 1) 5) (0, 0) 5.

(** The north links row 1 of the 2 x 2 grid gets from [sidewinder] with
    odds 1/2 when the draw at its first cell keeps the run open and the
    draw handed to [random.choice] at the close of the run is [k]: is
    (1, 0) linked to (0, 0), and is (1, 1) linked to (0, 1). *)
Definition sidewinder_north_links (k : Z) : bool * bool :=
  let w := snd ((g <- Grid_init 2 2 ;; sidewinder g (1 # 2)) (world_of [2 ^ 52; 0; k])) in
  (linked_b w (1, 0) (0, 0), linked_b w (1, 1) (0, 1)).

(** The sum of [link_count()] over [each_cell()]: every undirected link
    counts twice. *)
Definition link_count_sum (g : Grid) : M Z :=
  cells <- each_cell g ;;
  fold_M (fun n c => k <- link_count c ;; ret (n + k)) cells 0.

(** A sample sequence of draws, from a linear congruential generator. *)
Definition lcg_draws (n : nat) : Z :=
  let x := Nat.iter (S n) (fun x => (x * 1103515245 + 12345) mod 2 ^ 31) 42 in
  x * 2 ^ 22 + x / 2 ^ 9.

(** [link_count_sum] after a generator has run on a fresh 3 x 3 grid
    with the sample draws. *)
Definition sample_3x3 (gen : Grid -> M unit) : Res Z :=
  fst ((g <- Grid_init 3 3 ;; gen g ;; link_count_sum g) (mkWorld ∅ lcg_draws 0)).

(** * More of the module: item access, the path markups, colours *)

(** Sequencing of outcomes, for the methods that touch no cell object. *)
Definition res_bind {A B} (r : Res A) (k : A -> Res B) : Res B :=
  match r with
  | Ok a => k a
  | Raise e => Raise e
  | OutOfFuel => OutOfFuel
  | Dangling => Dangling
  end.

Definition res_assert (b : bool) : Res unit :=
  if b then Ok tt else Raise AssertionError.

(** The truth value of a cell in [if cell:].  [Cell] defines neither
    [__bool__] nor [__len__], so every instance is true. *)
Definition cell_truth (cell : Ref) : bool := true.

(** [d.get(k)]: the value, or [None] when the key is absent. *)
Fixpoint dict_get_opt {K V} `{EqDecision K} (k : K) (d : list (K * V)) : option V :=
  match d with
  | [] => None
  | (k', v') :: d' => if decide (k = k') then Some v' else dict_get_opt k d'
  end.

(** [Markup.set_item_at] *)
Definition set_item_at {V} (self : Markup V) (row column : Z) (value : V)
  : Res (Markup V) :=
  res_bind (res_assert ((0 <=? row) && (row <? num_rows (m_grid self)))) (fun _ =>
  res_bind (res_assert ((0 <=? column) && (column <? num_columns (m_grid self)))) (fun _ =>
  res_bind (cell_at (m_grid self) row column) (fun cell =>
  if cell_truth cell
  then Ok (mkMarkup (m_grid self) (dict_set cell value (marks self)) (default self))
  else Raise IndexError))).

(** [Markup.get_item_at]; the result is [self.marks.get(cell)], with no
    default given. *)
Definition get_item_at {V} (self : Markup V) (row column : Z) : Res (option V) :=
  res_bind (res_assert ((0 <=? row) && (row <? num_rows (m_grid self)))) (fun _ =>
  res_bind (res_assert ((0 <=? column) && (column <? num_columns (m_grid self)))) (fun _ =>
  res_bind (cell_at (m_grid self) row column) (fun cell =>
  if cell_truth cell then Ok (dict_get_opt cell (marks self)) else Raise IndexError))).

(** [ShortestPathMarkup(grid, start_cell, goal_cell, path_marker,
    non_path_marker)]: [DijkstraMarkup(grid, start_cell)], then [pass]. *)
Definition ShortestPathMarkup_init (grid : Grid) (start_cell goal_cell : Ref)
    (path_marker non_path_marker : string) : Markup Z :=
  DijkstraMarkup_init grid start_cell 0.

(** [a, _ = v]: unpacking [None] raises TypeError. *)
Definition unpack_pair {A B} (v : option (A * B)) : M (A * B) :=
  match v with
  | Some p => ret p
  | None => raise TypeError
  end.

(** [LongestPathMarkup(grid, path_marker, non_path_marker)] *)
Definition LongestPathMarkup_init (grid : Grid) (path_marker non_path_marker : string)
  : M (Markup Z) :=
  start_cell <- random_cell grid ;;
  let dm := DijkstraMarkup_init grid start_cell 0 in
  p <- unpack_pair (farthest_cell dm) ;;
  let farthest := fst p in
  let dm := DijkstraMarkup_init grid farthest 0 in
  q <- unpack_pair (farthest_cell dm) ;;
  let next_farthest := fst q in
  ret (ShortestPathMarkup_init grid farthest next_farthest path_marker non_path_marker).

(** ** class ColorizedMarkup *)

(** The values a colour markup holds: the default [' '] of the base
    constructor, or a list of three integers. *)
Inductive ColorValue :=
  | CBlank
  | CList (l : list Z).

(** The attributes of a [ColorizedMarkup]: those of the base class and
    [channel]. *)
Record ColorizedMarkup := mkColorized {
  cm_markup : Markup ColorValue;
  cm_channel : string
}.

(** [s in t] on strings: [s] occurs in [t] as a substring. *)
Fixpoint str_in (s t : string) : bool :=
  String.prefix s t ||
  match t with
  | EmptyString => false
  | String _ t' => str_in s t'
  end.

(** [ColorizedMarkup(grid, channel)] *)
Definition ColorizedMarkup_init (grid : Grid) (channel : string) : Res ColorizedMarkup :=
  res_bind (res_assert (str_in channel "RGB")) (fun _ =>
  Ok (mkColorized (Markup_init grid CBlank) channel)).

(** The colour code divides: its outcomes are those of the rest of the
    module and ZeroDivisionError. *)
Inductive ColorRes (A : Type) :=
  | CRes (r : Res A)
  | CZeroDivisionError.
Arguments CRes {A} r.
Arguments CZeroDivisionError {A}.

Definition color_bind {A B} (r : ColorRes A) (k : A -> ColorRes B) : ColorRes B :=
  match r with
  | CRes (Ok a) => k a
  | CRes (Raise e) => CRes (Raise e)
  | CRes OutOfFuel => CRes OutOfFuel
  | CRes Dangling => CRes Dangling
  | CZeroDivisionError => CZeroDivisionError
  end.

Fixpoint color_fold {A B} (body : B -> A -> ColorRes B) (l : list A) (acc : B)
  : ColorRes B :=
  match l with
  | [] => CRes (Ok acc)
  | x :: l' => color_bind (body acc x) (color_fold body l')
  end.

Section Colours.
  (** Python floats and the three float operations of the colour code:
      [a / b] on integers with [b] not 0, [k * x] for an integer [k], and
      [round(x)]. *)
  Variable F : Type.
  Variable true_div : Z -> Z -> F.
  Variable int_times : Z -> F -> F.
  Variable py_round : F -> Z.

(** The body of the loop of [intensity_colorize], for the cell [c]. *)
Definition colorize_cell (markup : Markup Z) (max_value : Z) (self : ColorizedMarkup)
    (c : Ref) : ColorRes ColorizedMarkup :=
  let cell_value := Markup_getitem markup c in
  if max_value =? 0 then CZeroDivisionError
  else
    let intensity := true_div (max_value - cell_value) max_value in
    let dark := py_round (int_times 255 intensity) in
    let bright := py_round (int_times 127 intensity) + 128 in
    let value :=
      if String.eqb (cm_channel self) "R" then [bright; dark; dark]
      else if String.eqb (cm_channel self) "G" then [dark; bright; dark]
      else [dark; dark; bright] in
    CRes (Ok (mkColorized (Markup_setitem (cm_markup self) c (CList value)) (cm_channel self))).

(** [ColorizedMarkup.intensity_colorize]; the cells come from
    [self.grid.each_cell()], one [cell_at] per turn of the loop. *)
Definition intensity_colorize (self : ColorizedMarkup) (markup : Markup Z)
  : ColorRes ColorizedMarkup :=
  color_bind (CRes (Markup_max markup)) (fun max =>
  let max_value := Markup_getitem markup max in
  let g := m_grid (cm_markup self) in
  color_fold (fun self row =>
                color_fold (fun self col =>
                              color_bind (CRes (cell_at g row col))
                                         (colorize_cell markup max_value self))
                           (py_range (num_columns g)) self)
             (py_range (num_rows g)) self).

(** [if not x: x = d] for an argument that is [None] or an integer:
    [None] and 0 are both replaced. *)
Definition or_default (x : option Z) (d : Z) : Z :=
  match x with
  | None => d
  | Some z => if z =? 0 then d else z
  end.

(** [ColorizedMarkup.colorize_dijkstra] *)
Definition colorize_dijkstra (self : ColorizedMarkup) (start_row start_column : option Z)
  : ColorRes ColorizedMarkup :=
  let g := m_grid (cm_markup self) in
  let start_row := or_default start_row (num_rows g / 2) in
  let start_column := or_default start_column (num_columns g / 2) in
  color_bind (CRes (cell_at g start_row start_column)) (fun start_cell =>
  let dm := DijkstraMarkup_init g start_cell 0 in
  intensity_colorize self dm).

End Colours.

(** The colour [intensity_colorize] gives a cell whose value in the
    markup is [cell_value], for the largest value [max_value], the
    channel [channel] and the float operations of the colour code. *)
Definition shade {F : Type} (true_div : Z -> Z -> F) (int_times : Z -> F -> F)
    (py_round : F -> Z) (channel : string) (max_value cell_value : Z) : list Z :=
  let intensity := true_div (max_value - cell_value) max_value in
  let dark := py_round (int_times 255 intensity) in
  let bright := py_round (int_times 127 intensity) + 128 in
  if String.eqb channel "R" then [bright; dark; dark]
  else if String.eqb channel "G" then [dark; bright; dark]
  else [dark; dark; bright].

(** The colour markup while [intensity_colorize] runs: the cells before
    (k, j) have their colour, the others their old value. *)
Definition colouring {F : Type} (true_div : Z -> Z -> F) (int_times : Z -> F -> F)
    (py_round : F -> Z) (C : Z) (self0 : ColorizedMarkup) (markup : Markup Z)
    (max_value : Z) (k j : Z) (self : ColorizedMarkup) : Prop :=
  cm_channel self = cm_channel self0 /\
  m_grid (cm_markup self) = m_grid (cm_markup self0) /\
  forall x, Markup_getitem (cm_markup self) x =
            if decide (before C k j x)
            then CList (shade true_div int_times py_round (cm_channel self0)
                              max_value (Markup_getitem markup x))
            else Markup_getitem (cm_markup self0) x.

(** ** The maze [binary_tree] carves *)

(** The cell [binary_tree] links the cell [x] to when the generator
    stands at draw [p0] at the call: a cell of the top row goes east, a
    cell of the last column north; the third loop visits the other cells
    row by row, takes one draw for each and goes north when
    [random.choice] lands on index 0 and east on index 1. *)
Definition bt_parent (C : Z) (d : nat -> Z) (p0 : nat) (x : Ref) : Ref :=
  if decide (x.1 = 0) then (0, x.2 + 1)
  else if decide (x.2 = C - 1) then (x.1 - 1, x.2)
  else if decide (d (Z.to_nat (Z.of_nat p0 + (x.1 - 1) * (C - 1) + x.2)) mod 2 = 0)
       then (x.1 - 1, x.2) else (x.1, x.2 + 1).

(** [len(cell.links)] in the store, and its sum over a list of cells. *)
Definition cell_links (w : World) (x : Ref) : Z :=
  match heap w !! x with
  | Some c => Z.of_nat (size (links c))
  | None => 0
  end.
Definition links_total (w : World) (cells : list Ref) : Z :=
  foldr (fun x n => cell_links w x + n) 0 cells.

(** The cells [binary_tree] has linked to their parent when the first
    loop has done [a] cells of the top row, the second is at row [b]
    and the third at row [i], column [j]. *)
Definition bt_done (C a b i j : Z) (x : Ref) : Prop :=
  (x.1 = 0 /\ 0 <= x.2 < a /\ x.2 < C - 1) \/
  (x.2 = C - 1 /\ 1 <= x.1 < b) \/
  (0 <= x.2 < C - 1 /\ (1 <= x.1 < i \/ (x.1 = i /\ x.2 < j))).

(** The world while [binary_tree] runs on the R x C grid, called with
    draws [d0] at position [p0]: [p] draws are taken, the links of the
    grid are those of the cells in [D] to their parents, [n] in
    number. *)
Definition bt_state (R C : Z) (d0 : nat -> Z) (p0 : nat) (D : Ref -> Prop)
    (n p : Z) (w : World) : Prop :=
  draws w = d0 /\ Z.of_nat (pos w) = Z.of_nat p0 + p /\
  grid_topology R C w /\
  (forall x y, in_grid R C x ->
     linked w x y <-> (D x /\ y = bt_parent C d0 p0 x) \/ (D y /\ x = bt_parent C d0 p0 y)) /\
  links_total w (concat (full_grid R C)) = 2 * n.

(** ** The maze [sidewinder] carves *)

(** Two cells next to each other in a row or a column. *)
Definition adjacent (x y : Ref) : Prop :=
  Z.abs (x.1 - y.1) + Z.abs (x.2 - y.2) = 1.

(** The grid while [sidewinder] is in row [i] at column [j] with the run
    started at column [s], after [n] links: every link joins two
    adjacent cells of the grid in both directions and lies in the part
    visited so far; of row [i] only the cells of closed runs are linked
    to the north; the cells of the run are linked in a chain; every cell
    of the rows above and of the closed runs reaches the north-east
    corner. *)
Definition sw_state (R C i j s n : Z) (w : World) : Prop :=
  grid_topology R C w /\
  (forall x y, in_grid R C x -> linked w x y ->
     in_grid R C y /\ linked w y x /\ adjacent x y /\
     (x.1 < i \/ (x.1 = i /\ x.2 <= j)) /\
     (x.1 = i -> y.1 = i - 1 -> x.2 < s)) /\
  (forall c, s <= c < j -> linked w (i, c) (i, c + 1)) /\
  (forall x, in_grid R C x -> x.1 < i \/ (x.1 = i /\ x.2 < s) ->
     rtc (linked w) x (0, C - 1)) /\
  links_total w (concat (full_grid R C)) = 2 * n.

(** ** The maze [aldous_broder] carves *)

(** The cell carries the attribute [cell_visited = True] that
    [aldous_broder] sets on the cells of its walk. *)
Definition marked (w : World) (x : Ref) : Prop :=
  exists c, heap w !! x = Some c /\ cell_visited_attr c = true.

(** The grid while [aldous_broder] walks, started at [root] and now at
    [cur] after [count] steps: [nv] lists the cells not marked yet, the
    links join adjacent marked cells in both directions, every marked
    cell reaches [root], and there is one link less than marked
    cells. *)
Definition ab_state (R C : Z) (root cur : Ref) (nv : list Ref) (count : Z) (w : World)
  : Prop :=
  grid_topology R C w /\
  NoDup nv /\
  (forall x, x ∈ nv <-> in_grid R C x /\ ~ marked w x) /\
  in_grid R C cur /\ marked w cur /\ in_grid R C root /\
  (forall x y, in_grid R C x -> linked w x y ->
     in_grid R C y /\ linked w y x /\ adjacent x y /\ marked w x) /\
  (forall x, in_grid R C x -> marked w x -> rtc (linked w) x root) /\
  links_total w (concat (full_grid R C)) = 2 * (R * C - 1 - Z.of_nat (length nv)) /\
  R * C - 1 - Z.of_nat (length nv) <= count.

(** The links of an R x C grid form a spanning tree. *)
Definition spanning_tree (R C : Z) (w : World) : Prop :=
  (forall x y, in_grid R C x -> linked w x y ->
     in_grid R C y /\ linked w y x /\ adjacent x y) /\
  (exists root, in_grid R C root /\
                forall x, in_grid R C x -> rtc (linked w) x root) /\
  link_count_sum (mkGrid R C (full_grid R C)) w = (Ok (2 * (R * C - 1)), w).

(** ** The maze [wilson] carves *)

(** The part of the grid [wilson] has built: the cells outside
    [unused] are linked into a tree that holds [root]. *)
Definition tree_state (R C : Z) (root : Ref) (unused : list Ref) (w : World) : Prop :=
  grid_topology R C w /\
  NoDup unused /\ (forall x, x ∈ unused -> in_grid R C x) /\
  in_grid R C root /\ (root ∉ unused) /\
  (forall x y, in_grid R C x -> linked w x y ->
     in_grid R C y /\ linked w y x /\ adjacent x y /\ x ∉ unused) /\
  (forall x, in_grid R C x -> x ∉ unused -> rtc (linked w) x root) /\
  links_total w (concat (full_grid R C)) = 2 * (R * C - 1 - Z.of_nat (length unused)).

(** The walk [tmpgrids]: unused cells, none twice, each adjacent to the
    next, ending at [first_cell]. *)
Definition path_ok (first : Ref) (tmp unused : list Ref) : Prop :=
  NoDup tmp /\ (forall x, x ∈ tmp -> x ∈ unused) /\ last tmp = Some first /\
  (forall i a b, tmp !! i = Some a -> tmp !! S i = Some b -> adjacent a b).

(** [x] and [y] are two consecutive cells of the walk, among its first
    [k] steps. *)
Definition path_link (tmp : list Ref) (k : nat) (x y : Ref) : Prop :=
  exists i a b, (i < k)%nat /\ tmp !! i = Some a /\ tmp !! S i = Some b /\
                ((x = a /\ y = b) \/ (x = b /\ y = a)).

(** The world while the walk is added to the maze, [k] of its cells
    done, from the world [w] and the list [unused]. *)
Definition committing (R C : Z) (tmp unused : list Ref) (w : World)
    (k : nat) (unused_k : list Ref) (w_k : World) : Prop :=
  grid_topology R C w_k /\ NoDup unused_k /\
  (forall x, x ∈ unused_k <-> x ∈ unused /\ x ∉ take k tmp) /\
  (length unused = length unused_k + k)%nat /\
  (forall x y, linked w_k x y <-> linked w x y \/ path_link tmp k x y) /\
  links_total w_k (concat (full_grid R C))
  = links_total w (concat (full_grid R C)) + 2 * Z.of_nat (min k (length tmp - 1)).

(** * Properties *)

(** ** The link relation *)

Lemma is_linked_true w a b :
  fst (is_linked a (Some b) w) = Ok true <-> linked w a b.
Proof.
  unfold is_linked, linked, bind, assert_cell, ret, get_cell. simpl.
  destruct (heap w !! a) as [c|] eqn:Ha; simpl.
  - split.
    + intros H. exists c. split; [done|].
      injection H as H. by apply bool_decide_eq_true in H.
    + intros (c' & Hc & Hl). injection Hc as <-.
      f_equal. by apply bool_decide_eq_true.
  - split; [discriminate|]. by intros (c' & Hc & _).
Qed.

Lemma is_linked_false w a b :
  is_Some (heap w !! a) ->
  fst (is_linked a (Some b) w) = Ok false <-> ~ linked w a b.
Proof.
  intros [c Ha].
  unfold is_linked, linked, bind, assert_cell, ret, get_cell. simpl.
  rewrite Ha. simpl. split.
  - intros H (c' & Hc & Hl). injection Hc as <-.
    injection H as H. apply bool_decide_eq_false in H. contradiction.
  - intros H. f_equal. apply bool_decide_eq_false. intros Hl. apply H. eauto.
Qed.

Lemma is_linked_pure w a b : snd (is_linked a b w) = w.
Proof.
  unfold is_linked, bind, assert_cell, ret, raise, get_cell.
  destruct b; simpl; [|done]. by destruct (heap w !! a).
Qed.

(** The store after [links_setitem] and [links_delitem]. *)
Lemma links_setitem_run w a b c :
  heap w !! a = Some c ->
  links_setitem a b w =
    (Ok tt, mkWorld (<[a := set_links c (<[b := true]> (links c))]> (heap w))
                    (draws w) (pos w)).
Proof.
  intros Ha. unfold links_setitem, bind, get_cell, put_cell. by rewrite Ha.
Qed.

Lemma links_delitem_run w a b c v :
  heap w !! a = Some c -> links c !! b = Some v ->
  links_delitem a b w =
    (Ok tt, mkWorld (<[a := set_links c (delete b (links c))]> (heap w))
                    (draws w) (pos w)).
Proof.
  intros Ha Hb. unfold links_delitem, bind, get_cell, put_cell.
  rewrite Ha. simpl. by rewrite Hb.
Qed.

Lemma links_delitem_absent w a b c :
  heap w !! a = Some c -> links c !! b = None ->
  links_delitem a b w = (Raise KeyError, w).
Proof.
  intros Ha Hb. unfold links_delitem, bind, get_cell.
  rewrite Ha. simpl. by rewrite Hb.
Qed.

(** [linked] after one store update that rewrites the links of [a]. *)
Lemma linked_update w a c l x y :
  heap w !! a = Some c ->
  linked (mkWorld (<[a := set_links c l]> (heap w)) (draws w) (pos w)) x y <->
  (if decide (x = a) then is_Some (l !! y) else linked w x y).
Proof.
  intros Ha. unfold linked. simpl. case_decide as Hx.
  - subst x. rewrite lookup_insert_eq. split.
    + by intros (c' & [= <-] & Hl).
    + intros Hl. eexists. split; [done|]. done.
  - rewrite lookup_insert_ne; [done|]. congruence.
Qed.

Lemma linked_setitem w a b x y :
  is_Some (heap w !! a) ->
  linked (snd (links_setitem a b w)) x y <->
  (x = a /\ y = b) \/ linked w x y.
Proof.
  intros [c Ha]. rewrite (links_setitem_run _ _ _ _ Ha). simpl.
  rewrite (linked_update _ _ _ _ _ _ Ha). case_decide as Hx.
  - subst x. rewrite lookup_insert_is_Some. unfold linked. rewrite Ha.
    split.
    + intros [->|[_ Hl]]; [by left|]. right. eauto.
    + intros [[_ ->]|(c' & [= <-] & Hl)]; [by left|].
      destruct (decide (b = y)); [by left|by right].
  - split; [by right|]. intros [[? _]|?]; [contradiction|done].
Qed.

Lemma linked_delitem w a b x y :
  linked w a b ->
  linked (snd (links_delitem a b w)) x y <->
  linked w x y /\ ~ (x = a /\ y = b).
Proof.
  intros (c & Ha & [v Hb]). rewrite (links_delitem_run _ _ _ _ _ Ha Hb). simpl.
  rewrite (linked_update _ _ _ _ _ _ Ha). case_decide as Hx.
  - subst x. rewrite lookup_delete_is_Some. unfold linked. rewrite Ha.
    split.
    + intros [Hne Hl]. split; [eauto|]. intros [_ ->]. done.
    + intros [(c' & [= <-] & Hl) Hne]. split; [|done]. intros ->. by apply Hne.
  - split; [|by intros [? _]]. intros H. split; [done|]. intros [? _]. done.
Qed.

Lemma links_setitem_ok w a b :
  is_Some (heap w !! a) -> fst (links_setitem a b w) = Ok tt.
Proof. intros [c Ha]. by rewrite (links_setitem_run _ _ _ _ Ha). Qed.

Lemma links_setitem_dom w a b r :
  is_Some (heap w !! a) ->
  is_Some (heap (snd (links_setitem a b w)) !! r) <-> is_Some (heap w !! r).
Proof.
  intros [c Ha]. rewrite (links_setitem_run _ _ _ _ Ha). simpl.
  rewrite lookup_insert_is_Some. split.
  - intros [<-|[_ H]]; [eauto|done].
  - intros H. destruct (decide (a = r)); [by left|by right].
Qed.

Lemma links_delitem_dom w a b r :
  is_Some (heap (snd (links_delitem a b w)) !! r) <-> is_Some (heap w !! r).
Proof.
  unfold links_delitem, bind, get_cell, put_cell.
  destruct (heap w !! a) as [c|] eqn:Ha; simpl; [|done].
  destruct (links c !! b); simpl; [|done].
  rewrite lookup_insert_is_Some. split.
  - intros [<-|[_ H]]; [eauto|done].
  - intros H. destruct (decide (a = r)); [by left|by right].
Qed.

(** [link] and [unlink] with [bidirectional=True], as two dict updates. *)
Lemma link_bidirectional w a b :
  link a (Some b) true w =
    match links_setitem a b w with
    | (Ok _, w') => links_setitem b a w'
    | r => r
    end.
Proof.
  unfold link, bind, assert_cell, ret.
  destruct (links_setitem a b w) as [[[]| | |] w']; done.
Qed.

Lemma unlink_bidirectional w a b :
  unlink a (Some b) true w =
    match links_delitem a b w with
    | (Ok _, w') => links_delitem b a w'
    | r => r
    end.
Proof.
  unfold unlink, bind, assert_cell, ret.
  destruct (links_delitem a b w) as [[[]| | |] w']; done.
Qed.

(** The link relation after a bidirectional [link] of two cells of the
    store: the call returns and adds the pair in both directions. *)
Lemma linked_link w a b :
  is_Some (heap w !! a) -> is_Some (heap w !! b) ->
  fst (link a (Some b) true w) = Ok tt /\
  (forall r, is_Some (heap (snd (link a (Some b) true w)) !! r) <-> is_Some (heap w !! r)) /\
  (forall x y, linked (snd (link a (Some b) true w)) x y <->
               (x = a /\ y = b) \/ (x = b /\ y = a) \/ linked w x y).
Proof.
  intros Ha Hb. rewrite link_bidirectional.
  pose proof (links_setitem_ok w a b Ha) as Hok.
  pose proof (links_setitem_dom w a b) as Hdom.
  pose proof (linked_setitem w a b) as Hl.
  destruct (links_setitem a b w) as [r1 w1]. simpl in *. subst r1.
  assert (Hb1 : is_Some (heap w1 !! b)) by by apply Hdom.
  split; [by apply links_setitem_ok|]. split.
  - intros r. rewrite links_setitem_dom by done. by apply Hdom.
  - intros x y. rewrite linked_setitem by done. rewrite Hl by done. tauto.
Qed.

(** The link relation after a bidirectional [unlink] of two cells linked
    both ways: the pair is gone in both directions.  On a cell linked to
    itself the second [del] finds the key gone and raises KeyError. *)
Lemma linked_unlink w a b :
  linked w a b -> linked w b a ->
  fst (unlink a (Some b) true w) = (if decide (a = b) then Raise KeyError else Ok tt) /\
  (forall x y, linked (snd (unlink a (Some b) true w)) x y <->
               linked w x y /\ ~ (x = a /\ y = b) /\ ~ (x = b /\ y = a)).
Proof.
  intros Hab Hba. rewrite unlink_bidirectional.
  pose proof (linked_delitem w a b) as Hl.
  destruct Hab as (ca & Ha & [v Hv]).
  rewrite (links_delitem_run _ _ _ _ _ Ha Hv) in *. simpl in Hl.
  set (w1 := mkWorld _ _ _) in *.
  assert (Hab : linked w a b) by (exists ca; eauto).
  case_decide as Heq.
  - subst b.
    rewrite (links_delitem_absent w1 a a (set_links ca (delete a (links ca)))).
    + simpl. split; [done|]. intros x y. rewrite Hl by done. tauto.
    + subst w1. simpl. apply lookup_insert_eq.
    + simpl. apply lookup_delete_eq.
  - assert (Hba1 : linked w1 b a).
    { apply Hl; [done|]. split; [done|]. intros [? _]. by apply Heq. }
    pose proof (linked_delitem w1 b a) as Hl1.
    destruct Hba1 as (cb & Hb1 & [v1 Hv1]).
    rewrite (links_delitem_run _ _ _ _ _ Hb1 Hv1) in *. simpl in *.
    split; [done|]. intros x y.
    rewrite Hl1 by (exists cb; eauto). rewrite Hl by done. tauto.
Qed.

Lemma unlink_dom w a b r :
  is_Some (heap (snd (unlink a (Some b) true w)) !! r) <-> is_Some (heap w !! r).
Proof.
  rewrite unlink_bidirectional.
  pose proof (links_delitem_dom w a b r) as H1.
  destruct (links_delitem a b w) as [[[]| | |] w1]; simpl in *; try done.
  by rewrite links_delitem_dom.
Qed.

Lemma linked_in_store w a b : linked w a b -> is_Some (heap w !! a).
Proof. intros (c & H & _). eauto. Qed.

(** A bidirectional [unlink] keeps a symmetric relation symmetric, however
    the call ends. *)
Lemma unlink_symmetric w a b :
  links_symmetric w -> links_symmetric (snd (unlink a (Some b) true w)).
Proof.
  intros Hsym.
  destruct (heap w !! a) as [ca|] eqn:Ha.
  - destruct (links ca !! b) as [v|] eqn:Hv.
    + assert (Hab : linked w a b) by (exists ca; eauto).
      destruct (linked_unlink w a b Hab (Hsym _ _ Hab)) as [_ Hl].
      intros x y. rewrite !Hl. intros (H & H1 & H2). split; [by apply Hsym|].
      split; intros [-> ->]; tauto.
    + rewrite unlink_bidirectional, (links_delitem_absent _ _ _ _ Ha Hv). done.
  - rewrite unlink_bidirectional. unfold links_delitem, bind, get_cell.
    by rewrite Ha.
Qed.

(** A bidirectional [link] of two cells of the store keeps a symmetric
    relation symmetric. *)
Lemma link_symmetric w a b :
  is_Some (heap w !! a) -> is_Some (heap w !! b) ->
  links_symmetric w -> links_symmetric (snd (link a (Some b) true w)).
Proof.
  intros Ha Hb Hsym. destruct (linked_link w a b Ha Hb) as (_ & _ & Hl).
  intros x y. rewrite !Hl. intros [H|[H|H]]; [tauto|tauto|].
  right. right. by apply Hsym.
Qed.

(** C7. For two cells A and B linked in both directions, [unlink(A, B)]
    leaves [is_linked] false in both directions (it returns normally when
    A and B are two cells; on one cell linked to itself the links are
    removed and the second deletion raises KeyError), and a following
    [link(A, B)] returns and makes [is_linked] true in both directions
    again.  From a symmetric link relation, a bidirectional [link] and a
    bidirectional [unlink] of two cells of the store each leave the
    relation symmetric. *)
Theorem link_unlink_round_trip (w : World) (A B : Ref) :
  is_Some (heap w !! A) -> is_Some (heap w !! B) ->
  (fst (is_linked A (Some B) w) = Ok true ->
   fst (is_linked B (Some A) w) = Ok true ->
   let r1 := unlink A (Some B) true w in
   let r2 := link A (Some B) true (snd r1) in
   fst r1 = (if decide (A = B) then Raise KeyError else Ok tt) /\
   fst (is_linked A (Some B) (snd r1)) = Ok false /\
   fst (is_linked B (Some A) (snd r1)) = Ok false /\
   fst r2 = Ok tt /\
   fst (is_linked A (Some B) (snd r2)) = Ok true /\
   fst (is_linked B (Some A) (snd r2)) = Ok true) /\
  (links_symmetric w ->
   links_symmetric (snd (link A (Some B) true w)) /\
   links_symmetric (snd (unlink A (Some B) true w))).
Proof.
  intros HA HB. split.
  - intros Hab Hba. apply is_linked_true in Hab, Hba. cbv zeta.
    destruct (linked_unlink w A B Hab Hba) as [Hr1 Hl1].
    set (w1 := snd (unlink A (Some B) true w)) in *.
    assert (HA1 : is_Some (heap w1 !! A)) by by apply unlink_dom.
    assert (HB1 : is_Some (heap w1 !! B)) by by apply unlink_dom.
    destruct (linked_link w1 A B HA1 HB1) as (Hr2 & _ & Hl2).
    split; [done|].
    split; [apply is_linked_false; [done|]; rewrite Hl1; tauto|].
    split; [apply is_linked_false; [done|]; rewrite Hl1; tauto|].
    split; [done|].
    split; apply is_linked_true, Hl2; tauto.
  - intros Hsym. split; [by apply link_symmetric|by apply unlink_symmetric].
Qed.

(** ** Running computations *)

Lemma bind_run {A B} (m : M A) (k : A -> M B) w a w' :
  m w = (Ok a, w') -> bind m k w = k a w'.
Proof. intros H. unfold bind. by rewrite H. Qed.

Lemma hoare_ret {A} (P : World -> Prop) (a : A) : hoare P (ret a) (fun a' w => a' = a /\ P w).
Proof. intros w HP. by exists a, w. Qed.

Lemma hoare_bind {A B} P (m : M A) Q (k : A -> M B) R :
  hoare P m Q -> (forall a, hoare (Q a) (k a) R) -> hoare P (bind m k) R.
Proof.
  intros Hm Hk w HP. destruct (Hm w HP) as (a & w1 & Hrun & HQ).
  rewrite (bind_run _ _ _ _ _ Hrun). by apply Hk.
Qed.

Lemma hoare_conseq {A} (P P' : World -> Prop) (m : M A) (Q Q' : A -> World -> Prop) :
  hoare P' m Q' -> (forall w, P w -> P' w) -> (forall a w, Q' a w -> Q a w) ->
  hoare P m Q.
Proof.
  intros Hm HP HQ w Hw. destruct (Hm w (HP w Hw)) as (a & w' & Hrun & Hq). eauto.
Qed.

(** A [for] loop with an invariant indexed by the number of items done. *)
Lemma hoare_fold_M {A B} (I : nat -> B -> World -> Prop) (body : B -> A -> M B)
    (l : list A) (acc0 : B) :
  (forall i x acc, l !! i = Some x ->
     hoare (I i acc) (body acc x) (fun acc' => I (S i) acc')) ->
  hoare (I 0%nat acc0) (fold_M body l acc0) (fun acc => I (length l) acc).
Proof.
  revert I acc0. induction l as [|x l IH]; intros I acc0 Hbody.
  - intros w HI. by exists acc0, w.
  - simpl. eapply hoare_bind.
    + apply (Hbody 0%nat x acc0). done.
    + intros acc1. apply (IH (fun i => I (S i))).
      intros i y acc Hy. apply (Hbody (S i)). done.
Qed.

Lemma hoare_for_each {A} (I : nat -> World -> Prop) (body : A -> M unit) (l : list A) :
  (forall i x, l !! i = Some x -> hoare (I i) (body x) (fun _ => I (S i))) ->
  hoare (I 0%nat) (for_each body l) (fun _ => I (length l)).
Proof.
  intros Hbody. unfold for_each.
  apply (hoare_fold_M (fun i _ => I i) (fun _ x => body x) l tt).
  intros i x _ Hx. by apply Hbody.
Qed.

(** ** Ranges and indexing *)

Lemma py_range2_length a b : length (py_range2 a b) = Z.to_nat (b - a).
Proof. unfold py_range2. by rewrite length_fmap, length_seq. Qed.

Lemma py_range_length b : length (py_range b) = Z.to_nat b.
Proof. unfold py_range. rewrite py_range2_length. f_equal. lia. Qed.

Lemma py_range2_lookup a b i x :
  py_range2 a b !! i = Some x <-> x = a + Z.of_nat i /\ (i < Z.to_nat (b - a))%nat.
Proof.
  unfold py_range2. rewrite list_lookup_fmap. split.
  - intros H. destruct (seq 0 (Z.to_nat (b - a)) !! i) as [k|] eqn:Hk; [|done].
    apply lookup_seq in Hk as [-> Hlt]. simpl in H. injection H as <-. done.
  - intros [-> Hlt]. by rewrite (lookup_seq_lt _ _ _ Hlt).
Qed.

Lemma py_range_lookup b i x :
  py_range b !! i = Some x <-> x = Z.of_nat i /\ (i < Z.to_nat b)%nat.
Proof.
  unfold py_range. rewrite py_range2_lookup.
  replace (b - 0) with b by lia. split; intros [-> ?]; split; lia || done.
Qed.

Lemma py_range_snoc j : 0 <= j -> py_range (j + 1) = py_range j ++ [j].
Proof.
  intros Hj. unfold py_range, py_range2.
  replace (Z.to_nat (j + 1 - 0)) with (Z.to_nat (j - 0) + 1)%nat by lia.
  rewrite seq_app, fmap_app. simpl. do 2 f_equal. lia.
Qed.

(** Python indexing into a list laid out by position. *)
Lemma py_index_tabulate {A} (f : Z -> A) (n i : Z) :
  0 <= n ->
  py_index (f <$> py_range n) i =
    if (- n <=? i) && (i <? n) then Ok (f (i mod n)) else Raise IndexError.
Proof.
  intros Hn. unfold py_index. rewrite length_fmap, py_range_length, Z2Nat.id by done.
  destruct (Z.ltb_spec i 0) as [Hi|Hi].
  - destruct (Z.ltb_spec (i + n) 0), (Z.leb_spec n (i + n)),
      (Z.leb_spec (- n) i), (Z.ltb_spec i n); simpl; try lia; try done.
    rewrite list_lookup_fmap.
    rewrite (proj2 (py_range_lookup n (Z.to_nat (i + n)) (i + n))) by lia.
    simpl. do 2 f_equal. apply Z.mod_unique with (-1); lia.
  - destruct (Z.ltb_spec i 0), (Z.leb_spec n i),
      (Z.leb_spec (- n) i), (Z.ltb_spec i n); simpl; try lia; try done.
    rewrite list_lookup_fmap.
    rewrite (proj2 (py_range_lookup n (Z.to_nat i) i)) by lia.
    simpl. do 2 f_equal. symmetry. apply Z.mod_small. lia.
Qed.

(** ** Grid construction *)

Lemma full_grid_length R C : length (full_grid R C) = Z.to_nat R.
Proof. unfold full_grid. by rewrite length_fmap, py_range_length. Qed.

Lemma full_grid_lookup R C i l :
  full_grid R C !! i = Some l <->
  (i < Z.to_nat R)%nat /\ l = (fun c => (Z.of_nat i, c)) <$> py_range C.
Proof.
  unfold full_grid. rewrite list_lookup_fmap. split.
  - destruct (py_range R !! i) as [r|] eqn:Hr; [|done].
    apply py_range_lookup in Hr as [-> Hlt]. by intros [= <-].
  - intros [Hlt ->]. by rewrite (proj2 (py_range_lookup R i (Z.of_nat i))).
Qed.

(** [self.grid[i][j]] on the grid as constructed. *)
Lemma grid_at_full R C i j :
  0 <= R -> 0 <= C ->
  grid_at (mkGrid R C (full_grid R C)) i j =
    if decide ((- R <= i < R) /\ (- C <= j < C))
    then Ok (i mod R, j mod C) else Raise IndexError.
Proof.
  intros HR HC. unfold grid_at, full_grid. simpl.
  rewrite (py_index_tabulate _ R i HR).
  destruct (Z.leb_spec (- R) i), (Z.ltb_spec i R); simpl;
    try (case_decide; [lia|done]).
  rewrite (py_index_tabulate _ C j HC).
  destruct (Z.leb_spec (- C) j), (Z.ltb_spec j C); simpl;
    case_decide; done || lia.
Qed.

Lemma grid_at_full_in R C i j :
  0 <= i < R -> 0 <= j < C ->
  grid_at (mkGrid R C (full_grid R C)) i j = Ok (i, j).
Proof.
  intros Hi Hj. rewrite grid_at_full by lia.
  case_decide; [|lia]. by rewrite !Z.mod_small by lia.
Qed.

Lemma Cell_init_run r c w :
  0 <= r -> 0 <= c ->
  Cell_init r c w =
    (Ok (r, c), mkWorld (<[(r, c) := fresh_cell r c]> (heap w)) (draws w) (pos w)).
Proof.
  intros Hr Hc. unfold Cell_init, bind, py_assert.
  destruct (Z.leb_spec 0 r); [|lia]. destruct (Z.leb_spec 0 c); [|lia]. done.
Qed.

Lemma create_row_spec (C : Z) (h0 : gmap Ref Cell) (i : nat) :
  hoare (fun w => forall x, heap w !! x =
                    if decide (before C (Z.of_nat i) 0 x) then Some (fresh_cell x.1 x.2)
                    else h0 !! x)
        (fold_M (fun temp column => c <- Cell_init (Z.of_nat i) column ;; ret (temp ++ [c]))
                (py_range C) [])
        (fun temp w =>
           temp = (fun c => (Z.of_nat i, c)) <$> py_range C /\
           forall x, heap w !! x =
                     if decide (before C (Z.of_nat (S i)) 0 x) then Some (fresh_cell x.1 x.2)
                     else h0 !! x).
Proof.
  eapply hoare_conseq.
  - apply (hoare_fold_M
             (fun j temp w =>
                temp = (fun c => (Z.of_nat i, c)) <$> py_range (Z.of_nat j) /\
                forall x, heap w !! x =
                          if decide (before C (Z.of_nat i) (Z.of_nat j) x)
                          then Some (fresh_cell x.1 x.2) else h0 !! x)).
    intros j c temp Hc. apply py_range_lookup in Hc as [-> Hj].
    intros w (Htemp & Hheap).
    rewrite (bind_run _ _ _ _ _
               (Cell_init_run (Z.of_nat i) (Z.of_nat j) w ltac:(lia) ltac:(lia))).
    eexists _, _. split; [done|]. simpl. split.
    + subst temp. replace (Z.of_nat (S j)) with (Z.of_nat j + 1) by lia.
      rewrite py_range_snoc by lia. by rewrite fmap_app.
    + intros x. destruct (decide (x = (Z.of_nat i, Z.of_nat j))) as [->|Hne].
      * rewrite lookup_insert_eq. case_decide as Hb; [done|].
        exfalso. apply Hb. unfold before. simpl. lia.
      * rewrite lookup_insert_ne by done. rewrite Hheap.
        destruct x as [r c]. unfold before. simpl.
        assert (~ (r = Z.of_nat i /\ c = Z.of_nat j)) by (intros [-> ->]; done).
        repeat case_decide; done || lia.
  - intros w Hw. simpl. split; [done|]. done.
  - intros temp w [-> Hheap]. simpl in *. rewrite py_range_length in *.
    destruct (Z.le_gt_cases 0 C).
    + rewrite Z2Nat.id by done. split; [done|]. intros x. rewrite Hheap.
      destruct x as [r c]. unfold before. simpl.
      repeat case_decide; done || lia.
    + replace (Z.to_nat C) with 0%nat by lia. split.
      * unfold py_range, py_range2.
        replace (Z.to_nat (C - 0)) with 0%nat by lia. done.
      * intros x. rewrite Hheap.
        destruct x as [r c]. unfold before. simpl.
        repeat case_decide; done || lia.
Qed.

(** [create_cells] returns the full grid of references and stores a fresh
    cell at each of them. *)
Lemma create_cells_spec R C h0 :
  hoare (fun w => heap w = h0) (create_cells R C)
        (fun g w => g = full_grid R C /\
                    forall x, heap w !! x =
                              if decide (in_grid R C x) then Some (fresh_cell x.1 x.2)
                              else h0 !! x).
Proof.
  unfold create_cells.
  eapply hoare_conseq.
  - apply (hoare_fold_M
             (fun i all_rows w =>
                all_rows = full_grid (Z.of_nat i) C /\
                forall x, heap w !! x =
                          if decide (before C (Z.of_nat i) 0 x) then Some (fresh_cell x.1 x.2)
                          else h0 !! x)).
    intros i k all_rows Hk. apply py_range_lookup in Hk as [-> Hi].
    intros w [Hrows Hheap].
    destruct (create_row_spec C h0 i w Hheap) as (temp & w1 & Hrun & -> & Hheap1).
    rewrite (bind_run _ _ _ _ _ Hrun).
    eexists _, _. split; [done|]. simpl. split; [|done].
    subst. unfold full_grid.
    replace (Z.of_nat (S i)) with (Z.of_nat i + 1) by lia.
    rewrite py_range_snoc, fmap_app by lia. done.
  - intros w Hw. simpl. split; [done|]. intros x. rewrite Hw.
    case_decide as Hb; [|done]. unfold before in Hb. lia.
  - intros g w [-> Hheap]. simpl in *. rewrite py_range_length in *.
    destruct (Z.le_gt_cases 0 R).
    + rewrite Z2Nat.id by done. split; [done|]. intros x. rewrite Hheap.
      destruct x as [r c]. unfold before, in_grid. simpl.
      repeat case_decide; done || lia.
    + replace (Z.to_nat R) with 0%nat by lia. split.
      * unfold full_grid, py_range, py_range2.
        replace (Z.to_nat (R - 0)) with 0%nat by lia. done.
      * intros x. rewrite Hheap.
        destruct x as [r c]. unfold before, in_grid. simpl.
        repeat case_decide; done || lia.
Qed.

Lemma getattr_run {A} (f : Cell -> A) r w c :
  heap w !! r = Some c -> getattr f r w = (Ok (f c), w).
Proof. intros H. unfold getattr, bind, get_cell. by rewrite H. Qed.

Lemma setattr_run upd r w c :
  heap w !! r = Some c ->
  setattr upd r w = (Ok tt, mkWorld (<[r := upd c]> (heap w)) (draws w) (pos w)).
Proof. intros H. unfold setattr, bind, get_cell, put_cell. by rewrite H. Qed.

(** One of the four guarded assignments of [connect_cell]. *)
Lemma guarded_set_run (b : bool) (res : Res Ref) (n : Ref)
    (upd : Cell -> option Ref -> Cell) r w c :
  heap w !! r = Some c -> (b = true -> res = Ok n) ->
  (if b then n <- lift res ;; setattr (fun x => upd x (Some n)) r else ret tt) w =
    (Ok tt, mkWorld (<[r := if b then upd c (Some n) else c]> (heap w)) (draws w) (pos w)).
Proof.
  intros Hc Hres. destruct b.
  - rewrite (Hres eq_refl). unfold bind, lift. by rewrite (setattr_run _ _ _ _ Hc).
  - unfold ret. rewrite insert_id by done. by destruct w.
Qed.

Lemma connect_cell_run R C r c w :
  in_grid R C (r, c) ->
  heap w !! (r, c) = Some (fresh_cell r c) ->
  connect_cell (mkGrid R C (full_grid R C)) (r, c) w =
    (Ok tt, mkWorld (<[(r, c) := wired R C r c]> (heap w)) (draws w) (pos w)).
Proof.
  intros [Hr Hc] Hcell. simpl in Hr, Hc. unfold connect_cell.
  rewrite (bind_run _ _ _ _ _ (getattr_run row _ _ _ Hcell)).
  rewrite (bind_run _ _ _ _ _ (getattr_run column _ _ _ Hcell)).
  simpl.
  erewrite (bind_run _ _ w);
    [|apply (guarded_set_run _ _ (r - 1, c) set_north _ _ _ Hcell);
      intros Hb%Z.leb_le; apply grid_at_full_in; lia].
  erewrite bind_run;
    [|apply (guarded_set_run _ _ (r + 1, c) set_south); [apply lookup_insert_eq|];
      intros Hb%Z.ltb_lt; apply grid_at_full_in; lia].
  erewrite bind_run;
    [|apply (guarded_set_run _ _ (r, c - 1) set_west); [apply lookup_insert_eq|];
      intros Hb%Z.leb_le; apply grid_at_full_in; lia].
  erewrite (guarded_set_run _ _ (r, c + 1) set_east); [|apply lookup_insert_eq|];
    [|intros Hb%Z.ltb_lt; apply grid_at_full_in; lia].
  simpl. rewrite !insert_insert_eq. do 3 f_equal.
  unfold wired, fresh_cell.
  destruct (Z.leb_spec 0 (r - 1)), (Z.ltb_spec (r + 1) R),
    (Z.leb_spec 0 (c - 1)), (Z.ltb_spec (c + 1) C);
    repeat case_decide; try lia; reflexivity.
Qed.

Lemma connect_row_spec R C h0 (i : nat) :
  (i < Z.to_nat R)%nat ->
  hoare (connecting R C (Z.of_nat i) 0 h0)
        (for_each (connect_cell (mkGrid R C (full_grid R C)))
                  ((fun c => (Z.of_nat i, c)) <$> py_range C))
        (fun _ => connecting R C (Z.of_nat (S i)) 0 h0).
Proof.
  intros Hi. eapply hoare_conseq.
  - apply (hoare_for_each (fun j => connecting R C (Z.of_nat i) (Z.of_nat j) h0)).
    intros j x Hx. rewrite list_lookup_fmap in Hx.
    destruct (py_range C !! j) as [c|] eqn:Hc; [|done].
    apply py_range_lookup in Hc as [-> Hj]. simpl in Hx. injection Hx as Hx.
    subst x. intros w Hw.
    assert (Hin : in_grid R C (Z.of_nat i, Z.of_nat j)) by (unfold in_grid; simpl; lia).
    assert (Hcell : heap w !! (Z.of_nat i, Z.of_nat j)
                    = Some (fresh_cell (Z.of_nat i) (Z.of_nat j))).
    { rewrite Hw. rewrite decide_True by done.
      rewrite decide_False; [done|]. unfold before. simpl. lia. }
    rewrite (connect_cell_run R C _ _ w Hin Hcell).
    eexists _, _. split; [done|]. intros y. simpl.
    destruct (decide (y = (Z.of_nat i, Z.of_nat j))) as [->|Hne].
    + rewrite lookup_insert_eq, decide_True by done.
      rewrite decide_True; [done|]. unfold before. simpl. lia.
    + rewrite lookup_insert_ne by done. rewrite Hw.
      destruct y as [r c]. unfold before, in_grid. simpl.
      assert (~ (r = Z.of_nat i /\ c = Z.of_nat j)) by (intros [-> ->]; done).
      repeat case_decide; done || lia.
  - done.
  - intros u w Hw x. simpl in Hw. rewrite Hw. rewrite length_fmap, py_range_length.
    destruct x as [r c]. unfold before, in_grid. simpl.
    repeat case_decide; done || lia.
Qed.

Lemma connect_cells_spec R C h0 :
  hoare (connecting R C 0 0 h0)
        (connect_cells (mkGrid R C (full_grid R C)))
        (fun _ w => forall x, heap w !! x =
                              if decide (in_grid R C x) then Some (wired R C x.1 x.2)
                              else h0 !! x).
Proof.
  unfold connect_cells. simpl. eapply hoare_conseq.
  - apply (hoare_for_each (fun i => connecting R C (Z.of_nat i) 0 h0)).
    intros i l Hl. apply full_grid_lookup in Hl as [Hi ->].
    by apply connect_row_spec.
  - done.
  - intros u w Hw x. simpl in Hw. rewrite Hw. rewrite full_grid_length.
    destruct x as [r c]. unfold before, in_grid. simpl.
    repeat case_decide; done || lia.
Qed.

Lemma Grid_init_spec R C h0 :
  0 < R -> 0 < C ->
  hoare (fun w => heap w = h0) (Grid_init R C) (grid_built R C h0).
Proof.
  intros HR HC w Hw. unfold Grid_init.
  unfold py_assert at 1. destruct (Z.ltb_spec 0 R); [|lia].
  rewrite (bind_run _ _ w tt w) by done.
  unfold py_assert at 1. destruct (Z.ltb_spec 0 C); [|lia].
  rewrite (bind_run _ _ w tt w) by done.
  destruct (create_cells_spec R C h0 w Hw) as (g & w1 & Hrun & -> & Hheap).
  rewrite (bind_run _ _ _ _ _ Hrun).
  destruct (connect_cells_spec R C h0 w1) as ([] & w2 & Hrun2 & Hheap2).
  { intros x. rewrite Hheap. case_decide; [|done].
    rewrite decide_False; [done|]. unfold before. lia. }
  rewrite (bind_run _ _ _ _ _ Hrun2).
  eexists _, _. split; [done|]. split; done.
Qed.

(** ** The topology is never changed *)

Lemma same_topology_refl w : same_topology w w.
Proof. done. Qed.

Lemma same_topology_trans w1 w2 w3 :
  same_topology w1 w2 -> same_topology w2 w3 -> same_topology w1 w3.
Proof. intros H1 H2 r. by rewrite H2, H1. Qed.

Lemma preserves_ret {A} (a : A) : preserves (ret a).
Proof. done. Qed.

Lemma preserves_raise {A} e : preserves (@raise A e).
Proof. done. Qed.

Lemma preserves_lift {A} (r : Res A) : preserves (lift r).
Proof. done. Qed.

Lemma preserves_bind {A B} (m : M A) (k : A -> M B) :
  preserves m -> (forall a, preserves (k a)) -> preserves (bind m k).
Proof.
  intros Hm Hk w. unfold bind. specialize (Hm w).
  destruct (m w) as [[a| | |] w1]; simpl in *; try done.
  eapply same_topology_trans; [done|]. apply Hk.
Qed.

Lemma preserves_fold_M {A B} (body : B -> A -> M B) l acc :
  (forall acc x, preserves (body acc x)) -> preserves (fold_M body l acc).
Proof.
  intros Hbody. revert acc. induction l as [|x l IH]; intros acc; simpl.
  - apply preserves_ret.
  - apply preserves_bind; [apply Hbody|apply IH].
Qed.

Lemma preserves_for_each {A} (body : A -> M unit) l :
  (forall x, preserves (body x)) -> preserves (for_each body l).
Proof. intros H. apply preserves_fold_M. intros _ x. apply H. Qed.

Lemma preserves_loop {S R} fuel (body : S -> M (S + R)) s :
  (forall s, preserves (body s)) -> preserves (loop fuel body s).
Proof.
  intros Hbody. revert s. induction fuel as [|n IH]; intros s; simpl.
  - apply preserves_lift.
  - apply preserves_bind; [apply Hbody|]. intros [s'|r]; [apply IH|apply preserves_ret].
Qed.

Lemma preserves_get_cell r : preserves (get_cell r).
Proof. intros w. unfold get_cell. by destruct (heap w !! r). Qed.

Lemma preserves_next_draw : preserves next_draw.
Proof. done. Qed.

(** Writing back a cell just read, with the same topology. *)
Lemma preserves_update r (f : Cell -> Cell) :
  (forall c, topo (f c) = topo c) ->
  preserves (c <- get_cell r ;; put_cell r (f c)).
Proof.
  intros Hf w q. unfold bind, get_cell, put_cell.
  destruct (heap w !! r) as [c|] eqn:Hr; simpl; [|done].
  destruct (decide (r = q)) as [<-|Hne].
  - rewrite lookup_insert_eq, Hr. simpl. by rewrite Hf.
  - by rewrite lookup_insert_ne.
Qed.

Lemma preserves_getattr {A} (f : Cell -> A) r : preserves (getattr f r).
Proof.
  unfold getattr. apply preserves_bind; [apply preserves_get_cell|].
  intros c. apply preserves_ret.
Qed.

Lemma preserves_setattr upd r :
  (forall c, topo (upd c) = topo c) -> preserves (setattr upd r).
Proof. apply preserves_update. Qed.

Lemma preserves_links_setitem a b : preserves (links_setitem a b).
Proof. by apply preserves_update. Qed.

Lemma preserves_links_delitem a b : preserves (links_delitem a b).
Proof.
  intros w q. unfold links_delitem, bind, get_cell, put_cell.
  destruct (heap w !! a) as [c|] eqn:Hr; simpl; [|done].
  destruct (links c !! b); simpl; [|done].
  destruct (decide (a = q)) as [<-|Hne].
  - by rewrite lookup_insert_eq, Hr.
  - by rewrite lookup_insert_ne.
Qed.

Lemma preserves_random_choice {A} (l : list A) : preserves (random_choice l).
Proof.
  destruct l; [apply preserves_raise|]. unfold random_choice.
  apply preserves_bind; [apply preserves_next_draw|]. intros d. apply preserves_lift.
Qed.

Lemma preserves_random_uniform a b : preserves (random_uniform a b).
Proof.
  unfold random_uniform, random_random.
  repeat (apply preserves_bind; [|intros ?]);
    apply preserves_next_draw || apply preserves_ret.
Qed.

Create HintDb pres.
#[local] Hint Resolve preserves_ret preserves_raise preserves_lift preserves_get_cell
  preserves_next_draw preserves_getattr preserves_links_setitem preserves_links_delitem
  preserves_random_choice preserves_random_uniform : pres.

(** Walks down a computation: binds, loops and branches, leaving the
    primitive steps to the hint base. *)
Ltac pres_step :=
  match goal with
  | |- preserves (bind _ _) => apply preserves_bind
  | |- preserves (fold_M _ _ _) => apply preserves_fold_M
  | |- preserves (for_each _ _) => apply preserves_for_each
  | |- preserves (loop _ _ _) => apply preserves_loop
  | |- preserves (setattr _ _) => apply preserves_setattr; done
  | |- preserves (index_M _ _) => apply preserves_lift
  | |- preserves (py_assert ?b) => destruct b; simpl
  | |- preserves (assert_cell ?c) => destruct c; simpl
  | |- preserves (if ?b then _ else _) => destruct b
  | |- preserves (match ?x with _ => _ end) => destruct x
  | |- forall _, _ => intros
  end.
Ltac pres := repeat pres_step; auto with pres.

Lemma preserves_link a b bidir : preserves (link a b bidir).
Proof. unfold link. pres. Qed.

Lemma preserves_unlink a b bidir : preserves (unlink a b bidir).
Proof. unfold unlink. pres. Qed.

Lemma preserves_is_linked a b : preserves (is_linked a b).
Proof. unfold is_linked. pres. Qed.

Lemma preserves_all_links a : preserves (all_links a).
Proof. unfold all_links. pres. Qed.

Lemma preserves_link_count a : preserves (link_count a).
Proof. unfold link_count. pres. apply preserves_all_links. Qed.

Lemma preserves_neighbors a : preserves (neighbors a).
Proof. unfold neighbors. pres. Qed.

Lemma preserves_cell_visited a : preserves (cell_visited a).
Proof. unfold cell_visited. by apply preserves_update. Qed.

Lemma preserves_is_visited a : preserves (is_visited a).
Proof. unfold is_visited. pres. Qed.

#[local] Hint Resolve preserves_link preserves_unlink preserves_is_linked
  preserves_all_links preserves_link_count preserves_neighbors
  preserves_cell_visited preserves_is_visited : pres.

Lemma preserves_deadends g : preserves (deadends g).
Proof. unfold deadends, Cell_all_links_unbound. pres. Qed.

Lemma preserves_each_cell g : preserves (each_cell g).
Proof. unfold each_cell. pres. Qed.

Lemma preserves_random_cell g : preserves (random_cell g).
Proof. unfold random_cell. pres. Qed.

Lemma preserves_Grid_str {V} (py_str : V -> string) self : preserves (Grid_str py_str self).
Proof.
  unfold Grid_str, str_cell_line, str_south_line, get_markup. pres.
Qed.

Lemma preserves_link_top_row g : preserves (link_top_row g).
Proof. unfold link_top_row. pres. Qed.

Lemma preserves_binary_tree g : preserves (binary_tree g).
Proof. unfold binary_tree. pres. apply preserves_link_top_row. Qed.

Lemma preserves_sidewinder g odds : preserves (sidewinder g odds).
Proof.
  unfold sidewinder, sidewinder_step. pres. apply preserves_link_top_row.
Qed.

Lemma preserves_aldous_broder fuel g : preserves (aldous_broder fuel g).
Proof.
  unfold aldous_broder, aldous_broder_step. pres. apply preserves_random_cell.
Qed.

Lemma preserves_wilson fuel g : preserves (wilson fuel g).
Proof.
  unfold wilson, wilson_step, wilson_commit. pres. apply preserves_random_cell.
Qed.

Lemma preserves_recursive_backtracker g s : preserves (recursive_backtracker g s).
Proof. unfold recursive_backtracker. pres. Qed.

Lemma run_op_same_topology g op w : same_topology w (run_op g op w).
Proof.
  destruct op; cbn [run_op];
    first [ apply preserves_link | apply preserves_unlink | apply preserves_is_linked
          | apply preserves_all_links | apply preserves_link_count
          | apply preserves_neighbors | apply preserves_cell_visited
          | apply preserves_is_visited | apply preserves_deadends
          | apply preserves_each_cell | apply preserves_random_cell
          | apply preserves_Grid_str | apply preserves_binary_tree
          | apply preserves_sidewinder | apply preserves_aldous_broder
          | apply preserves_wilson | apply preserves_recursive_backtracker ].
Qed.

Lemma run_ops_same_topology g ops w : same_topology w (run_ops g ops w).
Proof.
  unfold run_ops. revert w. induction ops as [|op ops IH]; intros w; simpl.
  - apply same_topology_refl.
  - eapply same_topology_trans; [apply run_op_same_topology|apply IH].
Qed.

Lemma grid_built_topology R C h0 g w : grid_built R C h0 g w -> grid_topology R C w.
Proof.
  intros [_ Hheap] r c Hr Hc. exists (wired R C r c). split.
  - rewrite Hheap. rewrite decide_True; [done|]. unfold in_grid. simpl. lia.
  - unfold wired, north_of, south_of, west_of, east_of. simpl.
    repeat split; repeat case_decide; done || lia.
Qed.

Lemma grid_topology_preserved R C w w' :
  same_topology w w' -> grid_topology R C w -> grid_topology R C w'.
Proof.
  intros Hsame Htop r c Hr Hc.
  destruct (Htop r c Hr Hc) as (cell & Hcell & Hrow & Hcol & Hn & Hs & Hw & He).
  specialize (Hsame (r, c)). rewrite Hcell in Hsame. simpl in Hsame.
  apply fmap_Some in Hsame as (cell' & Hcell' & Htopo).
  injection Htopo as H1 H2 H3 H4 H5 H6. exists cell'.
  split; [exact Hcell'|]. repeat split; congruence.
Qed.

(** In a grid topology east and west, and north and south, are inverse
    to each other. *)
Lemma grid_topology_inverse R C w A B cA :
  grid_topology R C w -> in_grid R C A -> heap w !! A = Some cA ->
  (east cA = Some B -> exists cB, heap w !! B = Some cB /\ west cB = Some A) /\
  (north cA = Some B -> exists cB, heap w !! B = Some cB /\ south cB = Some A).
Proof.
  intros Htop [Hr Hc] HA. destruct A as [r c]. simpl in Hr, Hc.
  destruct (Htop r c Hr Hc) as (cell & Hcell & _ & _ & Hn & _ & _ & He).
  rewrite HA in Hcell. injection Hcell as <-. split.
  - rewrite He. unfold east_of. case_decide; [|done]. intros [= <-].
    destruct (Htop r (c + 1)) as (cB & HB & _ & _ & _ & _ & Hw & _); [lia|lia|].
    exists cB. split; [done|]. rewrite Hw. unfold west_of.
    rewrite decide_True by lia. do 2 f_equal. lia.
  - rewrite Hn. unfold north_of. case_decide; [|done]. intros [= <-].
    destruct (Htop (r - 1) c) as (cB & HB & _ & _ & _ & Hs & _ & _); [lia|lia|].
    exists cB. split; [done|]. rewrite Hs. unfold south_of.
    rewrite decide_True by lia. do 2 f_equal. lia.
Qed.

(** C10. [Grid(R, C)] with R > 0 and C > 0 returns a grid whose entry
    [r][c] is the cell (r, c), and after construction and any sequence of
    later calls every cell (r, c) has as north the cell (r-1, c) when
    r > 0 and none otherwise, likewise south at r+1, west at c-1 and east
    at c+1; whenever the east of A is B the west of B is A, and whenever
    the north of A is B the south of B is A. *)
Theorem grid_topology_invariant (R C : Z) (w : World) (ops : list Op) :
  0 < R -> 0 < C ->
  exists g w1,
    Grid_init R C w = (Ok g, w1) /\
    num_rows g = R /\ num_columns g = C /\
    (forall r c, 0 <= r < R -> 0 <= c < C -> cell_at g r c = Ok (r, c)) /\
    let w2 := run_ops g ops w1 in
    grid_topology R C w2 /\
    (forall A B cA, in_grid R C A -> heap w2 !! A = Some cA ->
       (east cA = Some B -> exists cB, heap w2 !! B = Some cB /\ west cB = Some A) /\
       (north cA = Some B -> exists cB, heap w2 !! B = Some cB /\ south cB = Some A)).
Proof.
  intros HR HC.
  destruct (Grid_init_spec R C (heap w) HR HC w eq_refl) as (g & w1 & Hrun & Hbuilt).
  exists g, w1. split; [done|].
  pose proof Hbuilt as [-> _]. simpl. split; [done|]. split; [done|]. split.
  { intros r c Hr Hc. by apply grid_at_full_in. }
  assert (Htop : grid_topology R C (run_ops (mkGrid R C (full_grid R C)) ops w1)).
  { eapply grid_topology_preserved; [apply run_ops_same_topology|].
    by eapply grid_built_topology. }
  split; [done|]. intros A B cA HA HcA. by eapply grid_topology_inverse.
Qed.

(** ** Looking cells up *)

(** C4, as the code has it.  On the grid [Grid(R, C)] builds,
    [cell_at(row, col)] raises IndexError exactly when [row] is outside
    [-R, R) or [col] outside [-C, C); for a pair in [0, R) x [0, C) it
    returns the cell with that row and column; a negative index within
    range counts from the end, as Python list indexing does, so the call
    returns the cell at (row mod R, col mod C) and raises nothing. *)
Theorem cell_at_python_indexing (R C : Z) (w : World) (r c : Z) :
  0 < R -> 0 < C ->
  exists g w1,
    Grid_init R C w = (Ok g, w1) /\
    (r < - R \/ R <= r \/ c < - C \/ C <= c ->
     cell_at g r c = Raise IndexError) /\
    (0 <= r < R -> 0 <= c < C ->
     cell_at g r c = Ok (r, c) /\
     exists cell, heap w1 !! (r, c) = Some cell /\ row cell = r /\ column cell = c) /\
    (- R <= r < R -> - C <= c < C ->
     cell_at g r c = Ok (r mod R, c mod C)).
Proof.
  intros HR HC.
  destruct (Grid_init_spec R C (heap w) HR HC w eq_refl) as (g & w1 & Hrun & Hbuilt).
  exists g, w1. split; [done|].
  pose proof (grid_built_topology _ _ _ _ _ Hbuilt) as Htop.
  destruct Hbuilt as [-> _]. unfold cell_at.
  rewrite grid_at_full by lia. split; [|split].
  - intros Hout. rewrite decide_False; [done|lia].
  - intros Hr Hc. rewrite decide_True by lia.
    rewrite !Z.mod_small by lia. split; [done|].
    destruct (Htop r c Hr Hc) as (cell & Hcell & Hrow & Hcol & _). eauto.
  - intros Hr Hc. by rewrite decide_True by lia.
Qed.

(** ** The extreme cells of a markup *)

Lemma fold_max_first {A} (key : A -> Z) (l pre mid : list A) (best : A) :
  (forall k, k ∈ pre -> key k < key best) ->
  (forall k, k ∈ mid -> key k <= key best) ->
  first_max (pre ++ best :: mid ++ l) key
            (fold_left (fun best y => if key best <? key y then y else best) l best).
Proof.
  revert pre mid best. induction l as [|y l IH]; intros pre mid best Hpre Hmid.
  - simpl. exists pre, mid. by rewrite app_nil_r.
  - simpl. destruct (Z.ltb_spec (key best) (key y)) as [Hlt|Hge].
    + specialize (IH (pre ++ best :: mid) [] y). simpl in IH.
      rewrite <- app_assoc in IH. simpl in IH. apply IH.
      * intros k [Hk|Hk]%elem_of_app; [specialize (Hpre k Hk); lia|].
        apply elem_of_cons in Hk as [->|Hk]; [done|]. specialize (Hmid k Hk). lia.
      * intros k Hk. by apply elem_of_nil in Hk.
    + specialize (IH pre (mid ++ [y]) best). rewrite <- app_assoc in IH.
      simpl in IH. apply IH; [done|].
      intros k [Hk|Hk]%elem_of_app; [by apply Hmid|].
      apply list_elem_of_singleton in Hk as ->. done.
Qed.

Lemma fold_min_first {A} (key : A -> Z) (l pre mid : list A) (best : A) :
  (forall k, k ∈ pre -> key best < key k) ->
  (forall k, k ∈ mid -> key best <= key k) ->
  first_min (pre ++ best :: mid ++ l) key
            (fold_left (fun best y => if key y <? key best then y else best) l best).
Proof.
  revert pre mid best. induction l as [|y l IH]; intros pre mid best Hpre Hmid.
  - simpl. exists pre, mid. by rewrite app_nil_r.
  - simpl. destruct (Z.ltb_spec (key y) (key best)) as [Hlt|Hge].
    + specialize (IH (pre ++ best :: mid) [] y). simpl in IH.
      rewrite <- app_assoc in IH. simpl in IH. apply IH.
      * intros k [Hk|Hk]%elem_of_app; [specialize (Hpre k Hk); lia|].
        apply elem_of_cons in Hk as [->|Hk]; [done|]. specialize (Hmid k Hk). lia.
      * intros k Hk. by apply elem_of_nil in Hk.
    + specialize (IH pre (mid ++ [y]) best). rewrite <- app_assoc in IH.
      simpl in IH. apply IH; [done|].
      intros k [Hk|Hk]%elem_of_app; [by apply Hmid|].
      apply list_elem_of_singleton in Hk as ->. done.
Qed.

(** Setting an entry keeps the place of a key that is present and puts a
    new key last. *)
Lemma dict_set_keys {V} (k : Ref) (v : V) (d : list (Ref * V)) :
  dict_keys (dict_set k v d) =
    if decide (k ∈ dict_keys d) then dict_keys d else dict_keys d ++ [k].
Proof.
  induction d as [|[k' v'] d IH].
  - destruct (decide (k ∈ dict_keys [])) as [Hin|_]; [|done].
    by apply elem_of_nil in Hin.
  - change (dict_keys ((k', v') :: d)) with (k' :: dict_keys d).
    cbn [dict_set]. destruct (decide (k = k')) as [->|Hne].
    + destruct (decide (k' ∈ k' :: dict_keys d)) as [_|Hnin]; [done|].
      exfalso. apply Hnin. by left.
    + change (dict_keys ((k', v') :: dict_set k v d))
        with (k' :: dict_keys (dict_set k v d)).
      rewrite IH.
      destruct (decide (k ∈ dict_keys d)) as [Hin|Hnin],
               (decide (k ∈ k' :: dict_keys d)) as [Hin'|Hnin']; try done.
      * exfalso. apply Hnin'. by right.
      * apply elem_of_cons in Hin' as [?|?]; [congruence|done].
Qed.

(** C5, as the code has it.  On a markup with at least one explicit
    entry [max()] returns a cell with the largest value and [min()] a
    cell with the smallest, and among cells that tie it is the first one
    in the order of the [marks] dict, which is the order in which the
    cells were first given a value: setting a cell that has an entry
    keeps its place, setting another puts it last. *)
Theorem Markup_max_min_first_inserted (m : Markup Z) :
  marks m <> [] ->
  (exists cmax cmin,
     Markup_max m = Ok cmax /\ Markup_min m = Ok cmin /\
     first_max (dict_keys (marks m)) (Markup_getitem m) cmax /\
     first_min (dict_keys (marks m)) (Markup_getitem m) cmin) /\
  (forall cell value,
     dict_keys (marks (Markup_setitem m cell value)) =
       if decide (cell ∈ dict_keys (marks m)) then dict_keys (marks m)
       else dict_keys (marks m) ++ [cell]).
Proof.
  intros Hne. split; [|intros cell value; apply dict_set_keys].
  unfold Markup_max, Markup_min, py_max, py_min.
  destruct (marks m) as [|[k v] d] eqn:Hm; [done|]. simpl.
  eexists _, _. split; [done|]. split; [done|]. split.
  - apply (fold_max_first _ (dict_keys d) [] [] k);
      intros x Hx; by apply elem_of_nil in Hx.
  - apply (fold_min_first _ (dict_keys d) [] [] k);
      intros x Hx; by apply elem_of_nil in Hx.
Qed.

(** ** The text rendering *)

Lemma str_app_cons a (s1 s2 : string) : String a s1 +:+ s2 = String a (s1 +:+ s2).
Proof. reflexivity. Qed.

Lemma str_app_nil_l (s : string) : EmptyString +:+ s = s.
Proof. reflexivity. Qed.

Lemma str_app_assoc (s1 s2 s3 : string) : (s1 +:+ s2) +:+ s3 = s1 +:+ (s2 +:+ s3).
Proof.
  induction s1 as [|a s1 IH]; [done|]. by rewrite !str_app_cons, IH.
Qed.

Lemma str_app_nil_r (s : string) : s +:+ EmptyString = s.
Proof. induction s as [|a s IH]; [done|]. by rewrite str_app_cons, IH. Qed.

Lemma str_app_length (s1 s2 : string) :
  String.length (s1 +:+ s2) = (String.length s1 + String.length s2)%nat.
Proof.
  induction s1 as [|a s1 IH]; [done|]. rewrite str_app_cons. simpl. by rewrite IH.
Qed.

Lemma str_repeat_blank_length (n : nat) :
  String.length (str_repeat " " (Z.of_nat n)) = n.
Proof.
  unfold str_repeat. rewrite Nat2Z.id.
  induction n as [|n IH]; [done|]. simpl. by rewrite str_app_nil_l, IH.
Qed.

(** A label of at most three characters is rendered on exactly three. *)
Lemma center3_length (s : string) :
  String.length (center3 s) = Nat.max 3 (String.length s).
Proof.
  unfold center3. rewrite !str_app_length, !str_repeat_blank_length.
  pose proof (Nat.Div0.div_le_upper_bound (3 - String.length s) 2 (3 - String.length s)).
  assert ((3 - String.length s) / 2 <= 3 - String.length s)%nat
    by (apply Nat.Div0.div_le_upper_bound; lia).
  lia.
Qed.

(** A label of three characters or more is rendered as it is. *)
Lemma center3_long (s : string) : (3 <= String.length s)%nat -> center3 s = s.
Proof.
  intros Hs. unfold center3.
  replace (3 - String.length s)%nat with 0%nat by lia.
  change (str_repeat " " (Z.of_nat (0 / 2))) with EmptyString.
  change (str_repeat " " (Z.of_nat (0 - 0 / 2))) with EmptyString.
  by rewrite str_app_nil_l, str_app_nil_r.
Qed.

(** A loop that appends one piece per item and leaves the world alone. *)
Lemma fold_M_append {A} (body : string -> A -> M string) (f : A -> string) l acc w :
  (forall x acc, x ∈ l -> body acc x w = (Ok (acc +:+ f x), w)) ->
  fold_M body l acc w = (Ok (acc +:+ concat_str (f <$> l)), w).
Proof.
  revert acc. induction l as [|x l IH]; intros acc Hbody; simpl.
  - unfold ret. by rewrite str_app_nil_r.
  - rewrite (bind_run _ _ _ _ _ (Hbody x acc ltac:(left))).
    rewrite IH; [|intros y acc' Hy; apply Hbody; by right].
    by rewrite str_app_assoc.
Qed.

Lemma fold_M_fmap {A A' B} (g : A' -> A) (body : B -> A -> M B) l acc w :
  fold_M body (g <$> l) acc w = fold_M (fun acc x => body acc (g x)) l acc w.
Proof.
  revert acc w. induction l as [|x l IH]; intros acc w; simpl; [done|].
  unfold bind. destruct (body acc (g x) w) as [[acc'| | |] w']; [apply IH|done..].
Qed.

Lemma is_linked_run w a b c :
  heap w !! a = Some c -> is_linked a (Some b) w = (Ok (linked_b w a b), w).
Proof.
  intros Ha. unfold is_linked, linked_b, bind, assert_cell, ret, get_cell.
  by rewrite Ha.
Qed.

Lemma linked_b_true w a b : linked_b w a b = true <-> linked w a b.
Proof.
  unfold linked_b, linked. destruct (heap w !! a) as [c|]; split.
  - intros H%bool_decide_eq_true. eauto.
  - intros (c' & [= <-] & H). by apply bool_decide_eq_true.
  - done.
  - by intros (c' & ? & _).
Qed.

Lemma linked_b_sym w a b : links_symmetric w -> linked_b w a b = linked_b w b a.
Proof.
  intros Hsym. apply eq_true_iff_eq. rewrite !linked_b_true.
  split; apply Hsym.
Qed.

Lemma py_range_elem n x : x ∈ py_range n <-> 0 <= x < n.
Proof.
  rewrite list_elem_of_lookup. split.
  - intros [i Hi]. apply py_range_lookup in Hi. lia.
  - intros Hx. exists (Z.to_nat x). apply py_range_lookup. lia.
Qed.

Lemma py_range_head n : 0 < n -> exists l, py_range n = 0 :: l.
Proof.
  intros Hn. unfold py_range, py_range2.
  replace (Z.to_nat (n - 0)) with (S (Z.to_nat (n - 1))) by lia.
  simpl. eauto.
Qed.

Lemma render_spec_ext R C label (open open' : Ref -> Ref -> bool) :
  (forall a b, open a b = open' a b) ->
  render_spec R C label open = render_spec R C label open'.
Proof.
  intros Hext. unfold render_spec.
  repeat match goal with
         | |- concat_str _ = concat_str _ => f_equal
         | |- _ <$> _ = _ <$> _ => apply list_fmap_ext; intros
         | |- String.append _ _ = String.append _ _ => f_equal
         | |- context [open _ _] => rewrite Hext
         end; done.
Qed.

Section RenderProofs.
  Context {V : Type}.
  Variable py_str : V -> string.
  Variables (R C : Z) (w : World) (mk : Markup V).
  Hypothesis Htop : grid_topology R C w.

Lemma str_cell_line_run acc r c :
  0 <= r < R -> 0 <= c < C ->
  str_cell_line py_str (mkGridObj (mkGrid R C (full_grid R C)) (Some mk)) acc (r, c) w =
    (Ok (acc +:+ center3 (py_str (Markup_getitem mk (r, c))) +:+
         (if bool_decide (c + 1 < C) && linked_b w (r, c + 1) (r, c) then " " else "|")),
     w).
Proof.
  intros Hr Hc. unfold str_cell_line. simpl.
  unfold bind at 1. simpl.
  destruct (Htop r c Hr Hc) as (cell & Hcell & _ & _ & _ & _ & _ & He).
  rewrite (bind_run _ _ _ _ _ (getattr_run east _ _ _ Hcell)).
  rewrite He. unfold east_of. case_decide as Hlt.
  - destruct (Htop r (c + 1)) as (cellE & HcellE & _); [lia|lia|].
    rewrite (bind_run _ _ _ _ _ (is_linked_run _ _ (r, c) _ HcellE)).
    rewrite bool_decide_eq_true_2 by done. simpl.
    destruct (linked_b w (r, c + 1) (r, c)); unfold ret; by rewrite str_app_assoc.
  - rewrite bool_decide_eq_false_2 by done. simpl. unfold ret. by rewrite str_app_assoc.
Qed.

Lemma str_south_line_run acc r c :
  0 <= r < R -> 0 <= c < C ->
  str_south_line acc (r, c) w =
    (Ok (acc +:+ (if bool_decide (r + 1 < R) && linked_b w (r + 1, c) (r, c)
                  then "   +" else "---+")), w).
Proof.
  intros Hr Hc. unfold str_south_line.
  destruct (Htop r c Hr Hc) as (cell & Hcell & _ & _ & _ & Hs & _ & _).
  rewrite (bind_run _ _ _ _ _ (getattr_run south _ _ _ Hcell)).
  rewrite Hs. unfold south_of. case_decide as Hlt.
  - destruct (Htop (r + 1) c) as (cellS & HcellS & _); [lia|lia|].
    rewrite (bind_run _ _ _ _ _ (is_linked_run _ _ (r, c) _ HcellS)).
    rewrite bool_decide_eq_true_2 by done. simpl.
    by destruct (linked_b w (r + 1, c) (r, c)).
  - by rewrite bool_decide_eq_false_2 by done.
Qed.

Lemma Grid_str_run :
  Grid_str py_str (mkGridObj (mkGrid R C (full_grid R C)) (Some mk)) w =
    (Ok (render_spec R C (fun x => py_str (Markup_getitem mk x))
                     (fun a b => linked_b w b a)), w).
Proof.
  unfold Grid_str, render_spec. simpl.
  set (self := mkGridObj _ _). unfold full_grid. rewrite fold_M_fmap.
  apply fold_M_append.
  intros r acc Hr%py_range_elem.
  erewrite bind_run; cycle 1.
  { apply (fold_M_append _
             (fun x => center3 (py_str (Markup_getitem mk x)) +:+
                       (if bool_decide (x.2 + 1 < C) && linked_b w (x.1, x.2 + 1) x
                        then " " else "|"))).
    intros x acc' Hx. apply list_elem_of_fmap in Hx as (c & -> & Hc%py_range_elem).
    subst self. by rewrite str_cell_line_run by done. }
  erewrite bind_run; cycle 1.
  { apply (fold_M_append _
             (fun x => if bool_decide (x.1 + 1 < R) && linked_b w (x.1 + 1, x.2) x
                       then "   +" else "---+")).
    intros x acc' Hx. apply list_elem_of_fmap in Hx as (c & -> & Hc%py_range_elem).
    by rewrite str_south_line_run. }
  unfold ret. rewrite <- !list_fmap_compose. unfold compose. simpl.
  by rewrite !str_app_assoc.
Qed.

End RenderProofs.

(** Without a markup the first cell of the first row already fails. *)
Lemma Grid_str_no_markup {V} (py_str : V -> string) R C w :
  0 < R -> 0 < C ->
  Grid_str py_str (mkGridObj (mkGrid R C (full_grid R C)) None) w
  = (Raise AttributeError, w).
Proof.
  intros HR HC. unfold Grid_str, full_grid. simpl.
  destruct (py_range_head R HR) as [lr ->].
  destruct (py_range_head C HC) as [lc ->]. reflexivity.
Qed.

(** C8, as the code has it.  For a grid of R x C cells on which
    [set_markup] has installed a markup, in every link state, [__str__]
    returns the text whose first line is [+] followed by [---+] C times,
    and that has for each row a line starting with a bar and holding, per
    cell, the label [str(markup[cell])] centred in a field of width 3
    (exactly three characters for a label of at most three, a longer
    label as it is; the markup's default for a cell without entry)
    followed by a blank when the east
    neighbour holds a link to the cell and a bar otherwise, then a line
    starting with [+] and holding per cell three blanks and [+] when the
    south neighbour holds a link to the cell and [---+] otherwise; in a
    symmetric link state that is: when the cell is linked to its east
    (south) neighbour.  A markup has to be installed: on a grid object
    that never got one, [__str__] raises AttributeError. *)
Theorem Grid_str_format {V : Type} (py_str : V -> string) (R C : Z) (w : World)
    (mk : Markup V) :
  0 < R -> 0 < C -> grid_topology R C w ->
  let g := new_grid_obj (mkGrid R C (full_grid R C)) in
  let label := fun x => py_str (Markup_getitem mk x) in
  let out := render_spec R C label (fun a b => linked_b w b a) in
  Grid_str py_str (set_markup g mk) w = (Ok out, w) /\
  (exists rest, out = ("+" +:+ str_repeat "---+" C +:+ nl) +:+ rest) /\
  (forall x, (String.length (label x) <= 3)%nat ->
             String.length (center3 (label x)) = 3%nat) /\
  (forall x, (3 <= String.length (label x))%nat -> center3 (label x) = label x) /\
  (links_symmetric w -> out = render_spec R C label (linked_b w)) /\
  Grid_str py_str g w = (Raise AttributeError, w).
Proof.
  intros HR HC Htop. cbv zeta. split; [|split; [|split; [|split; [|split]]]].
  - unfold set_markup, new_grid_obj. simpl. by apply Grid_str_run.
  - unfold render_spec. eauto.
  - intros x Hx. rewrite center3_length. lia.
  - intros x Hx. by apply center3_long.
  - intros Hsym. apply render_spec_ext. intros a b. by apply linked_b_sym.
  - by apply Grid_str_no_markup.
Qed.

(** ** Concrete worlds *)

Example Grid_init_1_2 : fst (Grid_init 1 2 world0) = Ok grid12.
Proof. vm_compute. reflexivity. Qed.

(** A freshly built grid in an otherwise empty store has no link. *)
Lemma grid_built_symmetric R C g w : grid_built R C ∅ g w -> links_symmetric w.
Proof.
  intros [_ Hheap] a b (c & Ha & Hl). rewrite Hheap in Ha.
  case_decide; [|done]. injection Ha as <-. simpl in Hl.
  rewrite lookup_empty in Hl. by destruct Hl.
Qed.

Lemma w_fresh12_built : grid_built 1 2 ∅ grid12 w_fresh12.
Proof.
  destruct (Grid_init_spec 1 2 ∅ ltac:(lia) ltac:(lia) world0 eq_refl)
    as (g & w1 & Hrun & Hbuilt).
  unfold w_fresh12. rewrite Hrun. simpl.
  pose proof Hbuilt as [-> _]. exact Hbuilt.
Qed.

Lemma w_pair_topology : grid_topology 1 2 w_pair.
Proof.
  eapply grid_topology_preserved; [apply preserves_link|].
  eapply grid_built_topology, w_fresh12_built.
Qed.

Lemma w_pair_symmetric : links_symmetric w_pair.
Proof.
  apply link_symmetric; [by vm_compute; eauto..|].
  eapply grid_built_symmetric, w_fresh12_built.
Qed.

(** What the model prints for the linked 1 x 2 grid with the label [ab]
    on its second cell. *)
Example Grid_str_pair :
  fst (Grid_str id (set_markup (new_grid_obj grid12)
                               (Markup_setitem (Markup_init grid12 " ") (0, 1) "ab"))
                w_pair)
  = Ok ("+---+---+" +:+ nl +:+ "|    ab |" +:+ nl +:+ "+---+---+" +:+ nl).
Proof. vm_compute. reflexivity. Qed.

(** ** Witnesses and counterexamples *)

(** The theorem of C7 at the two linked cells of the 1 x 2 grid. *)
Lemma link_unlink_round_trip_witness :
  let r1 := unlink (0, 0) (Some (0, 1)) true w_pair in
  let r2 := link (0, 0) (Some (0, 1)) true (snd r1) in
  (fst r1 = Ok tt /\
   fst (is_linked (0, 0) (Some (0, 1)) (snd r1)) = Ok false /\
   fst (is_linked (0, 1) (Some (0, 0)) (snd r1)) = Ok false /\
   fst r2 = Ok tt /\
   fst (is_linked (0, 0) (Some (0, 1)) (snd r2)) = Ok true /\
   fst (is_linked (0, 1) (Some (0, 0)) (snd r2)) = Ok true) /\
  links_symmetric (snd (link (0, 0) (Some (0, 1)) true w_pair)) /\
  links_symmetric (snd (unlink (0, 0) (Some (0, 1)) true w_pair)).
Proof.
  destruct (link_unlink_round_trip w_pair (0, 0) (0, 1)) as [Hrt Hsym].
  - vm_compute. eauto.
  - vm_compute. eauto.
  - split.
    + apply Hrt; vm_compute; reflexivity.
    + apply Hsym, w_pair_symmetric.
Defined.

(** The theorem of C10 at the 2 x 2 grid, carved by [binary_tree] and
    with one link removed again. *)
Lemma grid_topology_invariant_witness :
  exists g w1,
    Grid_init 2 2 world0 = (Ok g, w1) /\
    num_rows g = 2 /\ num_columns g = 2 /\
    (forall r c, 0 <= r < 2 -> 0 <= c < 2 -> cell_at g r c = Ok (r, c)) /\
    let w2 := run_ops g [OpBinaryTree; OpUnlink (0, 0) (Some (0, 1)) true] w1 in
    grid_topology 2 2 w2 /\
    (forall A B cA, in_grid 2 2 A -> heap w2 !! A = Some cA ->
       (east cA = Some B -> exists cB, heap w2 !! B = Some cB /\ west cB = Some A) /\
       (north cA = Some B -> exists cB, heap w2 !! B = Some cB /\ south cB = Some A)).
Proof.
  apply (grid_topology_invariant 2 2 world0
           [OpBinaryTree; OpUnlink (0, 0) (Some (0, 1)) true]); lia.
Defined.

(** The theorem of C4 at the 2 x 3 grid and the indices (-1, 1). *)
Lemma cell_at_python_indexing_witness :
  exists g w1,
    Grid_init 2 3 world0 = (Ok g, w1) /\
    (-1 < - 2 \/ 2 <= -1 \/ 1 < - 3 \/ 3 <= 1 ->
     cell_at g (-1) 1 = Raise IndexError) /\
    (0 <= -1 < 2 -> 0 <= 1 < 3 ->
     cell_at g (-1) 1 = Ok (-1, 1) /\
     exists cell, heap w1 !! (-1, 1) = Some cell /\ row cell = -1 /\ column cell = 1) /\
    (- 2 <= -1 < 2 -> - 3 <= 1 < 3 ->
     cell_at g (-1) 1 = Ok ((-1) mod 2, 1 mod 3)).
Proof. apply (cell_at_python_indexing 2 3 world0 (-1) 1); lia. Defined.

(** C4 fails as stated: on the 1 x 1 grid the pair (-1, -1) lies outside
    [0, 1) x [0, 1), and [cell_at(-1, -1)] returns the cell (0, 0). *)
Lemma cell_at_negative_index_returns :
  fst ((g <- Grid_init 1 1 ;; lift (cell_at g (-1) (-1))) world0) = Ok (0, 0).
Proof. vm_compute. reflexivity. Qed.

(** The theorem of C5 at the markup [markup_tie]. *)
Lemma Markup_max_min_first_inserted_witness :
  (exists cmax cmin,
     Markup_max markup_tie = Ok cmax /\ Markup_min markup_tie = Ok cmin /\
     first_max (dict_keys (marks markup_tie)) (Markup_getitem markup_tie) cmax /\
     first_min (dict_keys (marks markup_tie)) (Markup_getitem markup_tie) cmin) /\
  (forall cell value,
     dict_keys (marks (Markup_setitem markup_tie cell value)) =
       if decide (cell ∈ dict_keys (marks markup_tie)) then dict_keys (marks markup_tie)
       else dict_keys (marks markup_tie) ++ [cell]).
Proof. apply (Markup_max_min_first_inserted markup_tie). discriminate. Defined.

(** C5 fails as stated: with the two cells of the 1 x 2 grid tied,
    [max()] and [min()] return (0, 1), the one marked first, while the
    first of them in the row-major order of the grid is (0, 0). *)
Lemma Markup_max_tie_not_row_major :
  fst (each_cell grid12 w_fresh12) = Ok [(0, 0); (0, 1)] /\
  Markup_max markup_tie = Ok (0, 1) /\
  Markup_min markup_tie = Ok (0, 1) /\
  row_major_first_max [(0, 0); (0, 1)] markup_tie = Some (0, 0).
Proof. vm_compute. repeat split. Qed.

(** The theorem of C8 at the linked 1 x 2 grid with one labelled cell. *)
Lemma Grid_str_format_witness :
  let mk := Markup_setitem (Markup_init grid12 " ") (0, 1) "ab" in
  let g := new_grid_obj (mkGrid 1 2 (full_grid 1 2)) in
  let label := fun x => id (Markup_getitem mk x) in
  let out := render_spec 1 2 label (fun a b => linked_b w_pair b a) in
  Grid_str id (set_markup g mk) w_pair = (Ok out, w_pair) /\
  (exists rest, out = ("+" +:+ str_repeat "---+" 2 +:+ nl) +:+ rest) /\
  (forall x, (String.length (label x) <= 3)%nat ->
             String.length (center3 (label x)) = 3%nat) /\
  (forall x, (3 <= String.length (label x))%nat -> center3 (label x) = label x) /\
  (links_symmetric w_pair -> out = render_spec 1 2 label (linked_b w_pair)) /\
  Grid_str id g w_pair = (Raise AttributeError, w_pair).
Proof.
  apply (Grid_str_format id 1 2 w_pair
           (Markup_setitem (Markup_init grid12 " ") (0, 1) "ab"));
    [lia|lia|apply w_pair_topology].
Defined.

(** C8 fails as stated: on a grid that was given no markup, [__str__]
    raises AttributeError where the claim has blank labels. *)
Lemma Grid_str_without_markup_raises :
  fst ((g <- Grid_init 1 1 ;; Grid_str id (new_grid_obj g)) world0)
  = Raise AttributeError.
Proof. vm_compute. reflexivity. Qed.

(** ** Where the code falls short of its documentation *)

Lemma link_count_run w r c :
  heap w !! r = Some c -> link_count r w = (Ok (Z.of_nat (size (links c))), w).
Proof.
  intros Hr. unfold link_count, all_links, bind, get_cell, ret. rewrite Hr.
  simpl. by rewrite length_fmap, length_map_to_list.
Qed.

(** C1 on the code.  [recursive_backtracker] is a stub: on the grid
    [Grid(R, C)] builds it returns at once and every cell still has no
    link, so the grid has 0 links where a spanning tree has R*C - 1. *)
Theorem recursive_backtracker_links_nothing (R C : Z) (w : World)
    (start_cell : option Ref) :
  0 < R -> 0 < C ->
  exists g w1,
    Grid_init R C w = (Ok g, w1) /\
    recursive_backtracker g start_cell w1 = (Ok tt, w1) /\
    forall r c, 0 <= r < R -> 0 <= c < C -> link_count (r, c) w1 = (Ok 0, w1).
Proof.
  intros HR HC.
  destruct (Grid_init_spec R C (heap w) HR HC w eq_refl) as (g & w1 & Hrun & Hbuilt).
  exists g, w1. split; [done|]. split; [done|].
  intros r c Hr Hc. destruct Hbuilt as [_ Hheap].
  rewrite (link_count_run w1 (r, c) (wired R C r c)); [done|].
  rewrite Hheap. rewrite decide_True; [done|]. unfold in_grid. simpl. lia.
Qed.

(** The theorem above at the 2 x 2 grid. *)
Lemma recursive_backtracker_links_nothing_witness :
  exists g w1,
    Grid_init 2 2 world0 = (Ok g, w1) /\
    recursive_backtracker g None w1 = (Ok tt, w1) /\
    forall r c, 0 <= r < 2 -> 0 <= c < 2 -> link_count (r, c) w1 = (Ok 0, w1).
Proof. apply (recursive_backtracker_links_nothing 2 2 world0 None); lia. Defined.

(** On a 3 x 3 grid and the sample draws the four generators that have a
    body carve 8 links each; [recursive_backtracker] carves none. *)
Example generators_on_3x3 :
  sample_3x3 binary_tree = Ok 16 /\
  sample_3x3 (fun g => sidewinder g (1 # 2)) = Ok 16 /\
  sample_3x3 (fun g => aldous_broder 100 g ;; ret tt) = Ok 16 /\
  sample_3x3 (fun g => wilson 100 g ;; ret tt) = Ok 16 /\
  sample_3x3 (fun g => recursive_backtracker g None) = Ok 0.
Proof. vm_compute. repeat split. Qed.

(** C2 on the code.  [DijkstraMarkup(grid, root)] runs the base
    constructor and stops: no entry is stored, every cell reads the
    default 0, so two linked cells are at distance difference 0, not 1,
    and [farthest_cell()] evaluates to [None]. *)
Theorem DijkstraMarkup_assigns_nothing (g : Grid) (root a b : Ref) :
  let dm := DijkstraMarkup_init g root 0 in
  marks dm = [] /\
  Markup_getitem dm a = 0 /\
  Z.abs (Markup_getitem dm a - Markup_getitem dm b) = 0 /\
  farthest_cell dm = None.
Proof. done. Qed.

(** C3 on the code.  [deadends()] asks the class [Cell] for its links
    instead of each cell of the grid: the call raises TypeError on every
    grid, in every link state, and returns no list. *)
Theorem deadends_raises_TypeError (g : Grid) (w : World) :
  deadends g w = (Raise TypeError, w).
Proof. done. Qed.

Lemma random_choice_single {A} (x : A) w :
  random_choice [x] w = (Ok x, mkWorld (heap w) (draws w) (S (pos w))).
Proof.
  unfold random_choice, bind, next_draw, lift, py_index. simpl.
  by rewrite Z.mod_1_r.
Qed.

Lemma random_cell_single R C x w :
  random_cell (mkGrid R C [[x]]) w
  = (Ok x, mkWorld (heap w) (draws w) (S (S (pos w)))).
Proof.
  unfold random_cell. simpl.
  rewrite (bind_run _ _ _ _ _ (random_choice_single [x] w)).
  by rewrite random_choice_single.
Qed.

(** C6 on the code.  On the 1 x 1 grid [binary_tree], [sidewinder],
    [aldous_broder] and [recursive_backtracker] return at once and leave
    the cell without a link; [wilson] removes the only cell from its list
    of unused cells and then asks [random.choice] for one of none, which
    raises IndexError. *)
Theorem wilson_single_cell_raises (w : World) (fuel : nat) :
  exists g w1,
    Grid_init 1 1 w = (Ok g, w1) /\
    fst (wilson fuel g w1) = Raise IndexError /\
    binary_tree g w1 = (Ok tt, w1) /\
    sidewinder g (1 # 2) w1 = (Ok tt, w1) /\
    recursive_backtracker g None w1 = (Ok tt, w1) /\
    fst (aldous_broder (S fuel) g w1) = Ok 0 /\
    fst (link_count (0, 0) (snd (aldous_broder (S fuel) g w1))) = Ok 0 /\
    fst (link_count (0, 0) w1) = Ok 0.
Proof.
  destruct (Grid_init_spec 1 1 (heap w) ltac:(lia) ltac:(lia) w eq_refl)
    as (g & w1 & Hrun & Hbuilt).
  exists g, w1. split; [done|]. destruct Hbuilt as [-> Hheap].
  assert (Hcell : heap w1 !! (0, 0) = Some (wired 1 1 0 0)).
  { rewrite Hheap. by rewrite decide_True by (unfold in_grid; simpl; lia). }
  change (full_grid 1 1) with [[(0, 0)]].
  split; [|split; [|split; [|split; [|split; [|split]]]]].
  - unfold wilson. cbn [grid all_cells fold_left app].
    rewrite (bind_run _ _ _ _ _ (random_cell_single 1 1 (0, 0) w1)).
    reflexivity.
  - reflexivity.
  - reflexivity.
  - reflexivity.
  - unfold aldous_broder. cbn [grid all_cells fold_left app].
    rewrite (bind_run _ _ _ _ _ (random_cell_single 1 1 (0, 0) w1)).
    erewrite bind_run; [|by apply setattr_run]. reflexivity.
  - unfold aldous_broder. cbn [grid all_cells fold_left app].
    rewrite (bind_run _ _ _ _ _ (random_cell_single 1 1 (0, 0) w1)).
    erewrite bind_run; [|by apply setattr_run]. simpl.
    erewrite link_count_run; [|apply lookup_insert_eq]. done.
  - by rewrite (link_count_run _ _ _ Hcell).
Qed.

(** C9 on the code.  With the run of row 1 made of the two cells (1, 0)
    and (1, 1), the step at the first cell leaves both in the run list
    and the step at the second appends (1, 1) once more, so the list
    handed to [random.choice] is (1, 0), (1, 1), (1, 1): of its three
    equally likely indices one links (1, 0) north and two link (1, 1)
    north, where a uniform choice among the cells of the run gives each
    one half.  The run restarts empty. *)
Theorem sidewinder_run_repeats_cells :
  fst ((g <- Grid_init 2 2 ;; sidewinder_step g (1 # 2) 1 [] 0) (world_of [2 ^ 52]))
  = Ok [(1, 0); (1, 1)] /\
  fst ((g <- Grid_init 2 2 ;; sidewinder_step g (1 # 2) 1 [(1, 0); (1, 1)] 1) world0)
  = Ok [] /\
  sidewinder_north_links 0 = (true, false) /\
  sidewinder_north_links 1 = (false, true) /\
  sidewinder_north_links 2 = (false, true).
Proof. vm_compute. repeat split. Qed.

(** * Further properties of the code *)

(** ** Construction, iteration and sampling *)


(** A loop that appends some items per turn and leaves the world alone. *)
Lemma fold_M_collect {A B} (body : list B -> A -> M (list B)) (f : A -> list B) l out w :
  (forall x out, x ∈ l -> body out x w = (Ok (out ++ f x), w)) ->
  fold_M body l out w = (Ok (out ++ concat (f <$> l)), w).
Proof.
  revert out. induction l as [|x l IH]; intros out Hbody; simpl.
  - unfold ret. by rewrite app_nil_r.
  - rewrite (bind_run _ _ _ _ _ (Hbody x out ltac:(left))).
    rewrite IH; [|intros y out' Hy; apply Hbody; by right].
    by rewrite app_assoc.
Qed.

Lemma concat_singletons {A B} (f : A -> B) (l : list A) :
  concat ((fun x => [f x]) <$> l) = f <$> l.
Proof.
  induction l as [|x l IH]; [done|].
  rewrite !fmap_cons. cbn [concat app]. by rewrite IH.
Qed.

Lemma each_cell_run R C w :
  0 <= R -> 0 <= C ->
  each_cell (mkGrid R C (full_grid R C)) w = (Ok (concat (full_grid R C)), w).
Proof.
  intros HR HC. unfold each_cell. simpl.
  rewrite (fold_M_collect _ (fun r => (fun c => (r, c)) <$> py_range C)); [done|].
  intros r out Hr%py_range_elem.
  rewrite (fold_M_collect _ (fun c => [(r, c)])).
  - by rewrite (concat_singletons (fun c => (r, c))).
  - intros c out' Hc%py_range_elem. unfold cell_at.
    by rewrite (bind_run _ _ _ _ _ (f_equal (fun r => (r, w)) (grid_at_full_in R C r c Hr Hc))).
Qed.

Lemma full_grid_snoc (n : nat) C :
  full_grid (Z.of_nat (S n)) C =
    full_grid (Z.of_nat n) C ++ [(fun c => (Z.of_nat n, c)) <$> py_range C].
Proof.
  unfold full_grid. replace (Z.of_nat (S n)) with (Z.of_nat n + 1) by lia.
  by rewrite py_range_snoc, fmap_app by lia.
Qed.

Lemma full_grid_concat_length (n : nat) C :
  0 <= C -> length (concat (full_grid (Z.of_nat n) C)) = (n * Z.to_nat C)%nat.
Proof.
  intros HC. induction n as [|n IH]; [done|].
  rewrite full_grid_snoc, concat_app, length_app, IH. simpl.
  rewrite app_nil_r, length_fmap, py_range_length. lia.
Qed.

Lemma full_grid_concat_lookup (n : nat) C r c :
  0 <= r < Z.of_nat n -> 0 <= c < C ->
  concat (full_grid (Z.of_nat n) C) !! Z.to_nat (r * C + c) = Some (r, c).
Proof.
  intros Hr Hc. induction n as [|n IH]; [lia|].
  rewrite full_grid_snoc, concat_app. simpl. rewrite app_nil_r.
  destruct (decide (r < Z.of_nat n)) as [Hlt|Hge].
  - rewrite lookup_app_l; [apply IH; lia|].
    rewrite full_grid_concat_length by lia. nia.
  - assert (r = Z.of_nat n) as -> by lia.
    rewrite lookup_app_r; rewrite full_grid_concat_length by lia; [|nia].
    rewrite list_lookup_fmap.
    replace (Z.to_nat (Z.of_nat n * C + c) - n * Z.to_nat C)%nat with (Z.to_nat c) by nia.
    by rewrite (proj2 (py_range_lookup C (Z.to_nat c) c)) by lia.
Qed.

(** X2.  On the grid [Grid(R, C)] builds, [each_cell()] yields every
    cell exactly once, in row-major order: R * C cells, the cell (r, c)
    at position r * C + c; it reads no cell and changes nothing. *)
Theorem each_cell_row_major (R C : Z) (w : World) :
  0 < R -> 0 < C ->
  exists g w1,
    Grid_init R C w = (Ok g, w1) /\
    forall w', exists cells,
      each_cell g w' = (Ok cells, w') /\
      Z.of_nat (length cells) = Grid_size g /\
      (forall r c, 0 <= r < R -> 0 <= c < C ->
                   cells !! Z.to_nat (r * C + c) = Some (r, c)) /\
      NoDup cells /\
      (forall x, x ∈ cells <-> in_grid R C x).
Proof.
  intros HR HC.
  destruct (Grid_init_spec R C (heap w) HR HC w eq_refl) as (g & w1 & Hrun & Hbuilt).
  exists g, w1. split; [done|]. destruct Hbuilt as [-> _]. intros w'.
  exists (concat (full_grid R C)). split; [apply each_cell_run; lia|].
  assert (Hlen : length (concat (full_grid R C)) = (Z.to_nat R * Z.to_nat C)%nat).
  { rewrite <- (Z2Nat.id R) at 1 by lia. apply full_grid_concat_length. lia. }
  assert (Hlook : forall r c, 0 <= r < R -> 0 <= c < C ->
            concat (full_grid R C) !! Z.to_nat (r * C + c) = Some (r, c)).
  { intros r c Hr Hc. rewrite <- (Z2Nat.id R) at 1 by lia.
    apply full_grid_concat_lookup; lia. }
  assert (Hinv : forall i x, concat (full_grid R C) !! i = Some x ->
            in_grid R C x /\ i = Z.to_nat (x.1 * C + x.2)).
  { intros i x Hi. pose proof (lookup_lt_Some _ _ _ Hi) as Hlt. rewrite Hlen in Hlt.
    set (r := Z.of_nat i / C). set (c := Z.of_nat i mod C).
    assert (Z.of_nat i = r * C + c) by (subst r c; rewrite Z.mul_comm; apply Z.div_mod; lia).
    assert (0 <= c < C) by (subst c; apply Z.mod_pos_bound; lia).
    assert (0 <= r) by (subst r; apply Z.div_pos; lia).
    assert (r < R) by nia.
    assert (i = Z.to_nat (r * C + c)) as Hi' by lia.
    rewrite Hi' in Hi. rewrite Hlook in Hi by lia. injection Hi as <-.
    split; [unfold in_grid; simpl; lia|done]. }
  split; [unfold Grid_size; simpl; rewrite Hlen; nia|]. split; [done|]. split.
  - apply NoDup_alt. intros i j x Hi Hj.
    apply Hinv in Hi as [_ ->]. by apply Hinv in Hj as [_ ->].
  - intros x. split.
    + intros [i Hi]%list_elem_of_lookup. by apply Hinv in Hi as [? _].
    + intros [Hr Hc]. apply list_elem_of_lookup. destruct x as [r c]. eauto.
Qed.

(** The theorem of X2 at the 2 x 3 grid. *)
Lemma each_cell_row_major_witness :
  exists g w1,
    Grid_init 2 3 world0 = (Ok g, w1) /\
    forall w', exists cells,
      each_cell g w' = (Ok cells, w') /\
      Z.of_nat (length cells) = Grid_size g /\
      (forall r c, 0 <= r < 2 -> 0 <= c < 3 ->
                   cells !! Z.to_nat (r * 3 + c) = Some (r, c)) /\
      NoDup cells /\
      (forall x, x ∈ cells <-> in_grid 2 3 x).
Proof. apply (each_cell_row_major 2 3 world0); lia. Defined.

Lemma random_choice_tabulate {A} (f : Z -> A) n w :
  0 < n ->
  random_choice (f <$> py_range n) w =
    (Ok (f (draws w (pos w) mod n)), mkWorld (heap w) (draws w) (S (pos w))).
Proof.
  intros Hn. destruct (py_range_head n Hn) as [l Hl].
  unfold random_choice. rewrite Hl. rewrite fmap_cons. rewrite <- fmap_cons, <- Hl.
  unfold bind, next_draw, lift. simpl.
  rewrite length_fmap, py_range_length, Z2Nat.id by lia.
  rewrite py_index_tabulate by lia.
  pose proof (Z.mod_pos_bound (draws w (pos w)) n Hn).
  destruct (Z.leb_spec (- n) (draws w (pos w) mod n)); [|lia].
  destruct (Z.ltb_spec (draws w (pos w) mod n) n); [|lia]. simpl.
  by rewrite Z.mod_mod by lia.
Qed.

(** X3.  On the grid [Grid(R, C)] builds, [random_cell()] never fails
    and returns a cell of the grid: it takes two draws from the
    generator, the first picks the row (draw mod R) and the second the
    column (draw mod C), and it touches no cell. *)
Theorem random_cell_in_grid (R C : Z) (w : World) :
  0 < R -> 0 < C ->
  let g := mkGrid R C (full_grid R C) in
  let x := (draws w (pos w) mod R, draws w (S (pos w)) mod C) in
  random_cell g w = (Ok x, mkWorld (heap w) (draws w) (S (S (pos w)))) /\
  in_grid R C x /\
  cell_at g x.1 x.2 = Ok x.
Proof.
  intros HR HC. cbv zeta. split; [|split].
  - unfold random_cell, full_grid. simpl.
    rewrite (bind_run _ _ _ _ _ (random_choice_tabulate _ R w HR)).
    by rewrite random_choice_tabulate.
  - unfold in_grid. simpl.
    pose proof (Z.mod_pos_bound (draws w (pos w)) R HR).
    pose proof (Z.mod_pos_bound (draws w (S (pos w))) C HC). lia.
  - simpl. apply grid_at_full_in; apply Z.mod_pos_bound; lia.
Qed.

(** The theorem of X3 at the 2 x 3 grid with the draws 7 and 5. *)
Lemma random_cell_in_grid_witness :
  let w := world_of [7; 5] in
  let g := mkGrid 2 3 (full_grid 2 3) in
  let x := (draws w (pos w) mod 2, draws w (S (pos w)) mod 3) in
  random_cell g w = (Ok x, mkWorld (heap w) (draws w) (S (S (pos w)))) /\
  in_grid 2 3 x /\
  cell_at g x.1 x.2 = Ok x.
Proof. apply (random_cell_in_grid 2 3 (world_of [7; 5])); lia. Defined.

(** ** Neighbours *)

Lemma omap_id_four {A} (a b c d : option A) (x : A) :
  x ∈ omap id [a; b; c; d] <-> a = Some x \/ b = Some x \/ c = Some x \/ d = Some x.
Proof.
  destruct a, b, c, d; simpl;
    rewrite ?elem_of_cons, ?elem_of_nil;
    split; intros H; repeat destruct H as [H|H];
      try done; try (injection H as <-); subst; tauto.
Qed.

Lemma north_of_Some r c x :
  north_of r c = Some x <-> 0 < r /\ x.1 = r - 1 /\ x.2 = c.
Proof.
  unfold north_of. destruct x as [a b]. simpl. case_decide; split;
    try done; try lia; [intros [= <- <-]; lia|intros (_ & -> & ->); done].
Qed.

Lemma south_of_Some R r c x :
  south_of R r c = Some x <-> r + 1 < R /\ x.1 = r + 1 /\ x.2 = c.
Proof.
  unfold south_of. destruct x as [a b]. simpl. case_decide; split;
    try done; try lia; [intros [= <- <-]; lia|intros (_ & -> & ->); done].
Qed.

Lemma west_of_Some r c x :
  west_of r c = Some x <-> 0 < c /\ x.1 = r /\ x.2 = c - 1.
Proof.
  unfold west_of. destruct x as [a b]. simpl. case_decide; split;
    try done; try lia; [intros [= <- <-]; lia|intros (_ & -> & ->); done].
Qed.

Lemma east_of_Some C r c x :
  east_of C r c = Some x <-> c + 1 < C /\ x.1 = r /\ x.2 = c + 1.
Proof.
  unfold east_of. destruct x as [a b]. simpl. case_decide; split;
    try done; try lia; [intros [= <- <-]; lia|intros (_ & -> & ->); done].
Qed.

(** X4.  For a cell (r, c) of an R x C grid, [neighbors()] returns, in
    the order north, south, west, east, the cells of the grid at
    distance 1 in a row or a column, each once and never [None]: between
    zero and four cells, none only on the 1 x 1 grid; it changes
    nothing. *)
Theorem neighbors_of_grid_cell (R C : Z) (w : World) (r c : Z) :
  grid_topology R C w -> 0 <= r < R -> 0 <= c < C ->
  let l := omap id [north_of r c; south_of R r c; west_of r c; east_of C r c] in
  neighbors (r, c) w = (Ok l, w) /\
  (forall x, x ∈ l <-> in_grid R C x /\ Z.abs (x.1 - r) + Z.abs (x.2 - c) = 1) /\
  NoDup l /\
  (length l <= 4)%nat /\
  (l = [] <-> R = 1 /\ C = 1).
Proof.
  intros Htop Hr Hc. cbv zeta.
  destruct (Htop r c Hr Hc) as (cell & Hcell & _ & _ & Hn & Hs & Hw & He).
  split; [|split; [|split; [|split]]].
  - unfold neighbors, bind, get_cell. rewrite Hcell. simpl.
    rewrite Hn, Hs, Hw, He.
    by destruct (north_of r c), (south_of R r c), (west_of r c), (east_of C r c).
  - intros x. rewrite omap_id_four.
    rewrite north_of_Some, south_of_Some, west_of_Some, east_of_Some.
    unfold in_grid. lia.
  - unfold north_of, south_of, west_of, east_of.
    repeat case_decide; simpl;
      repeat (apply NoDup_cons_2;
              [intros Hin; rewrite ?elem_of_cons, ?elem_of_nil in Hin;
               repeat destruct Hin as [Hin|Hin]; try done;
               injection Hin; lia|]);
      apply NoDup_nil_2.
  - unfold north_of, south_of, west_of, east_of.
    repeat case_decide; simpl; lia.
  - unfold north_of, south_of, west_of, east_of.
    repeat case_decide; simpl; split; try done; try lia; intros [? ?]; lia.
Qed.

(** The theorem of X4 at a corner of the linked 1 x 2 grid. *)
Lemma neighbors_of_grid_cell_witness :
  let l := omap id [north_of 0 0; south_of 1 0 0; west_of 0 0; east_of 2 0 0] in
  neighbors (0, 0) w_pair = (Ok l, w_pair) /\
  (forall x, x ∈ l <-> in_grid 1 2 x /\ Z.abs (x.1 - 0) + Z.abs (x.2 - 0) = 1) /\
  NoDup l /\
  (length l <= 4)%nat /\
  (l = [] <-> 1 = 1 /\ 2 = 1).
Proof.
  apply (neighbors_of_grid_cell 1 2 w_pair 0 0); [apply w_pair_topology|lia|lia].
Defined.

(** ** Linking and unlinking *)

Lemma set_links_same c : set_links c (links c) = c.
Proof. by destruct c. Qed.

Lemma links_setitem_noop w a b c :
  heap w !! a = Some c -> links c !! b = Some true -> links_setitem a b w = (Ok tt, w).
Proof.
  intros Ha Hb. rewrite (links_setitem_run _ _ _ _ Ha).
  rewrite (insert_id (links c)) by done. rewrite set_links_same.
  rewrite insert_id by done. by destruct w.
Qed.

(** The store after a bidirectional [link] of two cells of the store. *)
Lemma link_store w a b ca cb :
  heap w !! a = Some ca -> heap w !! b = Some cb ->
  exists h,
    link a (Some b) true w = (Ok tt, mkWorld h (draws w) (pos w)) /\
    h !! a = Some (set_links ca (<[b := true]> (links ca))) /\
    h !! b = Some (set_links cb (<[a := true]> (links cb))) /\
    (forall x, x <> a -> x <> b -> h !! x = heap w !! x).
Proof.
  intros Ha Hb. rewrite link_bidirectional, (links_setitem_run _ _ _ _ Ha).
  destruct (decide (a = b)) as [<-|Hne].
  - rewrite Ha in Hb. injection Hb as <-.
    erewrite links_setitem_run; [|simpl; apply lookup_insert_eq]. simpl.
    eexists. split; [done|]. rewrite insert_insert_eq, insert_insert_eq.
    rewrite lookup_insert_eq. split; [done|]. split; [done|].
    intros x Hx _. by rewrite lookup_insert_ne.
  - erewrite links_setitem_run;
      [|simpl; rewrite lookup_insert_ne by done; exact Hb]. simpl.
    eexists. split; [done|]. rewrite lookup_insert_eq.
    rewrite lookup_insert_ne, lookup_insert_eq by done.
    split; [done|]. split; [done|].
    intros x Hxa Hxb. by rewrite !lookup_insert_ne.
Qed.

(** X5.  [link(A, B)] on two cells of the store returns and adds the
    link in both directions and no other; the number of links of A grows
    by one, or stays when A was linked to B already; linking again
    changes nothing.  With [bidirectional=False] only the link from A to
    B is added.  Linking to [None] (a neighbour that does not exist)
    raises AssertionError and changes nothing. *)
Theorem link_effect (w : World) (a b : Ref) :
  is_Some (heap w !! a) -> is_Some (heap w !! b) ->
  let w1 := snd (link a (Some b) true w) in
  fst (link a (Some b) true w) = Ok tt /\
  (forall x y, linked w1 x y <-> (x = a /\ y = b) \/ (x = b /\ y = a) \/ linked w x y) /\
  (exists n, fst (link_count a w) = Ok n /\
             fst (link_count a w1) = Ok (if linked_b w a b then n else n + 1)) /\
  link a (Some b) true w1 = (Ok tt, w1) /\
  (forall x y, linked (snd (link a (Some b) false w)) x y <->
               (x = a /\ y = b) \/ linked w x y) /\
  (forall bd, link a None bd w = (Raise AssertionError, w)).
Proof.
  intros Ha Hb. cbv zeta.
  destruct (linked_link w a b Ha Hb) as (Hok & _ & Hl).
  destruct Ha as [ca Hca], Hb as [cb Hcb].
  destruct (link_store w a b ca cb Hca Hcb) as (h & Hrun & Hha & Hhb & Hother).
  split; [done|]. split; [done|]. split; [|split; [|split]].
  - exists (Z.of_nat (size (links ca))).
    rewrite (link_count_run _ _ _ Hca). split; [done|].
    rewrite Hrun. simpl. erewrite link_count_run; [|exact Hha]. simpl.
    unfold linked_b. rewrite Hca. f_equal.
    destruct (links ca !! b) as [v|] eqn:Hv.
    + rewrite bool_decide_eq_true_2 by eauto.
      apply (f_equal Z.of_nat). rewrite <- !size_dom, dom_insert_L.
      apply elem_of_dom_2 in Hv.
      by rewrite (subseteq_union_1_L {[b]} (dom (links ca)))
        by by apply singleton_subseteq_l.
    + rewrite bool_decide_eq_false_2 by (intros [? ?]; done).
      rewrite map_size_insert_None by done. lia.
  - rewrite Hrun. simpl. rewrite link_bidirectional.
    erewrite (links_setitem_noop _ a b); [|exact Hha|simpl; apply lookup_insert_eq].
    erewrite (links_setitem_noop _ b a); [done|exact Hhb|simpl; apply lookup_insert_eq].
  - intros x y. unfold link, bind, assert_cell, ret. simpl.
    pose proof (linked_setitem w a b x y ltac:(eauto)) as H.
    destruct (links_setitem a b w) as [[[]| | |] w']; simpl in *; exact H.
  - intros bd. reflexivity.
Qed.

(** The theorem of X5 at the two cells of the fresh 1 x 2 grid. *)
Lemma link_effect_witness :
  let w := w_fresh12 in
  let a := (0, 0) in
  let b := (0, 1) in
  let w1 := snd (link a (Some b) true w) in
  fst (link a (Some b) true w) = Ok tt /\
  (forall x y, linked w1 x y <-> (x = a /\ y = b) \/ (x = b /\ y = a) \/ linked w x y) /\
  (exists n, fst (link_count a w) = Ok n /\
             fst (link_count a w1) = Ok (if linked_b w a b then n else n + 1)) /\
  link a (Some b) true w1 = (Ok tt, w1) /\
  (forall x y, linked (snd (link a (Some b) false w)) x y <->
               (x = a /\ y = b) \/ linked w x y) /\
  (forall bd, link a None bd w = (Raise AssertionError, w)).
Proof.
  apply (link_effect w_fresh12 (0, 0) (0, 1)); vm_compute; eauto.
Defined.

(** X6.  [unlink(A, B)] when A holds no link to B raises KeyError and
    changes nothing.  When A is linked to B but B not to A, the
    bidirectional call removes the link from A to B and then raises
    KeyError: the deletion done before the error stays.  With
    [bidirectional=False] only the link from A to B is removed.
    Unlinking [None] raises AssertionError. *)
Theorem unlink_errors (w : World) (a b : Ref) :
  is_Some (heap w !! a) ->
  (~ linked w a b -> forall bd, unlink a (Some b) bd w = (Raise KeyError, w)) /\
  (linked w a b -> a <> b -> is_Some (heap w !! b) -> ~ linked w b a ->
   fst (unlink a (Some b) true w) = Raise KeyError /\
   forall x y, linked (snd (unlink a (Some b) true w)) x y <->
               linked w x y /\ ~ (x = a /\ y = b)) /\
  (linked w a b ->
   fst (unlink a (Some b) false w) = Ok tt /\
   forall x y, linked (snd (unlink a (Some b) false w)) x y <->
               linked w x y /\ ~ (x = a /\ y = b)) /\
  (forall bd, unlink a None bd w = (Raise AssertionError, w)).
Proof.
  intros [ca Hca]. split; [|split; [|split]].
  - intros Hnl bd. unfold unlink, bind, assert_cell, ret.
    rewrite (links_delitem_absent _ _ _ _ Hca); [done|].
    destruct (links ca !! b) eqn:Hb; [|done]. exfalso. apply Hnl. exists ca. eauto.
  - intros Hab Hne [cb Hcb] Hnba.
    pose proof (linked_delitem w a b) as Hl.
    rewrite unlink_bidirectional.
    destruct Hab as (ca' & Hca' & [v Hv]).
    rewrite (links_delitem_run _ _ _ _ _ Hca' Hv) in *. simpl in Hl.
    assert (Hab : linked w a b) by (exists ca'; eauto).
    erewrite links_delitem_absent;
      [|simpl; rewrite lookup_insert_ne by done; exact Hcb|].
    + simpl. split; [done|]. intros x y. by apply Hl.
    + destruct (links cb !! a) eqn:Ha; [|done]. exfalso. apply Hnba. exists cb. eauto.
  - intros Hab. pose proof (linked_delitem w a b) as Hl.
    unfold unlink, bind, assert_cell, ret.
    destruct Hab as (ca' & Hca' & [v Hv]).
    rewrite (links_delitem_run _ _ _ _ _ Hca' Hv) in *. simpl in *.
    split; [done|]. intros x y. apply Hl. exists ca'. eauto.
  - intros bd. reflexivity.
Qed.

(** The theorem of X6 at the two cells of the fresh 1 x 2 grid. *)
Lemma unlink_errors_witness :
  let w := w_fresh12 in
  let a := (0, 0) in
  let b := (0, 1) in
  (~ linked w a b -> forall bd, unlink a (Some b) bd w = (Raise KeyError, w)) /\
  (linked w a b -> a <> b -> is_Some (heap w !! b) -> ~ linked w b a ->
   fst (unlink a (Some b) true w) = Raise KeyError /\
   forall x y, linked (snd (unlink a (Some b) true w)) x y <->
               linked w x y /\ ~ (x = a /\ y = b)) /\
  (linked w a b ->
   fst (unlink a (Some b) false w) = Ok tt /\
   forall x y, linked (snd (unlink a (Some b) false w)) x y <->
               linked w x y /\ ~ (x = a /\ y = b)) /\
  (forall bd, unlink a None bd w = (Raise AssertionError, w)).
Proof. apply (unlink_errors w_fresh12 (0, 0) (0, 1)). vm_compute. eauto. Defined.

(** ** Markups *)

Lemma dict_get_set_eq {V} (k : Ref) (v : V) d dflt :
  dict_get k (dict_set k v d) dflt = v.
Proof.
  induction d as [|[k' v'] d IH]; simpl.
  - by rewrite decide_True.
  - destruct (decide (k = k')) as [->|Hne]; simpl.
    + by rewrite decide_True.
    + by rewrite decide_False.
Qed.

Lemma dict_get_set_ne {V} (k k0 : Ref) (v : V) d dflt :
  k0 <> k -> dict_get k0 (dict_set k v d) dflt = dict_get k0 d dflt.
Proof.
  intros Hne. induction d as [|[k' v'] d IH]; simpl.
  - by rewrite decide_False.
  - destruct (decide (k = k')) as [->|Hne']; simpl.
    + by rewrite !decide_False.
    + destruct (decide (k0 = k')); [done|apply IH].
Qed.

Lemma dict_get_opt_set_eq {V} (k : Ref) (v : V) d :
  dict_get_opt k (dict_set k v d) = Some v.
Proof.
  induction d as [|[k' v'] d IH]; simpl.
  - by rewrite decide_True.
  - destruct (decide (k = k')) as [->|Hne]; simpl.
    + by rewrite decide_True.
    + by rewrite decide_False.
Qed.

Lemma dict_get_opt_None {V} (k : Ref) (d : list (Ref * V)) :
  dict_get_opt k d = None <-> k ∉ dict_keys d.
Proof.
  induction d as [|[k' v'] d IH].
  - split; [intros _ H; by apply elem_of_nil in H|done].
  - change (dict_keys ((k', v') :: d)) with (k' :: dict_keys d). simpl.
    rewrite not_elem_of_cons. destruct (decide (k = k')) as [->|Hne].
    + split; [done|]. by intros [? _].
    + rewrite IH. tauto.
Qed.

Lemma dict_get_of_opt {V} (k : Ref) (d : list (Ref * V)) dflt :
  dict_get k d dflt = match dict_get_opt k d with Some v => v | None => dflt end.
Proof.
  induction d as [|[k' v'] d IH]; simpl; [done|].
  by destruct (decide (k = k')).
Qed.

Lemma dict_set_NoDup {V} (k : Ref) (v : V) d :
  NoDup (dict_keys d) -> NoDup (dict_keys (dict_set k v d)).
Proof.
  intros Hnd. rewrite dict_set_keys. case_decide as Hin; [done|].
  apply NoDup_app. split; [done|]. split; [|apply NoDup_singleton].
  intros x Hx Hx'. apply list_elem_of_singleton in Hx' as ->. done.
Qed.

(** X7.  A markup reads back what was set: after [m[c] = v], [m[c]] is
    [v] and every other cell reads as before; a cell that was never set
    reads the default; [reset()] makes every cell read the default
    again; a cell has at most one entry however often it is set; and on
    a markup without entries [max()] and [min()] raise ValueError. *)
Theorem Markup_set_get {V} (m : Markup V) (mz : Markup Z) (c c' : Ref) (v : V) :
  Markup_getitem (Markup_setitem m c v) c = v /\
  (c' <> c -> Markup_getitem (Markup_setitem m c v) c' = Markup_getitem m c') /\
  (c ∉ dict_keys (marks m) -> Markup_getitem m c = default m) /\
  Markup_getitem (Markup_reset m) c = default m /\
  Markup_getitem (Markup_init (m_grid m) v) c = v /\
  (NoDup (dict_keys (marks m)) -> NoDup (dict_keys (marks (Markup_setitem m c v)))) /\
  Markup_max (Markup_reset mz) = Raise ValueError /\
  Markup_min (Markup_reset mz) = Raise ValueError.
Proof.
  unfold Markup_getitem, Markup_setitem, Markup_reset, Markup_init. simpl.
  split; [apply dict_get_set_eq|]. split; [apply dict_get_set_ne|].
  split; [|split; [done|split; [done|split; [apply dict_set_NoDup|done]]]].
  intros Hc%dict_get_opt_None. by rewrite dict_get_of_opt, Hc.
Qed.

(** X8.  [get_item_at] and [set_item_at] check their indices
    themselves: outside [0, R) x [0, C), negative indices included, they
    raise AssertionError.  Within, [set_item_at(r, c, v)] sets the entry
    of the cell (r, c) and [get_item_at(r, c)] then returns [v]; for a
    cell that has no entry [get_item_at] returns [None], not the
    default of the markup. *)
Theorem item_at_bounds {V} (R C : Z) (m : Markup V) (r c : Z) (v : V) :
  0 < R -> 0 < C -> m_grid m = mkGrid R C (full_grid R C) ->
  (~ in_grid R C (r, c) ->
   get_item_at m r c = Raise AssertionError /\
   set_item_at m r c v = Raise AssertionError) /\
  (in_grid R C (r, c) ->
   set_item_at m r c v = Ok (Markup_setitem m (r, c) v) /\
   get_item_at (Markup_setitem m (r, c) v) r c = Ok (Some v) /\
   get_item_at m r c = Ok (dict_get_opt (r, c) (marks m)) /\
   ((r, c) ∉ dict_keys (marks m) -> get_item_at m r c = Ok None)).
Proof.
  intros HR HC Hg. unfold get_item_at, set_item_at, in_grid. simpl.
  rewrite Hg. simpl. split.
  - intros Hout.
    destruct (Z.leb_spec 0 r), (Z.ltb_spec r R); simpl; try done;
      destruct (Z.leb_spec 0 c), (Z.ltb_spec c C); simpl; try done; lia.
  - intros [Hr Hc]. unfold cell_at.
    destruct (Z.leb_spec 0 r); [|lia]. destruct (Z.ltb_spec r R); [|lia].
    destruct (Z.leb_spec 0 c); [|lia]. destruct (Z.ltb_spec c C); [|lia].
    simpl. rewrite grid_at_full_in by lia. simpl.
    split; [unfold Markup_setitem; by rewrite Hg|].
    split; [by rewrite dict_get_opt_set_eq|]. split; [done|].
    intros Hnone%dict_get_opt_None. by rewrite Hnone.
Qed.

(** The theorem of X8 at the markup [markup_tie] and the indices (0, -1). *)
Lemma item_at_bounds_witness :
  (~ in_grid 1 2 (0, -1) ->
   get_item_at markup_tie 0 (-1) = Raise AssertionError /\
   set_item_at markup_tie 0 (-1) 7 = Raise AssertionError) /\
  (in_grid 1 2 (0, -1) ->
   set_item_at markup_tie 0 (-1) 7 = Ok (Markup_setitem markup_tie (0, -1) 7) /\
   get_item_at (Markup_setitem markup_tie (0, -1) 7) 0 (-1) = Ok (Some 7) /\
   get_item_at markup_tie 0 (-1) = Ok (dict_get_opt (0, -1) (marks markup_tie)) /\
   ((0, -1) ∉ dict_keys (marks markup_tie) -> get_item_at markup_tie 0 (-1) = Ok None)).
Proof. apply (item_at_bounds 1 2 markup_tie 0 (-1) 7); [lia|lia|reflexivity]. Defined.

Lemma random_cell_run R C w :
  0 < R -> 0 < C ->
  exists x, random_cell (mkGrid R C (full_grid R C)) w
            = (Ok x, mkWorld (heap w) (draws w) (S (S (pos w)))) /\
            in_grid R C x.
Proof.
  intros HR HC.
  exists (draws w (pos w) mod R, draws w (S (pos w)) mod C). split.
  - unfold random_cell, full_grid. simpl.
    rewrite (bind_run _ _ _ _ _ (random_choice_tabulate _ R w HR)).
    by rewrite random_choice_tabulate.
  - unfold in_grid. simpl.
    pose proof (Z.mod_pos_bound (draws w (pos w)) R HR).
    pose proof (Z.mod_pos_bound (draws w (S (pos w))) C HC). lia.
Qed.

(** X9.  [LongestPathMarkup(grid)] never returns a markup: after
    [random_cell()] has taken its two draws, [dm.farthest_cell()] yields
    [None] and unpacking it raises TypeError; no cell is touched.
    [ShortestPathMarkup] marks no cell: whatever the markers, every cell
    reads 0. *)
Theorem LongestPathMarkup_raises (R C : Z) (w : World)
    (path_marker non_path_marker : string) (start goal x : Ref) :
  0 < R -> 0 < C ->
  let g := mkGrid R C (full_grid R C) in
  LongestPathMarkup_init g path_marker non_path_marker w
  = (Raise TypeError, mkWorld (heap w) (draws w) (S (S (pos w)))) /\
  marks (ShortestPathMarkup_init g start goal path_marker non_path_marker) = [] /\
  Markup_getitem (ShortestPathMarkup_init g start goal path_marker non_path_marker) x = 0.
Proof.
  intros HR HC. cbv zeta. split; [|done].
  unfold LongestPathMarkup_init.
  destruct (random_cell_run R C w HR HC) as (start_cell & Hrun & _).
  by rewrite (bind_run _ _ _ _ _ Hrun).
Qed.

(** The theorem of X9 at the 1 x 2 grid. *)
Lemma LongestPathMarkup_raises_witness :
  let g := mkGrid 1 2 (full_grid 1 2) in
  LongestPathMarkup_init g "*" " " world0
  = (Raise TypeError, mkWorld (heap world0) (draws world0) (S (S (pos world0)))) /\
  marks (ShortestPathMarkup_init g (0, 0) (0, 1) "*" " ") = [] /\
  Markup_getitem (ShortestPathMarkup_init g (0, 0) (0, 1) "*" " ") (0, 1) = 0.
Proof.
  apply (LongestPathMarkup_raises 1 2 world0 "*" " " (0, 0) (0, 1) (0, 1)); lia.
Defined.

(** ** Colours *)

(** A loop of the colour code with an invariant indexed by the number of
    items done. *)
Lemma color_fold_inv {A B} (I : nat -> B -> Prop) (body : B -> A -> ColorRes B)
    (l : list A) (acc0 : B) :
  (forall i x acc, l !! i = Some x -> I i acc ->
     exists acc', body acc x = CRes (Ok acc') /\ I (S i) acc') ->
  I 0%nat acc0 ->
  exists acc, color_fold body l acc0 = CRes (Ok acc) /\ I (length l) acc.
Proof.
  revert I acc0. induction l as [|x l IH]; intros I acc0 Hbody H0.
  - by exists acc0.
  - destruct (Hbody 0%nat x acc0 eq_refl H0) as (acc1 & Hrun & H1).
    simpl. rewrite Hrun. simpl. apply (IH (fun i => I (S i))); [|done].
    intros i y acc Hy. by apply (Hbody (S i)).
Qed.

Section ColourProofs.
  Context {F : Type}.
  Variable true_div : Z -> Z -> F.
  Variable int_times : Z -> F -> F.
  Variable py_round : F -> Z.
  Variables (R C : Z) (self0 : ColorizedMarkup) (markup : Markup Z) (max_value : Z).
  Hypothesis HR : 0 < R.
  Hypothesis HC : 0 < C.
  Hypothesis Hgrid : m_grid (cm_markup self0) = mkGrid R C (full_grid R C).
  Hypothesis Hmax : max_value <> 0.

Lemma colorize_cell_run k j self :
  colouring true_div int_times py_round C self0 markup max_value k j self -> 0 <= k -> 0 <= j < C ->
  exists self',
    colorize_cell F true_div int_times py_round markup max_value self (k, j)
    = CRes (Ok self') /\
    colouring true_div int_times py_round C self0 markup max_value k (j + 1) self'.
Proof.
  intros (Hch & Hg & Hget) Hk Hj. unfold colorize_cell.
  destruct (Z.eqb_spec max_value 0) as [|_]; [done|].
  eexists. split; [done|]. split; [done|]. split; [done|]. simpl.
  intros x. unfold Markup_getitem, Markup_setitem. simpl.
  destruct (decide (x = (k, j))) as [->|Hne].
  - rewrite dict_get_set_eq. rewrite decide_True by (unfold before; simpl; lia).
    rewrite Hch. reflexivity.
  - rewrite dict_get_set_ne by done. fold (Markup_getitem (cm_markup self) x).
    rewrite Hget. destruct x as [r c]. unfold before. simpl.
    assert (~ (r = k /\ c = j)) by (intros [-> ->]; done).
    repeat case_decide; done || lia.
Qed.

Lemma intensity_loop_run :
  exists self',
    color_fold (fun self row =>
                  color_fold (fun self col =>
                                color_bind
                                  (CRes (cell_at (m_grid (cm_markup self0)) row col))
                                  (colorize_cell F true_div int_times py_round
                                                 markup max_value self))
                             (py_range C) self)
               (py_range R) self0
    = CRes (Ok self') /\
    colouring true_div int_times py_round C self0 markup max_value R 0 self'.
Proof.
  destruct (color_fold_inv (fun i self => colouring true_div int_times py_round C self0 markup max_value (Z.of_nat i) 0 self)
              (fun self row =>
                 color_fold (fun self col =>
                               color_bind
                                 (CRes (cell_at (m_grid (cm_markup self0)) row col))
                                 (colorize_cell F true_div int_times py_round
                                                markup max_value self))
                            (py_range C) self)
              (py_range R) self0) as (self' & Hrun & Hinv).
  - intros i r self Hr Hinv. apply py_range_lookup in Hr as [-> Hi].
    destruct (color_fold_inv (fun j self => colouring true_div int_times py_round C self0 markup max_value (Z.of_nat i) (Z.of_nat j) self)
                (fun self col =>
                   color_bind
                     (CRes (cell_at (m_grid (cm_markup self0)) (Z.of_nat i) col))
                     (colorize_cell F true_div int_times py_round markup max_value self))
                (py_range C) self) as (self' & Hrun & Hinv').
    + intros j c acc Hc Hacc. apply py_range_lookup in Hc as [-> Hj].
      rewrite Hgrid. unfold cell_at. rewrite grid_at_full_in by lia. simpl.
      replace (Z.of_nat (S j)) with (Z.of_nat j + 1) by lia.
      apply colorize_cell_run; [done|lia|lia].
    + done.
    + exists self'. split; [done|]. rewrite py_range_length in Hinv'.
      destruct Hinv' as (Hch & Hg & Hget). split; [done|]. split; [done|].
      intros x. rewrite Hget. destruct x as [r c]. unfold before. simpl.
      repeat case_decide; done || lia.
  - split; [done|]. split; [done|]. intros x.
    rewrite decide_False; [done|]. unfold before. lia.
  - exists self'. split; [done|]. rewrite py_range_length, Z2Nat.id in Hinv by lia. done.
Qed.

End ColourProofs.





(** ** The size of the rendering *)

Lemma concat_str_length_const {A} (f : A -> string) (l : list A) (n : nat) :
  (forall x, x ∈ l -> String.length (f x) = n) ->
  String.length (concat_str (f <$> l)) = (n * length l)%nat.
Proof.
  induction l as [|x l IH]; intros Hf; [simpl; lia|].
  rewrite fmap_cons. unfold concat_str in *. cbn [foldr].
  rewrite str_app_length, IH by (intros y Hy; apply Hf; by right).
  rewrite (Hf x) by (by left). simpl. lia.
Qed.

Lemma str_repeat_length (s : string) (n : Z) :
  String.length (str_repeat s n) = (String.length s * Z.to_nat n)%nat.
Proof.
  unfold str_repeat. induction (Z.to_nat n) as [|k IH]; [simpl; lia|].
  cbn [replicate foldr]. rewrite str_app_length, IH. lia.
Qed.

(** X12.  On a grid of R x C cells with a markup whose labels have at
    most three characters, [__str__] returns a text of 2R + 1 lines of
    4C + 1 characters, each closed by a newline, in every link state:
    (2R + 1)(4C + 2) characters. *)
Theorem Grid_str_length {V : Type} (py_str : V -> string) (R C : Z) (w : World)
    (mk : Markup V) :
  0 < R -> 0 < C -> grid_topology R C w ->
  (forall x, in_grid R C x -> (String.length (py_str (Markup_getitem mk x)) <= 3)%nat) ->
  exists out,
    Grid_str py_str (mkGridObj (mkGrid R C (full_grid R C)) (Some mk)) w = (Ok out, w) /\
    Z.of_nat (String.length out) = (2 * R + 1) * (4 * C + 2).
Proof.
  intros HR HC Htop Hlab. eexists. split; [by apply Grid_str_run|].
  unfold render_spec.
  rewrite str_app_length, (concat_str_length_const _ _ (2 * (4 * Z.to_nat C + 2))%nat).
  - rewrite !str_app_length, str_repeat_length, py_range_length. simpl String.length. lia.
  - intros r Hr%py_range_elem.
    rewrite !str_app_length.
    rewrite (concat_str_length_const _ _ 4%nat), (concat_str_length_const _ _ 4%nat).
    + rewrite py_range_length. simpl String.length. lia.
    + intros c _. by destruct (_ && _).
    + intros c Hc%py_range_elem. rewrite str_app_length, center3_length.
      specialize (Hlab (r, c) (conj Hr Hc)). simpl in Hlab.
      assert (Hone : forall b : bool, String.length (if b then " " else "|") = 1%nat)
        by (by intros []).
      rewrite Hone. lia.
Qed.

(** The theorem of X12 on the linked 1 x 2 grid with a markup of
    integers, each shown as the blank label. *)
Lemma Grid_str_length_witness :
  exists out,
    Grid_str (fun _ : Z => " ") (mkGridObj (mkGrid 1 2 (full_grid 1 2)) (Some markup_tie))
             w_pair = (Ok out, w_pair) /\
    Z.of_nat (String.length out) = (2 * 1 + 1) * (4 * 2 + 2).
Proof.
  apply (Grid_str_length (fun _ : Z => " ") 1 2 w_pair markup_tie);
    [lia|lia|exact w_pair_topology|intros x _; simpl; lia].
Defined.

(** ** [binary_tree] carves a spanning tree *)

Lemma py_range_NoDup n : NoDup (py_range n).
Proof.
  unfold py_range, py_range2. apply NoDup_fmap_2; [|apply NoDup_seq].
  intros a b. lia.
Qed.

Lemma full_grid_concat_elem (n : nat) C x :
  x ∈ concat (full_grid (Z.of_nat n) C) <-> in_grid (Z.of_nat n) C x.
Proof.
  induction n as [|n IH].
  - unfold in_grid. simpl. split; [by intros ?%elem_of_nil|lia].
  - rewrite full_grid_snoc, concat_app, elem_of_app, IH. simpl. rewrite app_nil_r.
    rewrite list_elem_of_fmap. unfold in_grid. destruct x as [r c]. simpl. split.
    + intros [?|(c' & [= -> ->] & Hc%py_range_elem)]; lia.
    + intros [Hr Hc]. destruct (decide (r < Z.of_nat n)); [left; lia|right].
      exists c. split; [f_equal; lia|by apply py_range_elem].
Qed.

Lemma full_grid_concat_NoDup (n : nat) C : NoDup (concat (full_grid (Z.of_nat n) C)).
Proof.
  induction n as [|n IH]; [apply NoDup_nil_2|].
  rewrite full_grid_snoc, concat_app. simpl. rewrite app_nil_r.
  apply NoDup_app. split; [done|]. split.
  - intros x Hx%full_grid_concat_elem (c & -> & _)%list_elem_of_fmap.
    unfold in_grid in Hx. simpl in Hx. lia.
  - apply NoDup_fmap_2; [|apply py_range_NoDup]. by intros a b [= ->].
Qed.

Lemma links_total_cons w x cells :
  links_total w (x :: cells) = cell_links w x + links_total w cells.
Proof. reflexivity. Qed.

(** The sum of the link counts, as the code computes it. *)
Lemma link_count_fold w cells acc :
  (forall x, x ∈ cells -> is_Some (heap w !! x)) ->
  fold_M (fun n c => k <- link_count c ;; ret (n + k)) cells acc w
  = (Ok (acc + links_total w cells), w).
Proof.
  revert acc. induction cells as [|x cells IH]; intros acc Hin.
  - simpl. unfold ret. do 2 f_equal. lia.
  - destruct (Hin x ltac:(left)) as [c Hc]. cbn [fold_M].
    rewrite (bind_run _ _ _ _ _
               (bind_run _ _ _ _ _ (link_count_run w x c Hc))).
    rewrite IH by (intros y Hy; apply Hin; by right).
    rewrite links_total_cons. unfold cell_links. rewrite Hc.
    do 2 f_equal. lia.
Qed.

Lemma link_count_sum_run R C w :
  0 <= R -> 0 <= C -> grid_topology R C w ->
  link_count_sum (mkGrid R C (full_grid R C)) w
  = (Ok (links_total w (concat (full_grid R C))), w).
Proof.
  intros HR HC Htop. unfold link_count_sum.
  rewrite (bind_run _ _ _ _ _ (each_cell_run R C w HR HC)).
  rewrite link_count_fold; [done|].
  intros [r c] Hx. rewrite <- (Z2Nat.id R) in Hx by done.
  apply full_grid_concat_elem in Hx as [Hr Hc]. simpl in *.
  destruct (Htop r c) as (cell & Hcell & _); [lia|lia|]. eauto.
Qed.

(** One more link on cell [a] raises the sum by one. *)
Lemma links_total_bump (w w' : World) (a : Ref) cells :
  NoDup cells -> a ∈ cells ->
  (forall x, x <> a -> cell_links w' x = cell_links w x) ->
  cell_links w' a = cell_links w a + 1 ->
  links_total w' cells = links_total w cells + 1.
Proof.
  intros Hnd Hin Hother Ha.
  assert (Hout : forall l, a ∉ l -> links_total w' l = links_total w l).
  { induction l as [|x l IH]; [done|]. intros Hx.
    apply not_elem_of_cons in Hx as [Hne Hx].
    rewrite !links_total_cons. rewrite IH, Hother by done. done. }
  induction Hnd as [|x l Hx Hnd IH]; [by apply elem_of_nil in Hin|].
  rewrite !links_total_cons.
  destruct (decide (x = a)) as [->|Hne].
  - rewrite Ha, Hout by done. lia.
  - apply elem_of_cons in Hin as [->|Hin]; [done|].
    rewrite Hother, IH by done. lia.
Qed.

Lemma cell_links_setitem w a b c x :
  heap w !! a = Some c -> links c !! b = None ->
  cell_links (snd (links_setitem a b w)) x =
    if decide (x = a) then cell_links w a + 1 else cell_links w x.
Proof.
  intros Ha Hb. rewrite (links_setitem_run _ _ _ _ Ha). unfold cell_links. simpl.
  case_decide as Hx.
  - subst x. rewrite lookup_insert_eq, Ha. simpl.
    rewrite map_size_insert_None by done. lia.
  - by rewrite lookup_insert_ne.
Qed.

(** A new bidirectional link raises the sum by two. *)
Lemma links_total_link w a b cells :
  NoDup cells -> a ∈ cells -> b ∈ cells ->
  is_Some (heap w !! a) -> is_Some (heap w !! b) ->
  a <> b -> ~ linked w a b -> ~ linked w b a ->
  links_total (snd (link a (Some b) true w)) cells = links_total w cells + 2.
Proof.
  intros Hnd Ha Hb [ca Hca] [cb Hcb] Hne Hab Hba.
  assert (Hlab : links ca !! b = None).
  { destruct (links ca !! b) eqn:H; [|done]. destruct Hab. exists ca. eauto. }
  assert (Hlba : links cb !! a = None).
  { destruct (links cb !! a) eqn:H; [|done]. destruct Hba. exists cb. eauto. }
  rewrite link_bidirectional.
  pose proof (cell_links_setitem w a b ca) as H1.
  rewrite (links_setitem_run _ _ _ _ Hca) in *. simpl in H1.
  set (w1 := mkWorld _ _ _) in *.
  assert (Hcb1 : heap w1 !! b = Some cb)
    by (subst w1; simpl; by rewrite lookup_insert_ne).
  pose proof (cell_links_setitem w1 b a cb) as H2.
  rewrite (links_total_bump w1 _ b), (links_total_bump w w1 a); try done; try lia.
  - intros x Hx. rewrite H1 by done. by rewrite decide_False.
  - rewrite H1 by done. by rewrite decide_True.
  - intros x Hx. rewrite H2 by done. by rewrite decide_False.
  - rewrite H2 by done. by rewrite decide_True.
Qed.

Lemma random_choice_two {A} (a b : A) w :
  random_choice [a; b] w =
    (Ok (if decide (draws w (pos w) mod 2 = 0) then a else b),
     mkWorld (heap w) (draws w) (S (pos w))).
Proof.
  unfold random_choice, bind, next_draw, lift.
  pose proof (Z.mod_pos_bound (draws w (pos w)) 2 ltac:(lia)).
  change (Z.of_nat (length [a; b])) with 2.
  destruct (decide (draws w (pos w) mod 2 = 0)) as [->|Hne]; [done|].
  replace (draws w (pos w) mod 2) with 1 by lia. done.
Qed.

Lemma grid_at_last R C i :
  0 < C -> 0 <= i < R -> grid_at (mkGrid R C (full_grid R C)) i (-1) = Ok (i, C - 1).
Proof.
  intros HC Hi. rewrite grid_at_full by lia. case_decide; [|lia].
  rewrite Z.mod_small by lia. do 2 f_equal.
  symmetry. apply Z.mod_unique with (-1); lia.
Qed.

Lemma grid_row0 R C :
  0 < R -> py_index (full_grid R C) 0 = Ok ((fun c => (0, c)) <$> py_range C).
Proof.
  intros HR. unfold full_grid. rewrite py_index_tabulate by lia.
  destruct (Z.leb_spec (- R) 0), (Z.ltb_spec 0 R); try lia. simpl.
  by rewrite Z.mod_0_l by lia.
Qed.

Lemma links_total_zero w cells :
  (forall x, x ∈ cells -> cell_links w x = 0) -> links_total w cells = 0.
Proof.
  induction cells as [|x cells IH]; intros H; [done|].
  rewrite links_total_cons, H, IH; [done| |by left].
  intros y Hy. apply H. by right.
Qed.

Section BinaryTree.
  Variables (R C : Z) (d0 : nat -> Z) (p0 : nat).
  Hypothesis HR : 0 < R.
  Hypothesis HC : 0 < C.

Lemma bt_state_ext (D D' : Ref -> Prop) n n' p p' w :
  (forall x, D x <-> D' x) -> n = n' -> p = p' ->
  bt_state R C d0 p0 D n p w -> bt_state R C d0 p0 D' n' p' w.
Proof.
  intros HD <- <- (Hd & Hp & Htop & HX & HT).
  split; [done|]. split; [done|]. split; [done|]. split; [|done].
  intros x y Hx. rewrite (HX x y Hx), !HD. done.
Qed.

Lemma bt_state_draw D n p w :
  bt_state R C d0 p0 D n p w ->
  bt_state R C d0 p0 D n (p + 1) (mkWorld (heap w) (draws w) (S (pos w))).
Proof.
  intros (Hd & Hp & Htop & HX & HT).
  split; [done|]. split; [simpl; lia|]. split; [exact Htop|]. split; [exact HX|exact HT].
Qed.

(** Every parent is one step to the north or to the east. *)
Lemma bt_parent_step x :
  (bt_parent C d0 p0 x).1 - (bt_parent C d0 p0 x).2 = x.1 - x.2 - 1.
Proof. unfold bt_parent. repeat case_decide; simpl; lia. Qed.

Lemma bt_parent_in_grid x :
  in_grid R C x -> x <> (0, C - 1) -> in_grid R C (bt_parent C d0 p0 x).
Proof.
  destruct x as [r c]. unfold in_grid, bt_parent. simpl. intros [Hr Hc] Hne.
  assert (~ (r = 0 /\ c = C - 1)) by (intros [-> ->]; done).
  repeat case_decide; simpl; lia.
Qed.

Lemma grid_cell_in_store w x :
  grid_topology R C w -> in_grid R C x -> is_Some (heap w !! x).
Proof.
  intros Htop Hx. destruct x as [r c].
  destruct (Htop r c) as (cell & Hcell & _); [apply Hx..|]. eauto.
Qed.

Lemma in_grid_concat x : in_grid R C x -> x ∈ concat (full_grid R C).
Proof.
  intros Hx. rewrite <- (Z2Nat.id R) by lia. apply full_grid_concat_elem.
  by rewrite Z2Nat.id by lia.
Qed.

(** Linking a cell not done yet to its parent. *)
Lemma bt_link_step (D : Ref -> Prop) n p w c :
  bt_state R C d0 p0 D n p w -> in_grid R C c -> c <> (0, C - 1) -> ~ D c ->
  exists w', link c (Some (bt_parent C d0 p0 c)) true w = (Ok tt, w') /\
             bt_state R C d0 p0 (fun x => D x \/ x = c) (n + 1) p w'.
Proof.
  intros (Hd & Hp & Htop & HX & HT) Hc Hne HD.
  pose proof (bt_parent_in_grid c Hc Hne) as Ht.
  pose proof (bt_parent_step c) as Hmu.
  pose proof (bt_parent_step (bt_parent C d0 p0 c)) as Hmu2.
  set (t := bt_parent C d0 p0 c) in *.
  pose proof (grid_cell_in_store w c Htop Hc) as Hsc.
  pose proof (grid_cell_in_store w t Htop Ht) as Hst.
  destruct (linked_link w c t Hsc Hst) as (Hok & _ & Hl).
  pose proof (links_total_link w c t (concat (full_grid R C))) as Hsum.
  pose proof (preserves_link c (Some t) true w) as Hpres.
  destruct Hsc as [cc Hcc], Hst as [ct Hct].
  destruct (link_store w c t cc ct Hcc Hct) as (h & Hrun & _).
  rewrite Hrun in Hl, Hsum, Hpres. simpl in Hl, Hsum, Hpres.
  eexists. split; [exact Hrun|].
  split; [exact Hd|]. split; [exact Hp|]. split; [|split].
  - by apply (grid_topology_preserved R C w).
  - intros x y Hx. rewrite Hl, (HX x y Hx). fold t. split.
    + intros [[E1 E2]|[[E1 E2]|[[? ?]|[? ?]]]]; subst; eauto.
    + intros [[[?|E1] ?]|[[?|E1] ?]]; subst; eauto.
  - rewrite Hsum; [lia| | | |eauto|eauto| | |].
    + rewrite <- (Z2Nat.id R) by lia. apply full_grid_concat_NoDup.
    + by apply in_grid_concat.
    + by apply in_grid_concat.
    + intros Heq. rewrite <- Heq in Hmu. lia.
    + intros Hct'. apply (HX c t Hc) in Hct' as [[? _]|[_ Heq]]; [done|].
      rewrite <- Heq in Hmu2. lia.
    + intros Htc'. apply (HX t c Ht) in Htc' as [[_ Heq]|[? _]]; [|done].
      rewrite <- Heq in Hmu2. lia.
Qed.

(** The first loop: the top row. *)
Lemma link_top_row_spec :
  hoare (bt_state R C d0 p0 (bt_done C 0 1 1 0) 0 0)
        (link_top_row (mkGrid R C (full_grid R C)))
        (fun _ => bt_state R C d0 p0 (bt_done C C 1 1 0) (C - 1) 0).
Proof.
  intros w Hw. unfold link_top_row.
  rewrite (bind_run _ _ _ _ w (f_equal (fun r => (r, w)) (grid_row0 R C HR))).
  destruct (hoare_for_each
              (fun k => bt_state R C d0 p0 (bt_done C (Z.of_nat k) 1 1 0)
                                 (Z.min (Z.of_nat k) (C - 1)) 0)
              (fun cell =>
                 last <- lift (grid_at (mkGrid R C (full_grid R C)) 0 (-1)) ;;
                 if decide (cell = last) then ret tt
                 else e <- getattr east cell ;; link cell e true)
              ((fun c => (0, c)) <$> py_range C)) with (w := w)
    as (u & w' & Hrun & Hinv).
  - intros k x Hx w1 Hw1. rewrite list_lookup_fmap in Hx.
    destruct (py_range C !! k) as [c|] eqn:Hc; [|done].
    apply py_range_lookup in Hc as [-> Hk]. injection Hx as <-.
    rewrite (bind_run _ _ _ _ w1
               (f_equal (fun r => (r, w1)) (grid_at_last R C 0 HC ltac:(lia)))).
    case_decide as Hlast.
    + injection Hlast as Hlast. exists tt, w1. split; [done|].
      eapply bt_state_ext; [| | |exact Hw1]; [|lia|done].
      intros [r c]. unfold bt_done. simpl. lia.
    + assert (Z.of_nat k <> C - 1) by (intros Heq; apply Hlast; by rewrite Heq).
      pose proof Hw1 as (_ & _ & Htop & _).
      destruct (Htop 0 (Z.of_nat k)) as (cell & Hcell & _ & _ & _ & _ & _ & He);
        [lia|lia|].
      rewrite (bind_run _ _ _ _ _ (getattr_run east _ _ _ Hcell)), He.
      unfold east_of. rewrite decide_True by lia.
      destruct (bt_link_step _ _ _ w1 (0, Z.of_nat k) Hw1) as (w2 & Hrun & Hst).
      * unfold in_grid. simpl. lia.
      * intros [= ?]. lia.
      * unfold bt_done. simpl. lia.
      * unfold bt_parent in Hrun. simpl in Hrun.
        exists tt, w2. split; [exact Hrun|].
        eapply bt_state_ext; [| | |exact Hst]; [|lia|done].
        intros [r c]. unfold bt_done. rewrite pair_eq. simpl. lia.
  - eapply bt_state_ext; [| | |exact Hw]; [done|lia|done].
  - exists u, w'. split; [exact Hrun|].
    rewrite length_fmap, py_range_length in Hinv.
    eapply bt_state_ext; [| | |exact Hinv]; [|lia|done].
    intros [r c]. unfold bt_done. simpl. lia.
Qed.

(** The second loop: the last column. *)
Lemma link_last_column_spec :
  hoare (bt_state R C d0 p0 (bt_done C C 1 1 0) (C - 1) 0)
        (for_each (fun i =>
                     c <- lift (grid_at (mkGrid R C (full_grid R C)) i (-1)) ;;
                     c' <- lift (grid_at (mkGrid R C (full_grid R C)) i (-1)) ;;
                     n <- getattr north c' ;;
                     link c n true)
                  (py_range2 1 R))
        (fun _ => bt_state R C d0 p0 (bt_done C C R 1 0) (C - 1 + (R - 1)) 0).
Proof.
  intros w Hw.
  destruct (hoare_for_each
              (fun k => bt_state R C d0 p0 (bt_done C C (1 + Z.of_nat k) 1 0)
                                 (C - 1 + Z.of_nat k) 0)
              (fun i =>
                 c <- lift (grid_at (mkGrid R C (full_grid R C)) i (-1)) ;;
                 c' <- lift (grid_at (mkGrid R C (full_grid R C)) i (-1)) ;;
                 n <- getattr north c' ;;
                 link c n true)
              (py_range2 1 R)) with (w := w)
    as (u & w' & Hrun & Hinv).
  - intros k i Hi w1 Hw1. apply py_range2_lookup in Hi as [-> Hk].
    rewrite !(bind_run _ _ _ _ w1
                (f_equal (fun r => (r, w1))
                         (grid_at_last R C (1 + Z.of_nat k) HC ltac:(lia)))).
    pose proof Hw1 as (_ & _ & Htop & _).
    destruct (Htop (1 + Z.of_nat k) (C - 1)) as (cell & Hcell & _ & _ & Hn & _);
      [lia|lia|].
    rewrite (bind_run _ _ _ _ _ (getattr_run north _ _ _ Hcell)), Hn.
    unfold north_of. rewrite decide_True by lia.
    destruct (bt_link_step _ _ _ w1 (1 + Z.of_nat k, C - 1) Hw1) as (w2 & Hrun & Hst).
    + unfold in_grid. simpl. lia.
    + intros [= ?]. lia.
    + unfold bt_done. simpl. lia.
    + unfold bt_parent in Hrun. simpl in Hrun.
      rewrite decide_False, decide_True in Hrun by (done || lia).
      exists tt, w2. split; [exact Hrun|].
      eapply bt_state_ext; [| | |exact Hst]; [|lia|done].
      intros [r c]. unfold bt_done. rewrite pair_eq. simpl. lia.
  - eapply bt_state_ext; [| | |exact Hw]; [|lia|done].
    intros [r c]. unfold bt_done. simpl. lia.
  - exists u, w'. split; [exact Hrun|]. rewrite py_range2_length in Hinv.
    eapply bt_state_ext; [| | |exact Hinv]; [|lia|done].
    intros [r c]. unfold bt_done. simpl. lia.
Qed.

(** The third loop, one row: a draw and a link per cell. *)
Lemma link_row_spec (k : nat) :
  (k < Z.to_nat (R - 1))%nat ->
  hoare (bt_state R C d0 p0 (bt_done C C R (1 + Z.of_nat k) 0)
                  (C - 1 + (R - 1) + Z.of_nat k * (C - 1))
                  (Z.of_nat k * (C - 1)))
        (for_each (fun j =>
                     c <- lift (grid_at (mkGrid R C (full_grid R C)) (1 + Z.of_nat k) j) ;;
                     c1 <- lift (grid_at (mkGrid R C (full_grid R C)) (1 + Z.of_nat k) j) ;;
                     n <- getattr north c1 ;;
                     c2 <- lift (grid_at (mkGrid R C (full_grid R C)) (1 + Z.of_nat k) j) ;;
                     e <- getattr east c2 ;;
                     t <- random_choice [n; e] ;;
                     link c t true)
                  (py_range (C - 1)))
        (fun _ => bt_state R C d0 p0 (bt_done C C R (1 + Z.of_nat k) (C - 1))
                           (C - 1 + (R - 1) + Z.of_nat k * (C - 1) + (C - 1))
                           (Z.of_nat k * (C - 1) + (C - 1))).
Proof.
  intros Hk w Hw. set (i := 1 + Z.of_nat k) in *.
  destruct (hoare_for_each
              (fun jn => bt_state R C d0 p0 (bt_done C C R i (Z.of_nat jn))
                                  (C - 1 + (R - 1) + Z.of_nat k * (C - 1) + Z.of_nat jn)
                                  (Z.of_nat k * (C - 1) + Z.of_nat jn))
              (fun j =>
                 c <- lift (grid_at (mkGrid R C (full_grid R C)) i j) ;;
                 c1 <- lift (grid_at (mkGrid R C (full_grid R C)) i j) ;;
                 n <- getattr north c1 ;;
                 c2 <- lift (grid_at (mkGrid R C (full_grid R C)) i j) ;;
                 e <- getattr east c2 ;;
                 t <- random_choice [n; e] ;;
                 link c t true)
              (py_range (C - 1))) with (w := w)
    as (u & w' & Hrun & Hinv).
  - intros jn j Hj w1 Hw1. apply py_range_lookup in Hj as [-> Hjn].
    set (j := Z.of_nat jn) in *.
    assert (Hi : 0 <= i < R) by lia. assert (Hj : 0 <= j < C) by lia.
    rewrite !(bind_run _ _ _ _ w1
                (f_equal (fun r => (r, w1)) (grid_at_full_in R C i j Hi Hj))).
    pose proof Hw1 as (Hd & Hp & Htop & _).
    destruct (Htop i j Hi Hj) as (cell & Hcell & _ & _ & Hn & _ & _ & He).
    rewrite (bind_run _ _ _ _ _ (getattr_run north _ _ _ Hcell)), Hn.
    rewrite (bind_run _ _ _ _ w1
               (f_equal (fun r => (r, w1)) (grid_at_full_in R C i j Hi Hj))).
    rewrite (bind_run _ _ _ _ _ (getattr_run east _ _ _ Hcell)), He.
    rewrite (bind_run _ _ _ _ _ (random_choice_two _ _ w1)).
    unfold north_of, east_of.
    rewrite (decide_True (P := 0 < i)), (decide_True (P := j + 1 < C)) by lia.
    assert (Hpar : (if decide (draws w1 (pos w1) mod 2 = 0)
                    then Some (i - 1, j) else Some (i, j + 1))
                   = Some (bt_parent C d0 p0 (i, j))).
    { unfold bt_parent. cbn [fst snd].
      rewrite (decide_False (P := i = 0)), (decide_False (P := j = C - 1)) by lia.
      replace (Z.to_nat (Z.of_nat p0 + (i - 1) * (C - 1) + j)) with (pos w1) by lia.
      rewrite Hd. by case_decide. }
    rewrite Hpar.
    destruct (bt_link_step _ _ _ _ (i, j) (bt_state_draw _ _ _ _ Hw1))
      as (w2 & Hrun & Hst).
    + done.
    + intros [= ? ?]. lia.
    + unfold bt_done. simpl. lia.
    + exists tt, w2. split; [exact Hrun|].
      eapply bt_state_ext; [| | |exact Hst]; [|lia|lia].
      intros [r c]. unfold bt_done. rewrite pair_eq. simpl. lia.
  - eapply bt_state_ext; [| | |exact Hw]; [done|lia|lia].
  - exists u, w'. split; [exact Hrun|]. rewrite py_range_length in Hinv.
    eapply bt_state_ext; [| | |exact Hinv]; [|lia|lia].
    intros [r c]. unfold bt_done. simpl. lia.
Qed.

Lemma py_len_full_grid : py_len (full_grid R C) = R.
Proof. unfold py_len. rewrite full_grid_length. lia. Qed.

(** The third loop. *)
Lemma link_rows_spec :
  hoare (bt_state R C d0 p0 (bt_done C C R 1 0) (C - 1 + (R - 1)) 0)
        (for_each (fun i =>
                     row0 <- lift (py_index (full_grid R C) 0) ;;
                     for_each (fun j =>
                                 c <- lift (grid_at (mkGrid R C (full_grid R C)) i j) ;;
                                 c1 <- lift (grid_at (mkGrid R C (full_grid R C)) i j) ;;
                                 n <- getattr north c1 ;;
                                 c2 <- lift (grid_at (mkGrid R C (full_grid R C)) i j) ;;
                                 e <- getattr east c2 ;;
                                 t <- random_choice [n; e] ;;
                                 link c t true)
                              (py_range (py_len row0 - 1)))
                  (py_range2 1 R))
        (fun _ => bt_state R C d0 p0 (bt_done C C R R 0) (R * C - 1) ((R - 1) * (C - 1))).
Proof.
  intros w Hw.
  destruct (hoare_for_each
              (fun k => bt_state R C d0 p0 (bt_done C C R (1 + Z.of_nat k) 0)
                                 (C - 1 + (R - 1) + Z.of_nat k * (C - 1))
                                 (Z.of_nat k * (C - 1)))
              (fun i =>
                 row0 <- lift (py_index (full_grid R C) 0) ;;
                 for_each (fun j =>
                             c <- lift (grid_at (mkGrid R C (full_grid R C)) i j) ;;
                             c1 <- lift (grid_at (mkGrid R C (full_grid R C)) i j) ;;
                             n <- getattr north c1 ;;
                             c2 <- lift (grid_at (mkGrid R C (full_grid R C)) i j) ;;
                             e <- getattr east c2 ;;
                             t <- random_choice [n; e] ;;
                             link c t true)
                          (py_range (py_len row0 - 1)))
              (py_range2 1 R)) with (w := w)
    as (u & w' & Hrun & Hinv).
  - intros k i Hi w1 Hw1. apply py_range2_lookup in Hi as [-> Hk].
    rewrite (bind_run _ _ _ _ w1 (f_equal (fun r => (r, w1)) (grid_row0 R C HR))).
    unfold py_len. rewrite length_fmap, py_range_length, Z2Nat.id by lia.
    destruct (link_row_spec k Hk w1 Hw1) as (u & w2 & Hrun & Hst).
    exists u, w2. split; [exact Hrun|].
    eapply bt_state_ext; [| | |exact Hst]; [|lia|lia].
    intros [r c]. unfold bt_done. simpl. lia.
  - eapply bt_state_ext; [| | |exact Hw]; [done|lia|lia].
  - exists u, w'. split; [exact Hrun|]. rewrite py_range2_length in Hinv.
    eapply bt_state_ext; [| | |exact Hinv]; [|nia|nia].
    intros [r c]. unfold bt_done. simpl. lia.
Qed.

(** The whole of [binary_tree] from a grid without links. *)
Lemma binary_tree_spec :
  hoare (bt_state R C d0 p0 (bt_done C 0 1 1 0) 0 0)
        (binary_tree (mkGrid R C (full_grid R C)))
        (fun _ => bt_state R C d0 p0 (bt_done C C R R 0) (R * C - 1) ((R - 1) * (C - 1))).
Proof.
  unfold binary_tree. cbn [grid]. rewrite py_len_full_grid.
  eapply hoare_bind; [apply link_top_row_spec|]. intros u1.
  eapply hoare_bind; [apply link_last_column_spec|]. intros u2.
  apply link_rows_spec.
Qed.

(** Every cell reaches the north-east corner along its parents. *)
Lemma bt_path_to_corner (w : World) x :
  (forall y, in_grid R C y -> y <> (0, C - 1) -> linked w y (bt_parent C d0 p0 y)) ->
  in_grid R C x -> rtc (linked w) x (0, C - 1).
Proof.
  intros Hl. remember (Z.to_nat (x.1 + (C - 1 - x.2))) as m eqn:Hm.
  revert x Hm. induction m as [|m IH]; intros x Hm Hx.
  - destruct x as [r c]. unfold in_grid in Hx. simpl in *.
    replace r with 0 by lia. replace c with (C - 1) by lia. done.
  - destruct (decide (x = (0, C - 1))) as [->|Hne]; [done|].
    eapply rtc_l; [by apply Hl|]. apply IH; [|by apply bt_parent_in_grid].
    pose proof (bt_parent_step x). pose proof (bt_parent_in_grid x Hx Hne) as [? ?].
    destruct Hx. lia.
Qed.

End BinaryTree.

(** The grid [Grid(R, C)] leaves is the state [binary_tree] starts
    from: no cell is done, no link is there. *)
Lemma grid_built_bt_state R C h0 g w :
  0 < R -> 0 < C -> grid_built R C h0 g w ->
  bt_state R C (draws w) (pos w) (bt_done C 0 1 1 0) 0 0 w.
Proof.
  intros HR HC Hbuilt. pose proof (grid_built_topology _ _ _ _ _ Hbuilt) as Htop.
  destruct Hbuilt as [_ Hheap].
  split; [done|]. split; [lia|]. split; [done|]. split.
  - intros x y Hx. split.
    + intros (c & Hc & Hl). rewrite Hheap, decide_True in Hc by done.
      injection Hc as <-. simpl in Hl. rewrite lookup_empty in Hl. by destruct Hl.
    + unfold bt_done. lia.
  - apply links_total_zero. intros x Hx. rewrite <- (Z2Nat.id R) in Hx by lia.
    apply full_grid_concat_elem in Hx. rewrite Z2Nat.id in Hx by lia.
    unfold cell_links. by rewrite Hheap, decide_True by done.
Qed.

(** X13.  On the grid [Grid(R, C)] builds, [binary_tree] returns and
    carves a spanning tree rooted at the north-east corner.  It takes
    (R - 1)(C - 1) draws, one per cell outside the top row and the last
    column.  Every cell but the corner gets one parent, the cell to its
    east in the top row, the cell to its north in the last column, and
    elsewhere the northern or the eastern one as the cell's draw is even
    or odd; the links of the grid are exactly those between a cell and
    its parent, in both directions; every cell reaches the corner along
    links; and the link counts of the cells add up to 2 (R C - 1), that
    is R C - 1 links. *)
Theorem binary_tree_spanning_tree (R C : Z) (w : World) :
  0 < R -> 0 < C ->
  exists g w1 w2,
    Grid_init R C w = (Ok g, w1) /\
    binary_tree g w1 = (Ok tt, w2) /\
    Z.of_nat (pos w2) = Z.of_nat (pos w1) + (R - 1) * (C - 1) /\
    (forall x, in_grid R C x -> x <> (0, C - 1) ->
       in_grid R C (bt_parent C (draws w1) (pos w1) x) /\
       (bt_parent C (draws w1) (pos w1) x = (x.1 - 1, x.2) \/
        bt_parent C (draws w1) (pos w1) x = (x.1, x.2 + 1))) /\
    (forall x y, in_grid R C x ->
       linked w2 x y <->
       (x <> (0, C - 1) /\ y = bt_parent C (draws w1) (pos w1) x) \/
       (in_grid R C y /\ y <> (0, C - 1) /\ x = bt_parent C (draws w1) (pos w1) y)) /\
    (forall x, in_grid R C x -> rtc (linked w2) x (0, C - 1)) /\
    link_count_sum g w2 = (Ok (2 * (R * C - 1)), w2).
Proof.
  intros HR HC.
  destruct (Grid_init_spec R C (heap w) HR HC w eq_refl) as (g & w1 & Hinit & Hbuilt).
  pose proof (grid_built_bt_state R C _ g w1 HR HC Hbuilt) as Hst0.
  destruct Hbuilt as [-> _].
  destruct (binary_tree_spec R C (draws w1) (pos w1) HR HC w1 Hst0)
    as ([] & w2 & Hrun & (Hd & Hp & Htop & HX & HT)).
  assert (Hdone : forall x, in_grid R C x ->
                    (bt_done C C R R 0 x <-> x <> (0, C - 1))).
  { intros [r c] [Hr Hc]. unfold bt_done. simpl in *. split.
    - intros H [= -> ->]. lia.
    - intros Hne. assert (~ (r = 0 /\ c = C - 1)) by (intros [-> ->]; done). lia. }
  assert (Hlinks : forall x y, in_grid R C x ->
            linked w2 x y <->
            (x <> (0, C - 1) /\ y = bt_parent C (draws w1) (pos w1) x) \/
            (in_grid R C y /\ y <> (0, C - 1) /\ x = bt_parent C (draws w1) (pos w1) y)).
  { intros x y Hx. rewrite (HX x y Hx), (Hdone x Hx). split.
    - intros [?|[Hy ?]]; [by left|right].
      assert (in_grid R C y).
      { destruct y as [r c]. unfold bt_done, in_grid in *. simpl in *. lia. }
      split; [done|]. split; [|done]. by apply Hdone.
    - intros [?|(Hy & ? & ?)]; [by left|right]. split; [|done]. by apply Hdone. }
  exists (mkGrid R C (full_grid R C)), w1, w2.
  split; [done|]. split; [done|]. split; [exact Hp|]. split; [|split; [|split]].
  - intros x Hx Hne. split; [by apply bt_parent_in_grid|].
    unfold bt_parent. destruct x as [r c]. simpl.
    destruct Hx as [Hr Hc]. simpl in *.
    assert (~ (r = 0 /\ c = C - 1)) by (intros [-> ->]; done).
    repeat case_decide; (left; f_equal; lia) || (right; f_equal; lia).
  - exact Hlinks.
  - intros x Hx. apply (bt_path_to_corner R C (draws w1) (pos w1) HR); [|done].
    intros y Hy Hne. apply Hlinks; [done|]. by left.
  - rewrite link_count_sum_run by (done || lia). rewrite HT. done.
Qed.

(** The theorem of X13 at the 2 x 2 grid. *)
Lemma binary_tree_spanning_tree_witness :
  exists g w1 w2,
    Grid_init 2 2 world0 = (Ok g, w1) /\
    binary_tree g w1 = (Ok tt, w2) /\
    Z.of_nat (pos w2) = Z.of_nat (pos w1) + (2 - 1) * (2 - 1) /\
    (forall x, in_grid 2 2 x -> x <> (0, 2 - 1) ->
       in_grid 2 2 (bt_parent 2 (draws w1) (pos w1) x) /\
       (bt_parent 2 (draws w1) (pos w1) x = (x.1 - 1, x.2) \/
        bt_parent 2 (draws w1) (pos w1) x = (x.1, x.2 + 1))) /\
    (forall x y, in_grid 2 2 x ->
       linked w2 x y <->
       (x <> (0, 2 - 1) /\ y = bt_parent 2 (draws w1) (pos w1) x) \/
       (in_grid 2 2 y /\ y <> (0, 2 - 1) /\ x = bt_parent 2 (draws w1) (pos w1) y)) /\
    (forall x, in_grid 2 2 x -> rtc (linked w2) x (0, 2 - 1)) /\
    link_count_sum g w2 = (Ok (2 * (2 * 2 - 1)), w2).
Proof. apply (binary_tree_spanning_tree 2 2 world0); lia. Defined.

(** ** [sidewinder] carves a spanning tree *)

Lemma random_uniform_run a b w :
  exists u, random_uniform a b w = (Ok u, mkWorld (heap w) (draws w) (S (pos w))).
Proof. unfold random_uniform, random_random, bind, next_draw, ret. eauto. Qed.

Lemma py_index_in_range {A} (l : list A) (i : Z) :
  0 <= i < Z.of_nat (length l) -> exists x, py_index l i = Ok x /\ x ∈ l.
Proof.
  intros Hi. unfold py_index. cbv zeta.
  destruct (Z.ltb_spec i 0); [lia|]. cbv iota.
  destruct (Z.ltb_spec i 0); [lia|].
  destruct (Z.leb_spec (Z.of_nat (length l)) i); [lia|]. simpl.
  destruct (lookup_lt_is_Some_2 l (Z.to_nat i) ltac:(lia)) as [x Hx].
  rewrite Hx. exists x. split; [done|]. by eapply list_elem_of_lookup_2.
Qed.

Lemma random_choice_elem {A} (l : list A) w :
  l <> [] ->
  exists x, random_choice l w = (Ok x, mkWorld (heap w) (draws w) (S (pos w))) /\ x ∈ l.
Proof.
  intros Hl. destruct l as [|a l]; [done|].
  unfold random_choice, bind, next_draw, lift. cbv beta iota.
  destruct (py_index_in_range (a :: l)
              (draws w (pos w) mod Z.of_nat (length (a :: l)))) as (x & Hrun & Hx).
  - apply Z.mod_pos_bound. simpl. lia.
  - rewrite Hrun. eauto.
Qed.

Lemma py_index_last {A} (l : list A) (x : A) : py_index (l ++ [x]) (-1) = Ok x.
Proof.
  unfold py_index. cbv zeta. rewrite length_app. simpl length.
  destruct (Z.ltb_spec (-1) 0); [|lia]. cbv iota.
  destruct (Z.ltb_spec (-1 + Z.of_nat (length l + 1)) 0); [lia|].
  destruct (Z.leb_spec (Z.of_nat (length l + 1)) (-1 + Z.of_nat (length l + 1))); [lia|].
  simpl orb. cbv iota.
  replace (Z.to_nat (-1 + Z.of_nat (length l + 1))) with (length l) by lia.
  by rewrite list_lookup_middle.
Qed.

(** A link between two cells of the grid that are not linked yet. *)
Lemma link_fresh R C w a b :
  0 < R -> grid_topology R C w -> in_grid R C a -> in_grid R C b -> a <> b ->
  ~ linked w a b -> ~ linked w b a ->
  exists w',
    link a (Some b) true w = (Ok tt, w') /\
    grid_topology R C w' /\
    (forall x y, linked w' x y <-> (x = a /\ y = b) \/ (x = b /\ y = a) \/ linked w x y) /\
    links_total w' (concat (full_grid R C)) = links_total w (concat (full_grid R C)) + 2.
Proof.
  intros HR Htop Ha Hb Hne Hab Hba.
  pose proof (grid_cell_in_store R C w a Htop Ha) as Hsa.
  pose proof (grid_cell_in_store R C w b Htop Hb) as Hsb.
  destruct (linked_link w a b Hsa Hsb) as (Hok & _ & Hl).
  pose proof (links_total_link w a b (concat (full_grid R C))) as Hsum.
  pose proof (preserves_link a (Some b) true w) as Hpres.
  destruct (link a (Some b) true w) as [r w'] eqn:Hrun. simpl in *. subst r.
  exists w'. split; [done|]. split; [by apply (grid_topology_preserved R C w)|].
  split; [done|]. apply Hsum; try done.
  - rewrite <- (Z2Nat.id R) by lia. apply full_grid_concat_NoDup.
  - by apply in_grid_concat.
  - by apply in_grid_concat.
Qed.

Lemma rtc_linked_mono (w w' : World) x y :
  (forall a b, linked w a b -> linked w' a b) ->
  rtc (linked w) x y -> rtc (linked w') x y.
Proof.
  intros Hsub Hxy. induction Hxy as [|a b c Hab _ IH]; [done|].
  eapply rtc_l; [by apply Hsub|done].
Qed.

(** The invariant of [sidewinder] only looks at the cells. *)
Lemma sw_state_heap R C i j s n w w' :
  heap w' = heap w -> sw_state R C i j s n w -> sw_state R C i j s n w'.
Proof.
  destruct w as [h d p], w' as [h' d' p']. simpl. intros -> H. exact H.
Qed.

Section Sidewinder.
  Variables (R C : Z).
  Hypothesis HR : 0 < R.
  Hypothesis HC : 0 < C.

(** Within a run every cell reaches every other. *)
Lemma sw_run_connected i j s n w a b :
  sw_state R C i j s n w -> 0 <= i < R -> 0 <= s -> j < C ->
  s <= a <= j -> s <= b <= j -> rtc (linked w) (i, a) (i, b).
Proof.
  intros (_ & HP & Hch & _) Hi Hs Hj Ha Hb.
  destruct (decide (a <= b)) as [Hle|Hgt].
  - remember (Z.to_nat (b - a)) as m eqn:Hm. revert a Ha Hle Hm.
    induction m as [|m IH]; intros a Ha Hle Hm.
    + replace a with b by lia. done.
    + eapply rtc_l; [apply Hch; lia|]. apply IH; lia.
  - remember (Z.to_nat (a - b)) as m eqn:Hm. revert a Ha Hgt Hm.
    induction m as [|m IH]; intros a Ha Hgt Hm; [lia|].
    destruct (HP (i, a - 1) (i, a)) as (_ & Hback & _).
    + unfold in_grid. simpl. lia.
    + replace a with (a - 1 + 1) at 2 by lia. apply Hch. lia.
    + eapply rtc_l; [exact Hback|].
      destruct (decide (a - 1 = b)) as [->|Hne]; [done|]. apply IH; lia.
Qed.

(** The run goes on: the cell is linked to the one east of it. *)
Lemma sw_east_step i j s n w :
  sw_state R C i j s n w -> 1 <= i < R -> 0 <= s <= j -> j + 1 < C ->
  exists w',
    link (i, j) (Some (i, j + 1)) true w = (Ok tt, w') /\
    sw_state R C i (j + 1) s (n + 1) w'.
Proof.
  intros (Htop & HP & Hch & Hconn & HT) Hi Hs Hj.
  assert (Ha : in_grid R C (i, j)) by (unfold in_grid; simpl; lia).
  assert (Hb : in_grid R C (i, j + 1)) by (unfold in_grid; simpl; lia).
  destruct (link_fresh R C w (i, j) (i, j + 1) HR Htop Ha Hb)
    as (w' & Hrun & Htop' & Hl & HT').
  - intros [= ?]. lia.
  - intros H. destruct (HP _ _ Ha H) as (_ & H' & _).
    destruct (HP _ _ Hb H') as (_ & _ & _ & Ht & _). simpl in Ht. lia.
  - intros H. destruct (HP _ _ Hb H) as (_ & _ & _ & Ht & _). simpl in Ht. lia.
  - exists w'. split; [done|]. split; [done|]. split; [|split; [|split]].
    + intros x y Hx Hxy. apply Hl in Hxy as [[-> ->]|[[-> ->]|Hxy]].
      * split; [done|]. split; [apply Hl; auto|]. unfold adjacent. simpl. lia.
      * split; [done|]. split; [apply Hl; auto|]. unfold adjacent. simpl. lia.
      * destruct (HP x y Hx Hxy) as (Hy & Hyx & Hadj & Ht & Hn).
        split; [done|]. split; [apply Hl; auto|]. split; [done|]. lia.
    + intros c Hc. apply Hl. destruct (decide (c = j)) as [->|Hne]; [by left|].
      right. right. apply Hch. lia.
    + intros x Hx Hdone. eapply rtc_linked_mono; [|by apply Hconn].
      intros a b Hab. apply Hl. auto.
    + rewrite HT', HT. lia.
Qed.

(** The run is closed: one of its cells is linked to the north. *)
Lemma sw_close_step i j s n w c :
  sw_state R C i j s n w -> 1 <= i < R -> 0 <= s <= j -> j < C -> s <= c <= j ->
  exists w',
    link (i, c) (Some (i - 1, c)) true w = (Ok tt, w') /\
    sw_state R C i (j + 1) (j + 1) (n + 1) w'.
Proof.
  intros Hst Hi Hs Hj Hc. pose proof Hst as (Htop & HP & Hch & Hconn & HT).
  assert (Ha : in_grid R C (i, c)) by (unfold in_grid; simpl; lia).
  assert (Hb : in_grid R C (i - 1, c)) by (unfold in_grid; simpl; lia).
  assert (Hfresh : ~ linked w (i, c) (i - 1, c)).
  { intros H. destruct (HP _ _ Ha H) as (_ & _ & _ & _ & Hn). simpl in Hn. lia. }
  destruct (link_fresh R C w (i, c) (i - 1, c) HR Htop Ha Hb)
    as (w' & Hrun & Htop' & Hl & HT').
  - intros [= ?]. lia.
  - done.
  - intros H. destruct (HP _ _ Hb H) as (_ & H' & _). done.
  - assert (Hmono : forall a b, linked w a b -> linked w' a b)
      by (intros a b Hab; apply Hl; auto).
    exists w'. split; [done|]. split; [done|]. split; [|split; [|split]].
    + intros x y Hx Hxy. apply Hl in Hxy as [[-> ->]|[[-> ->]|Hxy]].
      * split; [done|]. split; [apply Hl; auto|]. unfold adjacent. simpl. lia.
      * split; [done|]. split; [apply Hl; auto|]. unfold adjacent. simpl. lia.
      * destruct (HP x y Hx Hxy) as (Hy & Hyx & Hadj & Ht & Hn).
        split; [done|]. split; [by apply Hmono|]. split; [done|]. lia.
    + intros c' Hc'. lia.
    + intros [r k] [Hr Hk] Hdone. simpl in *.
      destruct (decide (r < i \/ (r = i /\ k < s))) as [Hold|Hnew].
      * eapply rtc_linked_mono; [exact Hmono|]. apply Hconn; [done|]. simpl. lia.
      * assert (r = i) as -> by lia.
        eapply rtc_trans.
        { eapply rtc_linked_mono; [exact Hmono|].
          apply (sw_run_connected i j s n w k c Hst); lia. }
        eapply rtc_l; [apply Hl; by left|].
        eapply rtc_linked_mono; [exact Hmono|]. apply Hconn; [done|]. simpl. lia.
    + rewrite HT', HT. lia.
Qed.

(** One step of the inner loop of [sidewinder], whichever way the draw
    falls: one link more, and the run either grows or restarts. *)
Lemma sidewinder_step_spec odds i j s n tmplist w :
  sw_state R C i j s n w -> 1 <= i < R -> 0 <= s <= j -> j < C ->
  (forall x, x ∈ tmplist -> x.1 = i /\ s <= x.2 <= j) ->
  exists tmplist' s' w',
    sidewinder_step (mkGrid R C (full_grid R C)) odds i tmplist j w = (Ok tmplist', w') /\
    sw_state R C i (j + 1) s' (n + 1) w' /\
    0 <= s' <= j + 1 /\
    (forall x, x ∈ tmplist' -> x.1 = i /\ s' <= x.2 <= j + 1) /\
    (j + 1 = C -> s' = C).
Proof.
  intros Hst Hi Hs Hj Hrun. unfold sidewinder_step.
  destruct (random_uniform_run 0 1 w) as [u Hu].
  rewrite (bind_run _ _ _ _ _ Hu). cbn [num_columns].
  set (w1 := mkWorld _ _ _).
  assert (Hst1 : sw_state R C i j s n w1) by (by apply (sw_state_heap _ _ _ _ _ _ w)).
  assert (Hij : grid_at (mkGrid R C (full_grid R C)) i j = Ok (i, j))
    by (apply grid_at_full_in; lia).
  destruct (Qle_bool odds u && negb (j =? C - 1)) eqn:Hb.
  - apply andb_true_iff in Hb as [_ Hb]. apply negb_true_iff, Z.eqb_neq in Hb.
    assert (Hij1 : grid_at (mkGrid R C (full_grid R C)) i (j + 1) = Ok (i, j + 1))
      by (apply grid_at_full_in; lia).
    rewrite (bind_run _ _ _ _ w1 (f_equal (fun r => (r, w1)) Hij)).
    unfold index_M.
    rewrite (bind_run _ _ _ _ w1 (f_equal (fun r => (r, w1)) (py_index_last tmplist (i, j)))).
    rewrite (bind_run _ _ _ _ w1 (f_equal (fun r => (r, w1)) Hij1)).
    destruct (sw_east_step i j s n w1 Hst1) as (w2 & Hlink & Hst2); [lia..|].
    rewrite (bind_run _ _ _ _ _ Hlink).
    rewrite (bind_run _ _ _ _ w2 (f_equal (fun r => (r, w2)) Hij1)).
    eexists _, s, w2. split; [done|]. split; [done|]. split; [lia|]. split; [|lia].
    intros x. rewrite !elem_of_app, !list_elem_of_singleton.
    intros [[Hx| ->]| ->]; [apply Hrun in Hx|..]; simpl; lia.
  - rewrite (bind_run _ _ _ _ w1 (f_equal (fun r => (r, w1)) Hij)).
    destruct (random_choice_elem (tmplist ++ [(i, j)]) w1) as (chose & Hch & Hin).
    { by destruct tmplist. }
    rewrite (bind_run _ _ _ _ _ Hch). simpl heap. set (w2 := mkWorld _ _ _).
    assert (Hst2 : sw_state R C i j s n w2) by (by apply (sw_state_heap _ _ _ _ _ _ w)).
    assert (Hc : chose.1 = i /\ s <= chose.2 <= j).
    { apply elem_of_app in Hin as [Hin|Hin%list_elem_of_singleton];
        [by apply Hrun|]. subst chose. simpl. lia. }
    destruct chose as [r c]. simpl in Hc. destruct Hc as [-> Hc].
    pose proof Hst2 as (Htop & _).
    destruct (Htop i c) as (cell & Hcell & _ & _ & Hn & _); [lia|lia|].
    rewrite (bind_run _ _ _ _ _ (getattr_run north _ _ _ Hcell)), Hn.
    unfold north_of. rewrite decide_True by lia.
    destruct (sw_close_step i j s n w2 c Hst2) as (w3 & Hlink & Hst3); [lia..|].
    rewrite (bind_run _ _ _ _ _ Hlink).
    exists [], (j + 1), w3. split; [done|]. split; [done|]. split; [lia|]. split; [|lia].
    by intros x Hx%elem_of_nil.
Qed.

(** A row of [sidewinder]. *)
Lemma sidewinder_row_spec odds i n :
  1 <= i < R ->
  hoare (sw_state R C i 0 0 n)
        (fold_M (sidewinder_step (mkGrid R C (full_grid R C)) odds i) (py_range2 0 C) [])
        (fun _ => sw_state R C i C C (n + C)).
Proof.
  intros Hi w Hw.
  destruct (hoare_fold_M
              (fun jn tmplist w =>
                 exists s, sw_state R C i (Z.of_nat jn) s (n + Z.of_nat jn) w /\
                           0 <= s <= Z.of_nat jn /\
                           (forall x, x ∈ tmplist -> x.1 = i /\ s <= x.2 <= Z.of_nat jn) /\
                           (Z.of_nat jn = C -> s = C))
              (sidewinder_step (mkGrid R C (full_grid R C)) odds i)
              (py_range2 0 C) []) with (w := w)
    as (acc & w' & Hrun & (s & Hst & Hs & _ & Hend)).
  - intros jn j tmplist Hj w1 (s & Hst & Hs & Hrun & _).
    apply py_range2_lookup in Hj as [-> Hjn]. simpl.
    destruct (sidewinder_step_spec odds i (Z.of_nat jn) s (n + Z.of_nat jn) tmplist w1)
      as (tmplist' & s' & w2 & Hstep & Hst2 & Hs' & Hrun' & Hend); [done|lia..|done|].
    exists tmplist', w2. split; [done|]. exists s'.
    replace (Z.of_nat (S jn)) with (Z.of_nat jn + 1) by lia.
    replace (n + (Z.of_nat jn + 1)) with (n + Z.of_nat jn + 1) by lia. done.
  - exists 0. replace (n + Z.of_nat 0) with n by lia.
    split; [done|]. split; [lia|]. split; [by intros x Hx%elem_of_nil|]. lia.
  - exists acc, w'. split; [done|]. rewrite py_range2_length in Hst, Hend.
    replace (Z.of_nat (Z.to_nat (C - 0))) with C in * by lia.
    by rewrite Hend in Hst.
Qed.

(** From the end of a row to the start of the next. *)
Lemma sw_next_row i n w :
  sw_state R C i C C n w -> sw_state R C (i + 1) 0 0 n w.
Proof.
  intros (Htop & HP & _ & Hconn & HT).
  split; [done|]. split; [|split; [|split; [|done]]].
  - intros x y Hx Hxy. destruct (HP x y Hx Hxy) as (Hy & Hyx & Hadj & Ht & _).
    split; [done|]. split; [done|]. split; [done|]. lia.
  - intros c Hc. lia.
  - intros x Hx Hdone. apply Hconn; [done|]. destruct Hx. lia.
Qed.

(** The rows below the top one. *)
Lemma sidewinder_rows_spec odds :
  hoare (sw_state R C 1 0 0 (C - 1))
        (for_each (fun i =>
                     fold_M (sidewinder_step (mkGrid R C (full_grid R C)) odds i)
                            (py_range2 0 C) [] ;;
                     ret tt)
                  (py_range2 1 R))
        (fun _ => sw_state R C R 0 0 (R * C - 1)).
Proof.
  intros w Hw.
  destruct (hoare_for_each
              (fun k => sw_state R C (1 + Z.of_nat k) 0 0 (C - 1 + Z.of_nat k * C))
              (fun i =>
                 fold_M (sidewinder_step (mkGrid R C (full_grid R C)) odds i)
                        (py_range2 0 C) [] ;;
                 ret tt)
              (py_range2 1 R)) with (w := w)
    as (u & w' & Hrun & Hst).
  - intros k i Hi w1 Hw1. apply py_range2_lookup in Hi as [-> Hk].
    destruct (sidewinder_row_spec odds (1 + Z.of_nat k) _ ltac:(lia) w1 Hw1)
      as (acc & w2 & Hrow & Hst2).
    rewrite (bind_run _ _ _ _ _ Hrow). exists tt, w2. split; [done|].
    apply sw_next_row in Hst2.
    replace (1 + Z.of_nat (S k)) with (1 + Z.of_nat k + 1) by lia.
    replace (C - 1 + Z.of_nat (S k) * C) with (C - 1 + Z.of_nat k * C + C) by lia.
    done.
  - replace (1 + Z.of_nat 0) with 1 by lia.
    by replace (C - 1 + Z.of_nat 0 * C) with (C - 1) by lia.
  - exists u, w'. split; [done|]. rewrite py_range2_length in Hst.
    replace (1 + Z.of_nat (Z.to_nat (R - 1))) with R in Hst by lia.
    by replace (C - 1 + Z.of_nat (Z.to_nat (R - 1)) * C) with (R * C - 1) in Hst by nia.
Qed.

(** After the first loop the top row is a chain to the corner. *)
Lemma top_row_sw_state d0 p0 w :
  bt_state R C d0 p0 (bt_done C C 1 1 0) (C - 1) 0 w -> sw_state R C 1 0 0 (C - 1) w.
Proof.
  intros (_ & _ & Htop & HX & HT).
  assert (Hpar : forall c, bt_parent C d0 p0 (0, c) = (0, c + 1)) by done.
  assert (Hdone : forall x, bt_done C C 1 1 0 x <-> x.1 = 0 /\ 0 <= x.2 < C - 1)
    by (intros [r c]; unfold bt_done; simpl; lia).
  assert (Heast : forall c, 0 <= c < C - 1 -> linked w (0, c) (0, c + 1)).
  { intros c Hc. apply HX; [unfold in_grid; simpl; lia|]. left.
    split; [apply Hdone; simpl; lia|done]. }
  assert (Hwest : forall c, 0 <= c < C - 1 -> linked w (0, c + 1) (0, c)).
  { intros c Hc. apply HX; [unfold in_grid; simpl; lia|]. right.
    split; [apply Hdone; simpl; lia|done]. }
  split; [done|]. split; [|split; [|split; [|done]]].
  - intros x y Hx Hxy. apply (HX x y Hx) in Hxy as [[Hd ->]|[Hd ->]];
      apply Hdone in Hd.
    + destruct x as [r c]. simpl in Hd. destruct Hd as [-> Hc]. rewrite Hpar.
      split; [unfold in_grid; simpl; lia|]. split; [by apply Hwest|].
      unfold adjacent. simpl. lia.
    + destruct y as [r c]. simpl in Hd. destruct Hd as [-> Hc]. rewrite Hpar.
      split; [unfold in_grid; simpl; lia|]. split; [by apply Heast|].
      unfold adjacent. simpl. lia.
  - intros c Hc. lia.
  - intros [r c] [Hr Hc] Hdone'. simpl in *. assert (r = 0) as -> by lia.
    remember (Z.to_nat (C - 1 - c)) as m eqn:Hm. revert c Hc Hdone' Hm.
    induction m as [|m IH]; intros c Hc Hdone' Hm.
    + replace c with (C - 1) by lia. done.
    + eapply rtc_l; [apply Heast; lia|]. apply IH; lia.
Qed.

End Sidewinder.

(** X14.  On the grid [Grid(R, C)] builds, [sidewinder] with odds in
    [0, 1) returns, whatever the draws, and carves a spanning tree:
    every link joins two adjacent cells of the grid in both directions,
    every cell reaches the north-east corner along links, and the link
    counts add up to 2 (R C - 1), that is R C - 1 links.  With odds
    below 0, or 1 and above, it raises AssertionError before it links
    anything. *)
Theorem sidewinder_spanning_tree (R C : Z) (w : World) (odds : Q) :
  0 < R -> 0 < C ->
  exists g w1,
    Grid_init R C w = (Ok g, w1) /\
    (Qle_bool 0 odds = false \/ Qle_bool 1 odds = true ->
     sidewinder g odds w1 = (Raise AssertionError, w1)) /\
    (Qle_bool 0 odds = true -> Qle_bool 1 odds = false ->
     exists w2,
       sidewinder g odds w1 = (Ok tt, w2) /\
       (forall x y, in_grid R C x -> linked w2 x y ->
          in_grid R C y /\ linked w2 y x /\ adjacent x y) /\
       (forall x, in_grid R C x -> rtc (linked w2) x (0, C - 1)) /\
       link_count_sum g w2 = (Ok (2 * (R * C - 1)), w2)).
Proof.
  intros HR HC.
  destruct (Grid_init_spec R C (heap w) HR HC w eq_refl) as (g & w1 & Hinit & Hbuilt).
  pose proof (grid_built_bt_state R C _ g w1 HR HC Hbuilt) as Hst0.
  destruct Hbuilt as [-> _].
  exists (mkGrid R C (full_grid R C)), w1. split; [done|]. split.
  - unfold sidewinder, bind, py_assert.
    intros [-> | H1]; [done|]. rewrite H1. by destruct (Qle_bool 0 odds).
  - intros H0 H1. unfold sidewinder. rewrite H0, H1. cbn [negb py_assert num_rows num_columns].
    rewrite !(bind_run _ _ _ _ _ (eq_refl : ret tt w1 = (Ok tt, w1))).
    destruct (link_top_row_spec R C (draws w1) (pos w1) HR HC w1 Hst0)
      as (u & w2 & Htoprow & Hst2).
    rewrite (bind_run _ _ _ _ _ Htoprow).
    apply top_row_sw_state in Hst2; [|done..].
    destruct (sidewinder_rows_spec R C HR HC odds w2 Hst2)
      as ([] & w3 & Hrows & (Htop & HP & _ & Hconn & HT)).
    exists w3. split; [done|]. split; [|split].
    + intros x y Hx Hxy. destruct (HP x y Hx Hxy) as (? & ? & ? & _). done.
    + intros x Hx. apply Hconn; [done|]. destruct Hx. lia.
    + rewrite link_count_sum_run by (done || lia). by rewrite HT.
Qed.

(** The theorem of X14 at the 2 x 2 grid with odds one half. *)
Lemma sidewinder_spanning_tree_witness :
  exists g w1,
    Grid_init 2 2 world0 = (Ok g, w1) /\
    (Qle_bool 0 (1 # 2) = false \/ Qle_bool 1 (1 # 2) = true ->
     sidewinder g (1 # 2) w1 = (Raise AssertionError, w1)) /\
    (Qle_bool 0 (1 # 2) = true -> Qle_bool 1 (1 # 2) = false ->
     exists w2,
       sidewinder g (1 # 2) w1 = (Ok tt, w2) /\
       (forall x y, in_grid 2 2 x -> linked w2 x y ->
          in_grid 2 2 y /\ linked w2 y x /\ adjacent x y) /\
       (forall x, in_grid 2 2 x -> rtc (linked w2) x (0, 2 - 1)) /\
       link_count_sum g w2 = (Ok (2 * (2 * 2 - 1)), w2)).
Proof. apply (sidewinder_spanning_tree 2 2 world0 (1 # 2)); lia. Defined.

(** ** [aldous_broder] carves a spanning tree, when it returns *)

(** A bounded [while] loop with an invariant: it runs out of steps or
    leaves with the postcondition, and never raises. *)
Lemma loop_inv {S A} (I : S -> World -> Prop) (Q : A -> World -> Prop)
    (body : S -> M (S + A)) :
  (forall s w, I s w ->
     exists r w', body s w = (Ok r, w') /\
                  match r with inl s' => I s' w' | inr a => Q a w' end) ->
  forall fuel s w, I s w ->
    (exists w', loop fuel body s w = (OutOfFuel, w')) \/
    (exists a w', loop fuel body s w = (Ok a, w') /\ Q a w').
Proof.
  intros Hbody fuel. induction fuel as [|n IH]; intros s w HI.
  - left. by exists w.
  - destruct (Hbody s w HI) as (r & w' & Hrun & Hr). simpl.
    rewrite (bind_run _ _ _ _ _ Hrun). destruct r as [s'|a].
    + by apply IH.
    + right. by exists a, w'.
Qed.

(** A loop that has returned returns the same with any larger bound. *)
Lemma loop_mono {S A} (body : S -> M (S + A)) fuel fuel' s w a w' :
  (fuel <= fuel')%nat ->
  loop fuel body s w = (Ok a, w') -> loop fuel' body s w = (Ok a, w').
Proof.
  revert fuel' s w. induction fuel as [|n IH]; intros fuel' s w Hle Hrun; [done|].
  destruct fuel' as [|n']; [lia|]. simpl in *. unfold bind in *.
  destruct (body s w) as [[[s1|a1]| | |] w1]; try done.
  apply IH; [lia|done].
Qed.

Lemma fold_left_snoc {A} (l out : list A) :
  fold_left (fun out cell => out ++ [cell]) l out = out ++ l.
Proof.
  revert out. induction l as [|x l IH]; intros out; simpl.
  - by rewrite app_nil_r.
  - by rewrite IH, <- app_assoc.
Qed.

Lemma fold_left_rows {A} (ls : list (list A)) (out : list A) :
  fold_left (fun out alllist => fold_left (fun out cell => out ++ [cell]) alllist out)
            ls out
  = out ++ concat ls.
Proof.
  revert out. induction ls as [|l ls IH]; intros out.
  - simpl. by rewrite app_nil_r.
  - cbn [fold_left concat]. by rewrite fold_left_snoc, IH, <- app_assoc.
Qed.

Lemma all_cells_concat g : all_cells g = concat (grid g).
Proof. unfold all_cells. by rewrite fold_left_rows. Qed.

Lemma list_remove_spec (x : Ref) (l : list Ref) :
  NoDup l -> x ∈ l ->
  exists l', list_remove x l = Ok l' /\ NoDup l' /\
             (forall y, y ∈ l' <-> y ∈ l /\ y <> x) /\
             length l = S (length l').
Proof.
  intros Hnd. induction Hnd as [|y l Hy Hnd IH]; intros Hx.
  - by apply elem_of_nil in Hx.
  - simpl. case_decide as Hxy.
    + subst y. exists l. split; [done|]. split; [done|]. split; [|done].
      intros z. rewrite elem_of_cons. split; [|tauto].
      intros Hz. split; [by right|]. by intros ->.
    + apply elem_of_cons in Hx as [?|Hx]; [done|].
      destruct (IH Hx) as (l' & -> & Hnd' & Hin & Hlen).
      exists (y :: l'). split; [done|]. split.
      * apply NoDup_cons_2; [|done]. rewrite Hin. tauto.
      * split; [|simpl; lia]. intros z. rewrite !elem_of_cons, Hin.
        split; [intros [->|[? ?]]; auto|tauto].
Qed.

(** [neighbors()] of a cell of the grid: the adjacent cells, and at
    least one unless the grid has a single cell. *)
Lemma neighbors_run R C w x :
  grid_topology R C w -> in_grid R C x ->
  exists l, neighbors x w = (Ok l, w) /\
            (forall y, y ∈ l <-> in_grid R C y /\ adjacent x y) /\
            (l = [] -> R = 1 /\ C = 1).
Proof.
  intros Htop Hx. destruct x as [r c]. destruct Hx as [Hr Hc]. simpl in *.
  destruct (Htop r c Hr Hc) as (cell & Hcell & _ & _ & Hn & Hs & Hw & He).
  exists (omap id [north_of r c; south_of R r c; west_of r c; east_of C r c]).
  split; [|split].
  - unfold neighbors, bind, get_cell. rewrite Hcell. simpl.
    rewrite Hn, Hs, Hw, He.
    by destruct (north_of r c), (south_of R r c), (west_of r c), (east_of C r c).
  - intros y. rewrite omap_id_four.
    rewrite north_of_Some, south_of_Some, west_of_Some, east_of_Some.
    unfold in_grid, adjacent. simpl. lia.
  - unfold north_of, south_of, west_of, east_of.
    repeat case_decide; simpl; try done; lia.
Qed.

Lemma links_total_ext (w w' : World) cells :
  (forall x, cell_links w' x = cell_links w x) ->
  links_total w' cells = links_total w cells.
Proof.
  intros H. induction cells as [|x cells IH]; [done|].
  by rewrite !links_total_cons, H, IH.
Qed.

(** Setting the attribute on a cell touches no link. *)
Lemma mark_run R C w t :
  grid_topology R C w -> in_grid R C t ->
  exists w',
    setattr (fun c => set_cell_visited_attr c true) t w = (Ok tt, w') /\
    grid_topology R C w' /\
    (forall x y, linked w' x y <-> linked w x y) /\
    (forall x, marked w' x <-> marked w x \/ x = t) /\
    (forall cells, links_total w' cells = links_total w cells).
Proof.
  intros Htop Ht. destruct (grid_cell_in_store R C w t Htop Ht) as [ct Hct].
  pose proof (preserves_setattr (fun c => set_cell_visited_attr c true) t
                ltac:(done) w) as Hpres.
  rewrite (setattr_run _ _ _ _ Hct) in *. simpl in Hpres.
  eexists. split; [done|]. split; [by apply (grid_topology_preserved R C w)|].
  split; [|split].
  - intros x y. unfold linked. simpl. destruct (decide (x = t)) as [->|Hne].
    + rewrite lookup_insert_eq, Hct. split.
      * intros (c & [= <-] & Hl). eauto.
      * intros (c & [= <-] & Hl). eexists. split; [done|]. done.
    + by rewrite lookup_insert_ne.
  - intros x. unfold marked. simpl. destruct (decide (x = t)) as [->|Hne].
    + rewrite lookup_insert_eq. split; [auto|]. intros _. eexists. split; done.
    + rewrite lookup_insert_ne by done. split; [auto|]. by intros [?|?].
  - intros cells. apply links_total_ext. intros x. unfold cell_links. simpl.
    destruct (decide (x = t)) as [->|Hne].
    + by rewrite lookup_insert_eq, Hct.
    + by rewrite lookup_insert_ne.
Qed.

(** [link] leaves the attribute alone. *)
Lemma link_marked w a b x :
  is_Some (heap w !! a) -> is_Some (heap w !! b) ->
  marked (snd (link a (Some b) true w)) x <-> marked w x.
Proof.
  intros [ca Hca] [cb Hcb].
  destruct (link_store w a b ca cb Hca Hcb) as (h & -> & Ha & Hb & Hother).
  unfold marked. simpl.
  destruct (decide (x = a)) as [->|Hxa]; [|destruct (decide (x = b)) as [->|Hxb]].
  - rewrite Ha, Hca. split; intros (c & [= <-] & Hm); eauto.
  - rewrite Hb, Hcb. split; intros (c & [= <-] & Hm); eauto.
  - by rewrite Hother.
Qed.

Lemma ab_state_heap R C root cur nv count w w' :
  heap w' = heap w -> ab_state R C root cur nv count w -> ab_state R C root cur nv count w'.
Proof.
  destruct w as [h d p], w' as [h' d' p']. simpl. intros -> H. exact H.
Qed.

Lemma marked_cases w x : marked w x \/ ~ marked w x.
Proof.
  unfold marked. destruct (heap w !! x) as [c|]; [|right; by intros (? & ? & ?)].
  destruct (cell_visited_attr c) eqn:Hc; [left; eauto|right].
  intros (c' & [= <-] & H). congruence.
Qed.

(** One turn of the walk. *)
Lemma aldous_broder_step_spec R C root cur nv count w :
  0 < R -> 0 < C ->
  ab_state R C root cur nv count w ->
  exists r w',
    aldous_broder_step (cur, nv, count) w = (Ok r, w') /\
    match r with
    | inl s' => ab_state R C root s'.1.1 s'.1.2 s'.2 w'
    | inr n => n = count /\ nv = [] /\ ab_state R C root cur nv count w'
    end.
Proof.
  intros HR HC Hst.
  pose proof Hst as (Htop & Hnd & Hnv & Hcur & Hmcur & Hroot & HP & Hconn & HT & Hcount).
  unfold aldous_broder_step. destruct (Z.eqb_spec (py_len nv) 0) as [Hz|Hnz].
  { exists (inr count), w. split; [done|]. split; [done|]. split; [|done].
    destruct nv; [done|]. unfold py_len in Hz. simpl in Hz. lia. }
  destruct (neighbors_run R C w cur Htop Hcur) as (l & Hl & Hin & Hempty).
  assert (Hne : l <> []).
  { intros ->. destruct (Hempty eq_refl) as [-> ->].
    destruct nv as [|x nv']; [done|].
    destruct (proj1 (Hnv x) ltac:(left)) as [Hx Hnm]. apply Hnm.
    destruct x as [a b], cur as [a' b']. unfold in_grid in Hx, Hcur. simpl in *.
    by replace a with a' by lia; replace b with b' by lia. }
  rewrite (bind_run _ _ _ _ _ Hl).
  destruct (random_choice_elem l w Hne) as (t & Hch & Ht).
  rewrite (bind_run _ _ _ _ _ Hch). set (w1 := mkWorld _ _ _).
  assert (Hst1 : ab_state R C root cur nv count w1)
    by (by apply (ab_state_heap _ _ _ _ _ _ w)).
  clear Htop Hnv Hmcur HP Hconn HT.
  pose proof Hst1 as (Htop & _ & Hnv & _ & Hmcur & _ & HP & Hconn & HT & _).
  apply Hin in Ht as [Ht Hadj].
  destruct (grid_cell_in_store R C w1 t Htop Ht) as [ct Hct].
  rewrite (bind_run _ _ _ _ _ (getattr_run cell_visited_attr t w1 ct Hct)).
  destruct (cell_visited_attr ct) eqn:Hattr; cbn [negb].
  { exists (inl (t, nv, count + 1)), w1. split; [done|]. simpl.
    split; [done|]. split; [done|]. split; [done|]. split; [done|].
    split; [by exists ct|]. split; [done|]. split; [done|]. split; [done|].
    split; [done|]. lia. }
  assert (Hnm : ~ marked w1 t).
  { intros (c & Hc & Hm). rewrite Hct in Hc. injection Hc as <-. congruence. }
  assert (Hfresh : ~ linked w1 t cur).
  { intros H. by destruct (HP _ _ Ht H) as (_ & _ & _ & ?). }
  pose proof (link_marked w1 cur t) as Hmk.
  destruct (link_fresh R C w1 cur t HR Htop Hcur Ht)
    as (w2 & Hlink & Htop2 & Hl2 & HT2).
  { by intros ->. }
  { intros H. by destruct (HP _ _ Hcur H) as (_ & ? & _). }
  { done. }
  rewrite Hlink in Hmk. simpl in Hmk.
  rewrite (bind_run _ _ _ _ _ Hlink).
  destruct (mark_run R C w2 t Htop2 Ht) as (w3 & Hmark & Htop3 & Hl3 & Hm3 & HT3).
  rewrite (bind_run _ _ _ _ _ Hmark).
  destruct (list_remove_spec t nv Hnd) as (nv' & Hrm & Hnd' & Hnv' & Hlen).
  { by apply Hnv. }
  rewrite (bind_run _ _ _ _ w3 (f_equal (fun r => (r, w3)) Hrm)).
  assert (Hm31 : forall x, marked w3 x <-> marked w1 x \/ x = t).
  { intros x. rewrite Hm3, Hmk; [done|by apply (grid_cell_in_store R C)..]. }
  assert (Hl31 : forall x y, linked w3 x y <->
                             (x = cur /\ y = t) \/ (x = t /\ y = cur) \/ linked w1 x y).
  { intros x y. by rewrite Hl3, Hl2. }
  exists (inl (t, nv', count + 1)), w3. split; [done|]. simpl.
  split; [done|]. split; [done|]. split; [|split; [done|]].
  { intros x. rewrite Hnv', Hnv, Hm31. destruct (decide (x = t)); tauto. }
  split; [apply Hm31; by right|]. split; [done|]. split; [|split; [|split]].
  - intros x y Hx Hxy. apply Hl31 in Hxy as [[-> ->]|[[-> ->]|Hxy]].
    + split; [done|]. split; [apply Hl31; auto|]. split; [done|].
      apply Hm31. by left.
    + split; [done|]. split; [apply Hl31; auto|]. split; [|apply Hm31; by right].
      unfold adjacent in *. lia.
    + destruct (HP x y Hx Hxy) as (Hy & Hyx & Hxyadj & Hmx).
      split; [done|]. split; [apply Hl31; auto|]. split; [done|].
      apply Hm31. by left.
  - intros x Hx Hmx.
    assert (Hold : forall z, in_grid R C z -> marked w1 z -> rtc (linked w3) z root).
    { intros z Hz Hmz. eapply rtc_linked_mono; [|by apply Hconn].
      intros a b Hab. apply Hl31. auto. }
    apply Hm31 in Hmx as [Hmx| ->]; [by apply Hold|].
    eapply rtc_l; [apply Hl31; right; by left|]. by apply Hold.
  - rewrite HT3, HT2, HT. lia.
  - lia.
Qed.



(** ** [wilson] carves a spanning tree, when it returns *)

Lemma py_index_lookup {A} (l : list A) (k : nat) (a : A) :
  l !! k = Some a -> py_index l (Z.of_nat k) = Ok a.
Proof.
  intros Hk. pose proof (lookup_lt_Some _ _ _ Hk) as Hlt.
  unfold py_index. cbv zeta.
  destruct (Z.ltb_spec (Z.of_nat k) 0); [lia|]. cbv iota.
  destruct (Z.ltb_spec (Z.of_nat k) 0); [lia|].
  destruct (Z.leb_spec (Z.of_nat (length l)) (Z.of_nat k)); [lia|]. simpl.
  by rewrite Nat2Z.id, Hk.
Qed.

Lemma py_index_of_last {A} (l : list A) (x : A) :
  last l = Some x -> py_index l (-1) = Ok x.
Proof.
  intros Hl. destruct l as [|a l] using rev_ind; [done|].
  rewrite last_snoc in Hl. injection Hl as ->. apply py_index_last.
Qed.

Lemma last_lookup_length {A} (l : list A) (x : A) :
  last l = Some x -> l !! (length l - 1)%nat = Some x /\ (0 < length l)%nat.
Proof.
  intros Hl. destruct l as [|a l] using rev_ind; [done|].
  rewrite last_snoc in Hl. injection Hl as ->. rewrite length_app. simpl.
  split; [|lia]. replace (length l + 1 - 1)%nat with (length l) by lia.
  apply list_lookup_middle. done.
Qed.

Lemma adjacent_sym x y : adjacent x y -> adjacent y x.
Proof. unfold adjacent. lia. Qed.

Lemma path_link_sym tmp k x y : path_link tmp k x y -> path_link tmp k y x.
Proof. intros (i & a & b & Hi & Ha & Hb & H). exists i, a, b. tauto. Qed.

Lemma path_link_mono tmp k k' x y :
  (k <= k')%nat -> path_link tmp k x y -> path_link tmp k' x y.
Proof.
  intros Hle (i & a & b & Hi & Ha & Hb & H). exists i, a, b.
  split; [lia|]. done.
Qed.

(** Adding the cells of the walk to the maze. *)
Lemma wilson_commit_spec R C root first tmp unused w :
  0 < R ->
  tree_state R C root unused w -> path_ok first tmp unused ->
  exists unused' w',
    wilson_commit tmp unused w = (Ok unused', w') /\
    committing R C tmp unused w (length tmp) unused' w'.
Proof.
  intros HR (Htop & Hnd & Hgrid & Hroot & Hrootu & HP & Hconn & HT)
         (Hndt & Hsub & Hlast & Hadj).
  destruct (last_lookup_length _ _ Hlast) as [Hlastk Hlen].
  unfold wilson_commit.
  destruct (hoare_fold_M (fun k unused_k w_k => committing R C tmp unused w k unused_k w_k)
              (fun cell_unused i =>
                 a <- index_M tmp i ;;
                 b <- index_M tmp (-1) ;;
                 (if decide (a = b) then ret tt
                  else a' <- index_M tmp i ;;
                       n <- index_M tmp (i + 1) ;;
                       link a' (Some n) true) ;;
                 x <- index_M tmp i ;;
                 lift (list_remove x cell_unused))
              (py_range (py_len tmp)) unused) with (w := w)
    as (unused' & w' & Hrun & Hfin).
  - intros k i unused_k Hi w_k (Htopk & Hndk & Hunk & Hlenk & Hlk & HTk).
    apply py_range_lookup in Hi as [-> Hk]. unfold py_len in Hk.
    rewrite Nat2Z.id in Hk.
    destruct (lookup_lt_is_Some_2 tmp k Hk) as [a Ha].
    assert (Hidx : forall w0, index_M tmp (Z.of_nat k) w0 = (Ok a, w0)).
    { intros w0. unfold index_M, lift. by rewrite (py_index_lookup _ _ _ Ha). }
    assert (Hidl : forall w0, index_M tmp (-1) w0 = (Ok first, w0)).
    { intros w0. unfold index_M, lift. by rewrite (py_index_of_last _ _ Hlast). }
    assert (Hau : a ∈ unused) by (eapply Hsub, list_elem_of_lookup_2, Ha).
    assert (Hak : a ∉ take k tmp).
    { intros Hin. apply list_elem_of_lookup_1 in Hin as [i Hi].
      pose proof (lookup_lt_Some _ _ _ Hi) as Hlt. rewrite length_take in Hlt.
      rewrite lookup_take_lt in Hi by lia.
      pose proof (NoDup_lookup _ _ _ _ Hndt Hi Ha). lia. }
    destruct (list_remove_spec a unused_k Hndk) as (unused1 & Hrm & Hnd1 & Hun1 & Hlen1).
    { by apply Hunk. }
    assert (Hun1' : forall x, x ∈ unused1 <-> x ∈ unused /\ x ∉ take (S k) tmp).
    { intros x. rewrite Hun1, Hunk, (take_S_r _ _ _ Ha), not_elem_of_app.
      rewrite list_elem_of_singleton. tauto. }
    rewrite (bind_run _ _ _ _ _ (Hidx w_k)), (bind_run _ _ _ _ _ (Hidl w_k)).
    case_decide as Hab.
    + assert (k = length tmp - 1)%nat as Hklast.
      { subst a. exact (NoDup_lookup _ _ _ _ Hndt Ha Hlastk). }
      rewrite (bind_run _ _ _ _ _ (eq_refl : ret tt w_k = (Ok tt, w_k))).
      rewrite (bind_run _ _ _ _ _ (Hidx w_k)).
      exists unused1, w_k. split; [by unfold lift; rewrite Hrm|].
      split; [done|]. split; [done|]. split; [done|]. split; [lia|]. split.
      * intros x y. rewrite Hlk. split; (intros [?|Hp]; [by left|right]).
        -- eapply path_link_mono; [|done]. lia.
        -- destruct Hp as (i & a' & b' & Hi & Ha' & Hb' & H).
           exists i, a', b'. split; [|done].
           pose proof (lookup_lt_Some _ _ _ Hb'). lia.
      * rewrite HTk. do 2 f_equal. lia.
    + assert (Hk1 : (S k < length tmp)%nat).
      { destruct (decide (k = length tmp - 1)%nat) as [->|]; [|lia].
        rewrite Hlastk in Ha. by injection Ha as ->. }
      destruct (lookup_lt_is_Some_2 tmp (S k) Hk1) as [n Hn].
      assert (Hidn : forall w0, index_M tmp (Z.of_nat k + 1) w0 = (Ok n, w0)).
      { intros w0. unfold index_M, lift.
        replace (Z.of_nat k + 1) with (Z.of_nat (S k)) by lia.
        by rewrite (py_index_lookup _ _ _ Hn). }
      assert (Hnu : n ∈ unused) by (eapply Hsub, list_elem_of_lookup_2, Hn).
      assert (Hnolink : forall x y, x ∈ unused -> ~ linked w x y).
      { intros x y Hx H. by destruct (HP x y (Hgrid x Hx) H) as (_ & _ & _ & ?). }
      assert (Hfresh : ~ linked w_k a n /\ ~ linked w_k n a).
      { split; intros H; apply Hlk in H as [H|(i & a' & b' & Hi & Ha' & Hb' & H)];
          [exact (Hnolink _ _ Hau H)| |exact (Hnolink _ _ Hnu H)|];
          destruct H as [[E1 E2]|[E1 E2]]; subst a' b';
          try pose proof (NoDup_lookup _ _ _ _ Hndt Ha Ha');
          try pose proof (NoDup_lookup _ _ _ _ Hndt Ha Hb');
          try pose proof (NoDup_lookup _ _ _ _ Hndt Hn Ha');
          try pose proof (NoDup_lookup _ _ _ _ Hndt Hn Hb'); lia. }
      destruct (link_fresh R C w_k a n HR Htopk (Hgrid a Hau) (Hgrid n Hnu))
        as (w1 & Hlink & Htop1 & Hl1 & HT1); [|apply Hfresh..|].
      { intros ->. pose proof (NoDup_lookup _ _ _ _ Hndt Ha Hn). lia. }
      assert (Hinner : (a' <- index_M tmp (Z.of_nat k) ;;
                        n' <- index_M tmp (Z.of_nat k + 1) ;;
                        link a' (Some n') true) w_k = (Ok tt, w1)).
      { by rewrite (bind_run _ _ _ _ _ (Hidx w_k)), (bind_run _ _ _ _ _ (Hidn w_k)). }
      rewrite (bind_run _ _ _ _ _ Hinner).
      rewrite (bind_run _ _ _ _ _ (Hidx w1)).
      exists unused1, w1. split; [by unfold lift; rewrite Hrm|].
      split; [done|]. split; [done|]. split; [done|]. split; [lia|]. split.
      * intros x y. rewrite Hl1, Hlk. split.
        -- intros [[-> ->]|[[-> ->]|[?|Hp]]]; [right|right|by left|right].
           ++ exists k, a, n. split; [lia|]. auto.
           ++ exists k, a, n. split; [lia|]. auto.
           ++ eapply path_link_mono; [|done]. lia.
        -- intros [?|(i & a' & b' & Hi & Ha' & Hb' & H)]; [tauto|].
           destruct (decide (i = k)) as [->|Hik].
           ++ rewrite Ha in Ha'. rewrite Hn in Hb'.
              injection Ha' as <-. injection Hb' as <-. tauto.
           ++ right. right. right. exists i, a', b'. split; [lia|]. done.
      * rewrite HT1, HTk. lia.
  - split; [done|]. split; [done|]. split; [|split; [lia|split]].
    + intros x. rewrite take_0, elem_of_nil. tauto.
    + intros x y. split; [auto|]. intros [?|(i & _ & _ & Hi & _)]; [done|lia].
    + simpl. lia.
  - exists unused', w'. split; [done|].
    rewrite py_range_length in Hfin. unfold py_len in Hfin.
    by rewrite Nat2Z.id in Hfin.
Qed.

Lemma pop_until_rev_spec (l : list Ref) (next : Ref) :
  next ∈ l ->
  exists pre post, l = pre ++ next :: post /\ pop_until_rev l next = Ok (next :: post).
Proof.
  induction l as [|x l IH]; intros Hin; [by apply elem_of_nil in Hin|].
  simpl. case_decide as Hx.
  - subst x. by exists [], l.
  - apply elem_of_cons in Hin as [?|Hin]; [done|].
    destruct (IH Hin) as (pre & post & -> & Hrun). by exists (x :: pre), post.
Qed.

(** The loop that erases a loop of the walk keeps the walk up to the
    cell it has come back to. *)
Lemma pop_until_spec (tmp : list Ref) (next : Ref) :
  next ∈ tmp ->
  exists keep drop, tmp = (keep ++ [next]) ++ drop /\
                    pop_until tmp next = Ok (keep ++ [next]).
Proof.
  intros Hin. apply elem_of_reverse in Hin.
  destruct (pop_until_rev_spec _ _ Hin) as (pre & post & Hrev & Hrun).
  exists (reverse post), (reverse pre). split.
  - apply (f_equal reverse) in Hrev.
    by rewrite reverse_involutive, reverse_app, reverse_cons in Hrev.
  - unfold pop_until. by rewrite Hrun, reverse_cons.
Qed.

Lemma path_ok_prefix first keep next drop unused :
  path_ok first ((keep ++ [next]) ++ drop) unused -> path_ok next (keep ++ [next]) unused.
Proof.
  intros (Hnd & Hsub & _ & Hadj). split; [|split; [|split]].
  - by apply NoDup_app in Hnd as [? _].
  - intros x Hx. apply Hsub, elem_of_app. by left.
  - by rewrite last_snoc.
  - intros i a b Ha Hb. apply (Hadj i); by apply lookup_app_l_Some.
Qed.

Lemma path_ok_snoc first tmp next unused :
  path_ok first tmp unused -> next ∈ unused -> next ∉ tmp -> adjacent first next ->
  path_ok next (tmp ++ [next]) unused.
Proof.
  intros (Hnd & Hsub & Hlast & Hadj) Hu Hnt Hfn.
  destruct (last_lookup_length _ _ Hlast) as [Hlastk Hlen].
  split; [|split; [|split]].
  - apply NoDup_app. split; [done|]. split; [|apply NoDup_singleton].
    intros x Hx ->%list_elem_of_singleton. done.
  - intros x [Hx| ->%list_elem_of_singleton]%elem_of_app; [by apply Hsub|done].
  - by rewrite last_snoc.
  - intros i a b Ha Hb.
    pose proof (lookup_lt_Some _ _ _ Hb) as Hlt. rewrite length_app in Hlt. simpl in Hlt.
    destruct (decide (S i < length tmp)%nat) as [Hin|Hout].
    + rewrite lookup_app_l in Ha, Hb by lia. by apply (Hadj i).
    + assert (i = length tmp - 1)%nat as -> by lia.
      rewrite lookup_app_l in Ha by lia. rewrite Hlastk in Ha. injection Ha as <-.
      rewrite lookup_app_r in Hb by lia.
      replace (S (length tmp - 1) - length tmp)%nat with 0%nat in Hb by lia.
      by injection Hb as <-.
Qed.

Lemma path_ok_single x unused : x ∈ unused -> path_ok x [x] unused.
Proof.
  intros Hx. split; [apply NoDup_singleton|]. split; [|split; [done|]].
  - by intros y ->%list_elem_of_singleton.
  - intros i a b Ha Hb. by destruct i.
Qed.

(** Along a list whose consecutive items are related, every item
    reaches the last. *)
Lemma path_connected {A} (Rel : A -> A -> Prop) (tmp : list A) (first : A) :
  (forall i a b, tmp !! i = Some a -> tmp !! S i = Some b -> Rel a b) ->
  last tmp = Some first -> forall x, x ∈ tmp -> rtc Rel x first.
Proof.
  induction tmp as [|a tmp IH]; intros Hadj Hlast x Hx; [by apply elem_of_nil in Hx|].
  destruct tmp as [|b tmp].
  - apply list_elem_of_singleton in Hx as ->. by injection Hlast as ->.
  - assert (IH' : forall y, y ∈ b :: tmp -> rtc Rel y first).
    { apply IH; [|done]. intros i a' b' Ha' Hb'. by apply (Hadj (S i)). }
    apply elem_of_cons in Hx as [->|Hx]; [|by apply IH'].
    eapply rtc_l; [by apply (Hadj 0%nat)|]. apply IH'. by left.
Qed.

Lemma tree_state_heap R C root unused w w' :
  heap w' = heap w -> tree_state R C root unused w -> tree_state R C root unused w'.
Proof.
  destruct w as [h d p], w' as [h' d' p']. simpl. intros -> H. exact H.
Qed.

(** The walk has met the maze: its cells and the link to the maze are
    added, and the maze is a tree again. *)
Lemma wilson_attach R C root first tmp unused next w :
  0 < R ->
  tree_state R C root unused w -> path_ok first tmp unused ->
  in_grid R C next -> next ∉ unused -> adjacent first next ->
  exists unused' w',
    (cell_unused <- wilson_commit tmp unused ;;
     l <- index_M tmp (-1) ;;
     link l (Some next) true ;;
     ret cell_unused) w = (Ok unused', w') /\
    tree_state R C root unused' w' /\
    (length unused' < length unused)%nat.
Proof.
  intros HR Hst Hpath Hnext Hnu Hfn.
  destruct (wilson_commit_spec R C root first tmp unused w HR Hst Hpath)
    as (unused' & w2 & Hcommit & (Htop2 & Hnd2 & Hun2 & Hlen2 & Hl2 & HT2)).
  destruct Hst as (Htop & Hnd & Hgrid & Hroot & Hrootu & HP & Hconn & HT).
  pose proof Hpath as (Hndt & Hsub & Hlast & Hadj).
  destruct (last_lookup_length _ _ Hlast) as [Hlastk Hlen].
  rewrite take_ge in Hun2 by lia.
  assert (Hft : first ∈ tmp) by (by eapply list_elem_of_lookup_2).
  assert (Hplink : forall x y, path_link tmp (length tmp) x y ->
                               x ∈ tmp /\ y ∈ tmp /\ adjacent x y).
  { intros x y (i & a & b & _ & Ha & Hb & H).
    pose proof (list_elem_of_lookup_2 _ _ _ Ha). pose proof (list_elem_of_lookup_2 _ _ _ Hb).
    pose proof (Hadj i a b Ha Hb). pose proof (adjacent_sym a b).
    destruct H as [[-> ->]|[-> ->]]; auto. }
  rewrite (bind_run _ _ _ _ _ Hcommit).
  unfold index_M at 1.
  rewrite (bind_run _ _ _ _ w2 (f_equal (fun r => (r, w2)) (py_index_of_last _ _ Hlast))).
  destruct (link_fresh R C w2 first next HR Htop2 (Hgrid _ (Hsub _ Hft)) Hnext)
    as (w3 & Hlink & Htop3 & Hl3 & HT3).
  { intros ->. by apply Hnu, Hsub. }
  { intros [H|H]%Hl2.
    - destruct (HP _ _ (Hgrid _ (Hsub _ Hft)) H) as (_ & _ & _ & Hx). by apply Hx, Hsub.
    - apply Hplink in H as (_ & H & _). by apply Hnu, Hsub. }
  { intros [H|H]%Hl2.
    - destruct (HP _ _ Hnext H) as (_ & H' & _).
      destruct (HP _ _ (Hgrid _ (Hsub _ Hft)) H') as (_ & _ & _ & Hx). by apply Hx, Hsub.
    - apply Hplink in H as (H & _). by apply Hnu, Hsub. }
  rewrite (bind_run _ _ _ _ _ Hlink).
  assert (Hl31 : forall x y, linked w3 x y <->
            (x = first /\ y = next) \/ (x = next /\ y = first) \/
            linked w x y \/ path_link tmp (length tmp) x y).
  { intros x y. by rewrite Hl3, Hl2. }
  assert (Hmono : forall x y, linked w x y -> linked w3 x y)
    by (intros x y H; apply Hl31; auto).
  exists unused', w3. split; [done|]. split; [|lia].
  split; [done|]. split; [done|]. split; [|split; [done|split; [|split; [|split]]]].
  - intros x Hx%Hun2. apply Hgrid, Hx.
  - intros Hr%Hun2. by destruct Hr.
  - intros x y Hx Hxy. apply Hl31 in Hxy as [[-> ->]|[[-> ->]|[Hxy|Hxy]]].
    + split; [done|]. split; [apply Hl31; auto|]. split; [done|].
      intros Hin%Hun2. by destruct Hin.
    + split; [by apply Hgrid, Hsub|]. split; [apply Hl31; auto|].
      split; [by apply adjacent_sym|]. intros Hin%Hun2. by destruct Hin.
    + destruct (HP x y Hx Hxy) as (Hy & Hyx & Hxyadj & Hxu).
      split; [done|]. split; [by apply Hmono|]. split; [done|].
      intros Hin%Hun2. by destruct Hin.
    + pose proof (path_link_sym _ _ _ _ Hxy) as Hyx.
      apply Hplink in Hxy as (Hxt & Hyt & Hxyadj).
      split; [by apply Hgrid, Hsub|]. split; [apply Hl31; auto|]. split; [done|].
      intros Hin%Hun2. by destruct Hin.
  - intros x Hx Hxu.
    assert (Hold : forall z, in_grid R C z -> z ∉ unused -> rtc (linked w3) z root).
    { intros z Hz Hzu. eapply rtc_linked_mono; [exact Hmono|]. by apply Hconn. }
    destruct (decide (x ∈ tmp)) as [Hxt|Hxt].
    + eapply rtc_trans.
      { apply (path_connected (linked w3) tmp first); [|done..].
        intros i a b Ha Hb. apply Hl31. right. right. right.
        exists i, a, b. split; [|auto]. apply (lookup_lt_Some _ _ _ Ha). }
      eapply rtc_l; [apply Hl31; by left|]. by apply Hold.
    + apply Hold; [done|]. intros Hin. apply Hxu, Hun2. done.
  - rewrite HT3, HT2, HT. lia.
Qed.

(** One turn of the loop of [wilson]. *)
Lemma wilson_step_spec R C root first tmp unused loops w :
  0 < R -> 0 < C ->
  tree_state R C root unused w -> path_ok first tmp unused -> 0 <= loops ->
  exists r w',
    wilson_step (first, tmp, unused, loops) w = (Ok r, w') /\
    match r with
    | inl s' => tree_state R C root s'.1.2 w' /\ path_ok s'.1.1.1 s'.1.1.2 s'.1.2 /\
                0 <= s'.2
    | inr n => 0 <= n /\ tree_state R C root [] w'
    end.
Proof.
  intros HR HC Hst Hpath Hloops.
  pose proof Hst as (Htop & Hnd & Hgrid & Hroot & Hrootu & HP & Hconn & HT).
  pose proof Hpath as (Hndt & Hsub & Hlast & Hadj).
  destruct (last_lookup_length _ _ Hlast) as [Hlastk Hlen].
  assert (Hfu : first ∈ unused) by (by eapply Hsub, list_elem_of_lookup_2).
  pose proof (Hgrid _ Hfu) as Hfg.
  unfold wilson_step.
  destruct (neighbors_run R C w first Htop Hfg) as (l & Hl & Hin & Hempty).
  assert (Hne : l <> []).
  { intros ->. destruct (Hempty eq_refl) as [-> ->]. apply Hrootu.
    destruct root as [a b], first as [a' b']. unfold in_grid in Hroot, Hfg. simpl in *.
    by replace a with a' by lia; replace b with b' by lia. }
  rewrite (bind_run _ _ _ _ _ Hl).
  destruct (random_choice_elem l w Hne) as (next & Hch & Hnext).
  rewrite (bind_run _ _ _ _ _ Hch). set (w1 := mkWorld _ _ _).
  assert (Hst1 : tree_state R C root unused w1)
    by (by apply (tree_state_heap _ _ _ _ w)).
  apply Hin in Hnext as [Hng Hfn].
  case_bool_decide as Hnu; cbn [negb].
  - case_bool_decide as Hnt.
    + destruct (pop_until_spec tmp next Hnt) as (keep & drop & Htmp & Hpop).
      rewrite (bind_run _ _ _ _ w1 (f_equal (fun r => (r, w1)) Hpop)).
      unfold index_M.
      rewrite (bind_run _ _ _ _ w1 (f_equal (fun r => (r, w1)) (py_index_last keep next))).
      eexists (inl _), w1. split; [done|]. simpl. split; [done|]. split; [|lia].
      apply (path_ok_prefix first keep next drop). by rewrite <- Htmp.
    + eexists (inl _), w1. split; [done|]. simpl. split; [done|]. split; [|lia].
      by apply (path_ok_snoc first).
  - destruct (wilson_attach R C root first tmp unused next w1 HR Hst1 Hpath Hng Hnu Hfn)
      as (unused' & w3 & Hrun & Hst3 & Hlen3).
    unfold bind in Hrun. unfold bind at 1 2 3.
    destruct (wilson_commit tmp unused w1) as [[u1| | |] w2]; try done.
    destruct (index_M tmp (-1) w2) as [[l1| | |] w2']; try done.
    destruct (link l1 (Some next) true w2') as [[[]| | |] w2'']; try done.
    unfold ret in Hrun. injection Hrun as -> ->.
    destruct (Z.eqb_spec (py_len unused') 0) as [Hz|Hnz].
    + exists (inr loops), w3. split; [done|]. split; [done|].
      destruct unused'; [done|]. unfold py_len in Hz. simpl in Hz. lia.
    + destruct (random_choice_elem unused' w3) as (first' & Hch' & Hf').
      { intros ->. by apply Hnz. }
      rewrite (bind_run _ _ _ _ _ Hch').
      eexists (inl _), _. split; [done|]. simpl. split; [|split; [|lia]].
      * by apply (tree_state_heap _ _ _ _ w3).
      * by apply path_ok_single.
Qed.



(** ** Single cells *)


(** X18.  For a cell of the store whose method [cell_visited] has not
    been replaced by an attribute: [is_visited()] returns the flag
    [visit]; [cell_visited()] sets it, so [is_visited()] is True
    afterwards, and calling it again changes nothing; it touches no
    link, no neighbour and no other cell. *)
Theorem cell_visited_round_trip (w : World) (x : Ref) (cell : Cell) :
  heap w !! x = Some cell -> cell_visited_attr cell = false ->
  let w1 := snd (cell_visited x w) in
  is_visited x w = (Ok (visit cell), w) /\
  cell_visited x w = (Ok tt, w1) /\
  is_visited x w1 = (Ok true, w1) /\
  cell_visited x w1 = (Ok tt, w1) /\
  (forall a b, linked w1 a b <-> linked w a b) /\
  same_topology w w1 /\
  (forall y, y <> x -> heap w1 !! y = heap w !! y).
Proof.
  intros Hx _. cbv zeta.
  pose proof (preserves_cell_visited x w) as Hpres.
  unfold cell_visited, is_visited, bind, get_cell, put_cell, ret in *.
  rewrite Hx in *. simpl in *. rewrite lookup_insert_eq. simpl.
  split; [done|]. split; [done|]. split; [done|]. split; [|split; [|split; [done|]]].
  - rewrite insert_insert_eq. done.
  - intros a b. unfold linked. simpl. destruct (decide (a = x)) as [->|Hne].
    + rewrite lookup_insert_eq, Hx. split; intros (c' & [= <-] & Hl); eauto.
    + by rewrite lookup_insert_ne.
  - intros y Hy. by rewrite lookup_insert_ne.
Qed.

(** The theorem of X18 at the first cell of the fresh 1 x 2 grid. *)
Lemma cell_visited_round_trip_witness :
  let w1 := snd (cell_visited (0, 0) w_fresh12) in
  is_visited (0, 0) w_fresh12 = (Ok (visit (wired 1 2 0 0)), w_fresh12) /\
  cell_visited (0, 0) w_fresh12 = (Ok tt, w1) /\
  is_visited (0, 0) w1 = (Ok true, w1) /\
  cell_visited (0, 0) w1 = (Ok tt, w1) /\
  (forall a b, linked w1 a b <-> linked w_fresh12 a b) /\
  same_topology w_fresh12 w1 /\
  (forall y, y <> (0, 0) -> heap w1 !! y = heap w_fresh12 !! y).
Proof.
  apply (cell_visited_round_trip w_fresh12 (0, 0) (wired 1 2 0 0)); reflexivity.
Defined.

(** X19.  For a cell of the store, [all_links()] holds each cell it is
    linked to once and no other, [link_count()] is the length of that
    list, [is_linked(B)] tells whether B is in it, and [is_linked(None)]
    raises AssertionError; none of them changes anything. *)
Theorem all_links_is_linked (w : World) (a : Ref) (cell : Cell) :
  heap w !! a = Some cell ->
  exists l,
    all_links a w = (Ok l, w) /\
    NoDup l /\
    (forall b, b ∈ l <-> linked w a b) /\
    link_count a w = (Ok (Z.of_nat (length l)), w) /\
    (forall b, is_linked a (Some b) w = (Ok (bool_decide (b ∈ l)), w)) /\
    is_linked a None w = (Raise AssertionError, w).
Proof.
  intros Ha. exists (fst <$> map_to_list (links cell)).
  assert (Hin : forall b, b ∈ fst <$> map_to_list (links cell) <-> is_Some (links cell !! b)).
  { intros b. rewrite list_elem_of_fmap. split.
    - intros ([b' v] & -> & Hbv%elem_of_map_to_list). eauto.
    - intros [v Hv]. exists (b, v). split; [done|]. by apply elem_of_map_to_list. }
  split; [|split; [|split; [|split; [|split]]]].
  - unfold all_links, bind, get_cell. by rewrite Ha.
  - apply NoDup_fst_map_to_list.
  - intros b. rewrite Hin. unfold linked. rewrite Ha. split; [eauto|].
    by intros (c' & [= <-] & Hl).
  - rewrite (link_count_run _ _ _ Ha). by rewrite length_fmap, length_map_to_list.
  - intros b. unfold is_linked, bind, assert_cell, ret, get_cell. rewrite Ha.
    do 2 f_equal. apply bool_decide_ext. by rewrite Hin.
  - reflexivity.
Qed.

(** The theorem of X19 at the first cell of the linked 1 x 2 grid. *)
Lemma all_links_is_linked_witness :
  exists l,
    all_links (0, 0) w_pair = (Ok l, w_pair) /\
    NoDup l /\
    (forall b, b ∈ l <-> linked w_pair (0, 0) b) /\
    link_count (0, 0) w_pair = (Ok (Z.of_nat (length l)), w_pair) /\
    (forall b, is_linked (0, 0) (Some b) w_pair = (Ok (bool_decide (b ∈ l)), w_pair)) /\
    is_linked (0, 0) None w_pair = (Raise AssertionError, w_pair).
Proof.
  apply (all_links_is_linked w_pair (0, 0)
           (set_links (wired 1 2 0 0) (<[(0, 1) := true]> ∅))).
  vm_compute. reflexivity.
Defined.
